(** * claude-context-local: chunking, filter translation, hybrid ranking and
      the indexing handlers

    A shallow embedding of the TypeScript sources:
    - [AstCodeSplitter] (syntax-tree chunker and size refiner),
    - [PostgresVectorDatabase] (filter-expression translator, hybrid search),
    - [ToolHandlers] (start-indexing request, background indexing job,
      multi-codebase search).

    Text whose characters matter (source code, chunk contents, filter
    expressions) is a list of UTF-16 code units, so that [length] is the
    JavaScript [.length]; identifiers, paths and messages that are only
    compared and concatenated are [string]s.  JavaScript numbers that hold
    sizes and line numbers are integers in [Z]. *)

From Stdlib Require Import ZArith NArith List Lia Bool Sorted Permutation.
From Stdlib Require Import Ascii String.
From Stdlib Require Import QArith.
From stdpp Require Import gmap strings list sorting pretty.
Close Scope Q_scope.
Open Scope Z_scope.

(** ** JavaScript strings as code-unit lists *)

Module Js.

(** A string literal as its code units (ASCII literals only). *)
Definition str (s : string) : list N :=
  map N_of_ascii (list_ascii_of_string s).

Definition LF : N := 10%N.

(** [s.length] *)
Definition len (s : list N) : Z := Z.of_nat (length s).

(** WhiteSpace and LineTerminator code points, the ones [trim] strips. *)
Definition is_space (c : N) : bool :=
  ((c =? 9) || (c =? 10) || (c =? 11) || (c =? 12) || (c =? 13)
   || (c =? 32) || (c =? 160) || (c =? 5760)
   || ((8192 <=? c) && (c <=? 8202))
   || (c =? 8232) || (c =? 8233) || (c =? 8239) || (c =? 8287)
   || (c =? 12288) || (c =? 65279))%N.

Fixpoint trimStart (s : list N) : list N :=
  match s with
  | c :: s' => if is_space c then trimStart s' else s
  | [] => []
  end.

Definition trimEnd (s : list N) : list N := rev (trimStart (rev s)).

(** [s.trim()] *)
Definition trim (s : list N) : list N := trimEnd (trimStart s).

(** [s.split('\n')]: never empty, [''.split('\n')] is [['']]. *)
Fixpoint split_lines (s : list N) : list (list N) :=
  match s with
  | [] => [[]]
  | c :: s' =>
      if (c =? LF)%N then [] :: split_lines s'
      else match split_lines s' with
           | l :: ls => (c :: l) :: ls
           | [] => [[c]]
           end
  end.

(** [s.slice(start)] for an integer [start]; a negative [start] counts
    from the end and is clamped at the beginning of the string. *)
Definition slice_from (start : Z) (s : list N) : list N :=
  let k := if start <? 0 then Z.max (len s + start) 0
           else Z.min start (len s) in
  skipn (Z.to_nat k) s.

(** [s.slice(a, b)] for non-negative indices. *)
Definition slice (a b : nat) (s : list N) : list N :=
  firstn (b - a) (skipn a s).

(** Number of line feeds in a text. *)
Definition newlines (s : list N) : Z :=
  Z.of_nat (length (List.filter (fun c => (c =? LF)%N) s)).

(** ASCII lower- and upper-casing of identifiers. *)
Definition lower_ascii (a : ascii) : ascii :=
  let n := nat_of_ascii a in
  if ((65 <=? n) && (n <=? 90))%nat then ascii_of_nat (n + 32) else a.

Definition upper_ascii (a : ascii) : ascii :=
  let n := nat_of_ascii a in
  if ((97 <=? n) && (n <=? 122))%nat then ascii_of_nat (n - 32) else a.

Fixpoint map_string (f : ascii -> ascii) (s : string) : string :=
  match s with
  | EmptyString => EmptyString
  | String a s' => String (f a) (map_string f s')
  end.

Definition toLowerCase : string -> string := map_string lower_ascii.
Definition toUpperCase : string -> string := map_string upper_ascii.

(** [xs.includes(x)] on string arrays. *)
Definition includes (xs : list string) (x : string) : bool :=
  existsb (String.eqb x) xs.

End Js.

(** ** The AST code splitter *)

Module AstCodeSplitter.
Import Js.

Record Metadata := {
  startLine : Z;
  endLine : Z;
  language : string;
  filePath : option string;
  isDefinition : option bool
}.

Record CodeChunk := { content : list N; metadata : Metadata }.

Definition start_of (c : CodeChunk) : Z := startLine (metadata c).

(** A tree-sitter node: type, start and end rows (0-based), start and end
    offsets into the source, children in document order. *)
#[warnings="-register-all"] Inductive SyntaxNode :=
  mkNode (type : string) (startRow endRow : nat)
         (startIndex endIndex : nat) (children : list SyntaxNode).

Definition node_startRow (n : SyntaxNode) : nat :=
  match n with mkNode _ r _ _ _ _ => r end.
Definition node_endRow (n : SyntaxNode) : nat :=
  match n with mkNode _ _ r _ _ _ => r end.

(** Grammars the splitter loads with [safeRequire]. *)
Inductive Grammar :=
  JavaScript | TypeScript | Python | Java | Cpp | Go | Rust | CSharp
| Scala | Dart.

Definition SPLITTABLE_NODE_TYPES (g : Grammar) : list string :=
  match g with
  | JavaScript => ["function_declaration"; "arrow_function";
      "class_declaration"; "method_definition"; "export_statement"]
  | TypeScript => ["function_declaration"; "arrow_function";
      "class_declaration"; "method_definition"; "export_statement";
      "interface_declaration"; "type_alias_declaration"]
  | Python => ["function_definition"; "class_definition";
      "decorated_definition"; "async_function_definition"; "module";
      "expression_statement"]
  | Java => ["method_declaration"; "class_declaration";
      "interface_declaration"; "constructor_declaration";
      "annotation_type_declaration"]
  | Cpp => ["function_definition"; "class_specifier";
      "namespace_definition"; "declaration"; "template_declaration"]
  | Go => ["function_declaration"; "method_declaration";
      "type_declaration"; "var_declaration"; "const_declaration";
      "source_file"]
  | Rust => ["function_item"; "impl_item"; "struct_item"; "enum_item";
      "trait_item"; "mod_item"; "macro_definition"; "source_file"]
  | CSharp => ["method_declaration"; "class_declaration";
      "interface_declaration"; "struct_declaration"; "enum_declaration";
      "delegate_declaration"]
  | Scala => ["method_declaration"; "class_declaration";
      "interface_declaration"; "constructor_declaration";
      "object_definition"; "trait_definition"]
  | Dart => ["class_definition"; "enum_declaration"; "mixin_declaration";
      "extension_declaration"; "method_signature"; "function_signature";
      "getter_signature"; "setter_signature"; "constructor_signature"]
  end%string.

(** [getLanguageConfig]: the grammar and node types of a language name. *)
Definition getLanguageConfig (language : string)
  : option (Grammar * list string) :=
  let cfg g := Some (g, SPLITTABLE_NODE_TYPES g) in
  let l := toLowerCase language in
  if String.eqb l "javascript" then cfg JavaScript
  else if String.eqb l "js" then cfg JavaScript
  else if String.eqb l "typescript" then cfg TypeScript
  else if String.eqb l "ts" then cfg TypeScript
  else if String.eqb l "python" then cfg Python
  else if String.eqb l "py" then cfg Python
  else if String.eqb l "java" then cfg Java
  else if String.eqb l "cpp" then cfg Cpp
  else if String.eqb l "c++" then cfg Cpp
  else if String.eqb l "c" then cfg Cpp
  else if String.eqb l "go" then cfg Go
  else if String.eqb l "rust" then cfg Rust
  else if String.eqb l "rs" then cfg Rust
  else if String.eqb l "cs" then cfg CSharp
  else if String.eqb l "csharp" then cfg CSharp
  else if String.eqb l "scala" then cfg Scala
  else if String.eqb l "dart" then cfg Dart
  else None.

(** [isDefinitionNode]: the table is keyed by canonical language names,
    so an alias such as ["js"] finds no entry. *)
Definition definitionTypes (language : string) : option (list string) :=
  (if String.eqb language "javascript" then
     Some ["function_declaration"; "class_declaration"; "method_definition"]
   else if String.eqb language "typescript" then
     Some ["function_declaration"; "class_declaration"; "method_definition";
           "interface_declaration"; "type_alias_declaration"]
   else if String.eqb language "python" then
     Some ["function_definition"; "class_definition";
           "async_function_definition"]
   else if String.eqb language "java" then
     Some ["method_declaration"; "class_declaration";
           "interface_declaration"; "constructor_declaration"]
   else if String.eqb language "cpp" then
     Some ["function_definition"; "class_specifier"]
   else if String.eqb language "go" then
     Some ["function_declaration"; "method_declaration"; "type_declaration"]
   else if String.eqb language "rust" then
     Some ["function_item"; "struct_item"; "enum_item"; "trait_item"]
   else if String.eqb language "csharp" then
     Some ["method_declaration"; "class_declaration";
           "interface_declaration"; "struct_declaration"]
   else if String.eqb language "scala" then
     Some ["method_declaration"; "class_declaration";
           "interface_declaration"]
   else if String.eqb language "dart" then
     Some ["class_definition"; "enum_declaration"; "mixin_declaration";
           "function_signature"; "method_signature"]
   else None)%string.

Definition isDefinitionNode (nodeType language : string) : bool :=
  match definitionTypes (toLowerCase language) with
  | Some types => includes types nodeType
  | None => false
  end.

(** The closure [traverse] of [extractChunks]: pre-order, a chunk for
    every splittable node with non-blank text, then the children. *)
Fixpoint traverse (code : list N) (splittableTypes : list string)
    (lang : string) (file : option string) (currentNode : SyntaxNode)
  : list CodeChunk :=
  match currentNode with
  | mkNode type startRow endRow startIndex endIndex children =>
      (if includes splittableTypes type then
         let nodeText := slice startIndex endIndex code in
         if len (trim nodeText) >? 0 then
           [{| content := nodeText;
               metadata := {| startLine := Z.of_nat startRow + 1;
                              endLine := Z.of_nat endRow + 1;
                              language := lang;
                              filePath := file;
                              isDefinition :=
                                Some (isDefinitionNode type lang) |} |}]
         else []
       else [])
      ++ flat_map (traverse code splittableTypes lang file) children
  end.

Definition extractChunks (node : SyntaxNode) (code : list N)
    (splittableTypes : list string) (lang : string) (file : option string)
  : list CodeChunk :=
  let chunks := traverse code splittableTypes lang file node in
  if (length chunks =? 0)%nat then
    [{| content := code;
        metadata := {| startLine := 1;
                       endLine := Z.of_nat (length (split_lines code));
                       language := lang;
                       filePath := file;
                       isDefinition := None |} |}]
  else chunks.

(** *** The refiner *)

(** Loop state of [splitLargeChunk]. *)
Record SplitState := {
  subChunks : list CodeChunk;
  currentChunk : list N;
  currentStartLine : Z;
  currentLineCount : Z
}.

Definition subChunk (chunk : CodeChunk) (st : SplitState) : CodeChunk :=
  {| content := trim (currentChunk st);
     metadata := {| startLine := currentStartLine st;
                    endLine := currentStartLine st + currentLineCount st - 1;
                    language := language (metadata chunk);
                    filePath := filePath (metadata chunk);
                    isDefinition := None |} |}.

(** One iteration of the loop, at index [i] of [n] lines. *)
Definition split_step (chunkSize : Z) (chunk : CodeChunk) (n i : nat)
    (line : list N) (st : SplitState) : SplitState :=
  let lineWithNewline := if (i =? n - 1)%nat then line else line ++ [LF] in
  if (len (currentChunk st) + len lineWithNewline >? chunkSize)
     && (len (currentChunk st) >? 0)
  then {| subChunks := subChunks st ++ [subChunk chunk st];
          currentChunk := lineWithNewline;
          currentStartLine := startLine (metadata chunk) + Z.of_nat i;
          currentLineCount := 1 |}
  else {| subChunks := subChunks st;
          currentChunk := currentChunk st ++ lineWithNewline;
          currentStartLine := currentStartLine st;
          currentLineCount := currentLineCount st + 1 |}.

Fixpoint split_loop (chunkSize : Z) (chunk : CodeChunk) (n i : nat)
    (lines : list (list N)) (st : SplitState) : SplitState :=
  match lines with
  | [] => st
  | line :: rest =>
      split_loop chunkSize chunk n (S i) rest
        (split_step chunkSize chunk n i line st)
  end.

Definition splitLargeChunk (chunkSize : Z) (chunk : CodeChunk)
  : list CodeChunk :=
  let lines := split_lines (content chunk) in
  let st := split_loop chunkSize chunk (length lines) 0 lines
              {| subChunks := []; currentChunk := [];
                 currentStartLine := startLine (metadata chunk);
                 currentLineCount := 0 |} in
  if len (trim (currentChunk st)) >? 0
  then subChunks st ++ [subChunk chunk st]
  else subChunks st.

(** The loop of [refineChunks]: the sequence handed to [addOverlap]. *)
Definition refineSplit (chunkSize : Z) (chunks : list CodeChunk)
  : list CodeChunk :=
  flat_map (fun chunk =>
              if len (content chunk) <=? chunkSize then [chunk]
              else splitLargeChunk chunkSize chunk) chunks.

(** [getLineCount] *)
Definition getLineCount (text : list N) : Z :=
  Z.of_nat (length (split_lines text)).

Definition with_overlap (chunkOverlap : Z) (prevChunk c : CodeChunk)
  : CodeChunk :=
  let overlapText := slice_from (- chunkOverlap) (content prevChunk) in
  {| content := overlapText ++ [LF] ++ content c;
     metadata := {| startLine :=
                      Z.max 1 (startLine (metadata c)
                               - getLineCount overlapText);
                    endLine := endLine (metadata c);
                    language := language (metadata c);
                    filePath := filePath (metadata c);
                    isDefinition := isDefinition (metadata c) |} |}.

Definition addOverlap (chunkOverlap : Z) (chunks : list CodeChunk)
  : list CodeChunk :=
  if (length chunks <=? 1)%nat || (chunkOverlap <=? 0) then chunks
  else
    imap (fun i c =>
            if (0 <? i)%nat && (chunkOverlap >? 0) then
              match chunks !! (i - 1)%nat with
              | Some prevChunk => with_overlap chunkOverlap prevChunk c
              | None => c
              end
            else c) chunks.

Definition refineChunks (chunkSize chunkOverlap : Z)
    (chunks : list CodeChunk) : list CodeChunk :=
  addOverlap chunkOverlap (refineSplit chunkSize chunks).

(** [split] for a language with a grammar: [parse] stands for the
    tree-sitter parser ([None]: no root node or an exception) and
    [langchainFallback] for the LangChain splitter. *)
Definition split (chunkSize chunkOverlap : Z)
    (parse : Grammar -> list N -> option SyntaxNode)
    (langchainFallback : list N -> string -> option string
                         -> list CodeChunk)
    (code : list N) (lang : string) (file : option string)
  : list CodeChunk :=
  match getLanguageConfig lang with
  | None => langchainFallback code lang file
  | Some (grammar, nodeTypes) =>
      match parse grammar code with
      | None => langchainFallback code lang file
      | Some rootNode =>
          refineChunks chunkSize chunkOverlap
            (extractChunks rootNode code nodeTypes lang file)
      end
  end.

End AstCodeSplitter.

(** ** Facts about the string primitives *)

Module JsFacts.
Import Js.

Lemma len_app (s t : list N) : len (s ++ t) = len s + len t.
Proof. unfold len. rewrite length_app. lia. Qed.

Lemma len_nonneg (s : list N) : 0 <= len s.
Proof. unfold len. lia. Qed.

Lemma trimStart_length (s : list N) :
  (length (trimStart s) <= length s)%nat.
Proof.
  induction s as [|c s IH]; simpl; [lia|].
  destruct (is_space c); simpl; lia.
Qed.

Lemma trimEnd_length (s : list N) : (length (trimEnd s) <= length s)%nat.
Proof.
  unfold trimEnd. rewrite length_rev.
  etransitivity; [apply trimStart_length|]. rewrite length_rev. lia.
Qed.

Lemma trim_length (s : list N) : (length (trim s) <= length s)%nat.
Proof.
  unfold trim. etransitivity; [apply trimEnd_length|].
  apply trimStart_length.
Qed.

Lemma len_trim (s : list N) : len (trim s) <= len s.
Proof. unfold len. pose proof (trim_length s). lia. Qed.

Lemma trimStart_snoc_space (s : list N) (c : N) :
  is_space c = true ->
  trimStart (s ++ [c]) = trimStart s ++ [c] \/ trimStart (s ++ [c]) = [].
Proof.
  intros Hc. induction s as [|d s IH]; simpl.
  - rewrite Hc. now right.
  - destruct (is_space d); [exact IH | now left].
Qed.

Lemma trimEnd_snoc_space (s : list N) (c : N) :
  is_space c = true -> trimEnd (s ++ [c]) = trimEnd s.
Proof.
  intros Hc. unfold trimEnd. rewrite rev_app_distr. simpl.
  now rewrite Hc.
Qed.

(** Trimming a text that ends in white space drops at least that
    character. *)
Lemma trim_snoc_space (s : list N) (c : N) :
  is_space c = true -> (length (trim (s ++ [c])) <= length s)%nat.
Proof.
  intros Hc. unfold trim.
  destruct (trimStart_snoc_space s c Hc) as [-> | ->].
  - rewrite trimEnd_snoc_space by assumption.
    etransitivity; [apply trimEnd_length | apply trimStart_length].
  - cbn. lia.
Qed.

Lemma len_trim_line (line : list N) : len (trim (line ++ [LF])) <= len line.
Proof.
  unfold len. pose proof (trim_snoc_space line LF eq_refl). lia.
Qed.

Lemma split_lines_nonempty (s : list N) : split_lines s <> [].
Proof.
  destruct s as [|c s]; simpl; [discriminate|].
  destruct (c =? LF)%N; [discriminate|].
  destruct (split_lines s); discriminate.
Qed.

(** [split] yields one more piece than there are line feeds. *)
Lemma split_lines_count (s : list N) :
  Z.of_nat (length (split_lines s)) = newlines s + 1.
Proof.
  unfold newlines. induction s as [|c s IH]; simpl; [reflexivity|].
  destruct (c =? LF)%N; simpl.
  - lia.
  - pose proof (split_lines_nonempty s).
    destruct (split_lines s); [congruence|]. simpl in *. lia.
Qed.

Lemma slice_from_neg_length (n : Z) (s : list N) :
  0 < n -> len (slice_from (- n) s) = Z.min n (len s).
Proof.
  intros Hn. unfold slice_from, len.
  destruct (Z.ltb_spec (- n) 0); [|lia].
  rewrite length_skipn. lia.
Qed.

(** [s.slice(-n)] is a suffix of [s]. *)
Lemma slice_from_suffix (n : Z) (s : list N) :
  exists pre, s = pre ++ slice_from n s.
Proof.
  unfold slice_from. eexists. symmetry. apply firstn_skipn.
Qed.

End JsFacts.

(** ** The refiner: overlap and size bound *)

Module Refiner.
Import Js JsFacts AstCodeSplitter.

Definition chunk_len (c : CodeChunk) : Z := len (content c).

(** What [addOverlap] does at position [i]. *)
Lemma addOverlap_lookup (chunkOverlap : Z) (chunks : list CodeChunk)
    (i : nat) (prev c : CodeChunk) :
  (1 < length chunks)%nat -> 0 < chunkOverlap ->
  chunks !! i = Some prev -> chunks !! S i = Some c ->
  addOverlap chunkOverlap chunks !! S i
  = Some (with_overlap chunkOverlap prev c).
Proof.
  intros Hlen Hov Hprev Hc. unfold addOverlap.
  destruct (Nat.leb_spec (length chunks) 1); [lia|].
  destruct (Z.leb_spec chunkOverlap 0); [lia|]. cbn [orb].
  rewrite list_lookup_imap, Hc. cbn.
  destruct (Z.gtb_spec chunkOverlap 0) as [_|]; [|lia].
  now rewrite Nat.sub_0_r, Hprev.
Qed.

Lemma addOverlap_first (chunkOverlap : Z) (chunks : list CodeChunk) :
  addOverlap chunkOverlap chunks !! 0%nat = chunks !! 0%nat.
Proof.
  unfold addOverlap.
  destruct ((length chunks <=? 1)%nat || (chunkOverlap <=? 0));
    [reflexivity|].
  rewrite list_lookup_imap. now destruct (chunks !! 0%nat).
Qed.

Lemma addOverlap_length (chunkOverlap : Z) (chunks : list CodeChunk) :
  length (addOverlap chunkOverlap chunks) = length chunks.
Proof.
  unfold addOverlap.
  destruct ((length chunks <=? 1)%nat || (chunkOverlap <=? 0));
    [reflexivity | apply length_imap].
Qed.

(** Every chunk after the overlap step is a chunk of the input, possibly
    behind an overlap prefix and the joining line feed. *)
Lemma addOverlap_elem (chunkOverlap : Z) (chunks : list CodeChunk)
    (c' : CodeChunk) :
  c' ∈ addOverlap chunkOverlap chunks ->
  c' ∈ chunks \/
  exists prev c, prev ∈ chunks /\ c ∈ chunks /\ 0 < chunkOverlap /\
                 c' = with_overlap chunkOverlap prev c.
Proof.
  unfold addOverlap.
  destruct ((length chunks <=? 1)%nat || (chunkOverlap <=? 0));
    [now left|].
  intros (i & c & -> & Hc)%elem_of_lookup_imap_1.
  destruct ((0 <? i)%nat && (chunkOverlap >? 0)) eqn:E.
  - destruct (chunks !! (i - 1)%nat) as [prev|] eqn:Hp.
    + right. exists prev, c. apply andb_true_iff in E as [_ E].
      repeat split; eauto using list_elem_of_lookup_2. lia.
    + left. eauto using list_elem_of_lookup_2.
  - left. eauto using list_elem_of_lookup_2.
Qed.

Lemma with_overlap_len (chunkOverlap : Z) (prev c : CodeChunk) :
  0 < chunkOverlap ->
  chunk_len (with_overlap chunkOverlap prev c)
  = Z.min chunkOverlap (chunk_len prev) + 1 + chunk_len c.
Proof.
  intros Hov. unfold chunk_len, with_overlap. cbn [content].
  rewrite !len_app, slice_from_neg_length by assumption.
  unfold len at 2. cbn. lia.
Qed.

(** *** Size of the pieces of [splitLargeChunk] *)

Section SplitBound.
Variables (chunkSize B : Z) (chunk : CodeChunk) (n : nat).
Hypothesis size_le : chunkSize <= B.

(** Closed pieces are within [B]; the buffer is within [B] or is one
    line with its line feed. *)
Definition within (st : SplitState) : Prop :=
  Forall (fun c => chunk_len c <= B) (subChunks st) /\
  (len (currentChunk st) <= B \/
   exists line, currentChunk st = line ++ [LF] /\ len line <= B).

Lemma within_trim (st : SplitState) :
  within st -> len (trim (currentChunk st)) <= B.
Proof.
  intros [_ [H | (line & -> & H)]].
  - pose proof (len_trim (currentChunk st)). lia.
  - pose proof (len_trim_line line). lia.
Qed.

Lemma within_line (i : nat) (line : list N) :
  len line <= B ->
  let l := if (i =? n - 1)%nat then line else line ++ [LF] in
  len l <= B \/ exists line', l = line' ++ [LF] /\ len line' <= B.
Proof.
  intros H. cbn. destruct (i =? n - 1)%nat; [now left | right; eauto].
Qed.

Lemma split_step_within (i : nat) (line : list N) (st : SplitState) :
  len line <= B -> within st ->
  within (split_step chunkSize chunk n i line st).
Proof using size_le.
  intros Hline Hst. pose proof (within_trim st Hst) as Htrim.
  destruct Hst as [Hsub Hcur]. unfold split_step.
  set (l := if (i =? n - 1)%nat then line else line ++ [LF]).
  destruct ((len (currentChunk st) + len l >? chunkSize)
            && (len (currentChunk st) >? 0)) eqn:E; split; cbn.
  - apply Forall_app. split; [assumption|]. now repeat constructor.
  - now apply within_line.
  - assumption.
  - apply andb_false_iff in E as [E | E];
      rewrite Z.gtb_ltb in E; apply Z.ltb_ge in E.
    + left. rewrite len_app. lia.
    + assert (currentChunk st = []) as ->.
      { destruct (currentChunk st); [reflexivity|].
        unfold len in E. cbn in E. lia. }
      now apply within_line.
Qed.

Lemma split_loop_within (lines : list (list N)) :
  Forall (fun line => len line <= B) lines ->
  forall (i : nat) (st : SplitState),
    within st -> within (split_loop chunkSize chunk n i lines st).
Proof using size_le.
  induction 1 as [|line lines Hline _ IH]; intros i st Hst; cbn.
  - assumption.
  - apply IH. now apply split_step_within.
Qed.

End SplitBound.

Lemma splitLargeChunk_bound (chunkSize B : Z) (chunk : CodeChunk) :
  chunkSize <= B ->
  Forall (fun line => len line <= B) (split_lines (content chunk)) ->
  Forall (fun c => chunk_len c <= B) (splitLargeChunk chunkSize chunk).
Proof.
  intros Hsize Hlines. unfold splitLargeChunk.
  set (lines := split_lines (content chunk)) in *.
  assert (0 <= B) as HB.
  { pose proof (split_lines_nonempty (content chunk)) as Hne.
    fold lines in Hne. destruct Hlines as [|l ? Hl _]; [congruence|].
    pose proof (len_nonneg l). lia. }
  match goal with |- context [split_loop _ _ _ _ _ ?st0] =>
    pose proof (split_loop_within chunkSize B chunk (length lines) Hsize
                  lines Hlines 0 st0) as Hw end.
  match type of Hw with _ -> within _ ?st =>
    assert (within B st) as Hst; [apply Hw|] end.
  { split; cbn; [constructor | left; exact HB]. }
  clear Hw. pose proof (within_trim B _ Hst) as Htrim.
  destruct Hst as [Hsub _].
  match goal with |- context [if ?b then _ else _] => destruct b end.
  - apply Forall_app. split; [assumption|]. now repeat constructor.
  - assumption.
Qed.

(** No line of an oversized chunk is longer than [chunkSize]: the chunks
    that [splitLargeChunk] can cut into pieces within the size. *)
Definition lines_fit (chunkSize : Z) (chunks : list CodeChunk) : bool :=
  forallb (fun chunk =>
             (chunk_len chunk <=? chunkSize)
             || forallb (fun line => len line <=? chunkSize)
                        (split_lines (content chunk))) chunks.

Lemma refineSplit_bound (chunkSize : Z) (chunks : list CodeChunk) :
  lines_fit chunkSize chunks = true ->
  Forall (fun c => chunk_len c <= chunkSize) (refineSplit chunkSize chunks).
Proof.
  intros Hfit. unfold refineSplit. apply Forall_flat_map.
  apply List.Forall_forall. intros chunk Hin.
  destruct (Z.leb_spec (len (content chunk)) chunkSize) as [Hle | Hgt].
  - now repeat constructor.
  - apply splitLargeChunk_bound; [lia|].
    unfold lines_fit in Hfit. rewrite forallb_forall in Hfit.
    specialize (Hfit chunk Hin). apply orb_true_iff in Hfit as [Hfit | Hfit].
    + unfold chunk_len in Hfit. lia.
    + rewrite forallb_forall in Hfit. apply List.Forall_forall.
      intros line Hline. specialize (Hfit line Hline). lia.
Qed.

Definition chunk (s : string) (first last : Z) : CodeChunk :=
  {| content := str s;
     metadata := {| startLine := first; endLine := last;
                    language := "javascript"; filePath := None;
                    isDefinition := None |} |}.

(** The size bound as the specification states it. *)
Definition length_bound_claim (maxSize overlapSize : Z)
    (chunks : list CodeChunk) : Prop :=
  forall c, In c (refineChunks maxSize overlapSize chunks) ->
            chunk_len c <= maxSize + overlapSize.

(** C1, counterexample: with [maxSize = 4] and [overlapSize = 2] the two
    four-character chunks ["aaaa"] and ["bbbb"] are not split, and the
    second leaves the refiner as ["aa\nbbbb"], seven characters. *)
Lemma length_bound_counterexample :
  ~ length_bound_claim 4 2 [chunk "aaaa" 1 1; chunk "bbbb" 2 2].
Proof.
  intros H. specialize (H (with_overlap 2 (chunk "aaaa" 1 1)
                                        (chunk "bbbb" 2 2))).
  vm_compute in H. apply H; [|reflexivity]. right. now left.
Qed.

(** A single line longer than [maxSize] is never cut: the ten-character
    first line stays one piece of length 10 > 4 + 2. *)
Example long_line_kept :
  map chunk_len
    (refineChunks 4 2
       [chunk ("aaaaaaaaaa" ++ String "010" "bbbb") 1 2])
  = [10; 7].
Proof. reflexivity. Qed.

(** C1 (amended): when the overlap size is not negative and no line of an
    oversized chunk is longer than [chunkSize], every chunk handed to the
    overlap step has at most [chunkSize] characters and every chunk the
    refiner returns has at most [chunkSize + chunkOverlap + 1]: the excess
    is the overlap prefix and the line feed that joins it. *)
Theorem refineChunks_length_bound (chunkSize chunkOverlap : Z)
    (chunks : list CodeChunk) :
  0 <= chunkOverlap ->
  lines_fit chunkSize chunks = true ->
  Forall (fun c => chunk_len c <= chunkSize) (refineSplit chunkSize chunks)
  /\ forall c, In c (refineChunks chunkSize chunkOverlap chunks) ->
               chunk_len c <= chunkSize + chunkOverlap + 1.
Proof.
  intros Hov Hfit. pose proof (refineSplit_bound _ _ Hfit) as Hsplit.
  split; [exact Hsplit|]. intros c Hc. unfold refineChunks in Hc.
  rewrite List.Forall_forall in Hsplit.
  apply list_elem_of_In, addOverlap_elem in Hc
    as [Hc | (prev & d & _ & Hd & Hpos & ->)].
  - apply list_elem_of_In, Hsplit in Hc. lia.
  - rewrite with_overlap_len by assumption.
    apply list_elem_of_In, Hsplit in Hd. lia.
Qed.

Definition three_lines : list CodeChunk :=
  [chunk ("aaaa" ++ String "010" ("bbbb" ++ String "010" "cccc")) 1 3].

Lemma refineChunks_length_bound_witness :
  0 <= 2 /\ lines_fit 4 three_lines = true /\
  (Forall (fun c => chunk_len c <= 4) (refineSplit 4 three_lines)
   /\ forall c, In c (refineChunks 4 2 three_lines) ->
                chunk_len c <= 4 + 2 + 1).
Proof.
  split; [lia|]. split; [reflexivity|].
  apply (refineChunks_length_bound 4 2 three_lines); [lia | reflexivity].
Defined.

(** The overlap step as the specification states it: the start line
    moves up by the number of line feeds in the overlap text. *)
Definition overlap_newline_claim (overlapSize : Z)
    (chunks : list CodeChunk) : Prop :=
  forall (i : nat) (prev c : CodeChunk),
    chunks !! i = Some prev -> chunks !! S i = Some c ->
    exists c',
      addOverlap overlapSize chunks !! S i = Some c' /\
      let overlapText := slice_from (- overlapSize) (content prev) in
      content c' = overlapText ++ [LF] ++ content c /\
      startLine (metadata c')
      = Z.max 1 (startLine (metadata c) - newlines overlapText).

(** C2, counterexample: ["abc"] at line 1 followed by ["def"] at line 5,
    overlap 2.  The overlap text ["bc"] has no line feed, yet the second
    chunk is moved from line 5 to line 4. *)
Lemma overlap_newline_counterexample :
  ~ overlap_newline_claim 2 [chunk "abc" 1 1; chunk "def" 5 5].
Proof.
  intros H.
  destruct (H 0%nat (chunk "abc" 1 1) (chunk "def" 5 5) eq_refl eq_refl)
    as (c' & Hc' & _ & Hline).
  vm_compute in Hc'. injection Hc' as <-. vm_compute in Hline.
  discriminate.
Qed.

(** C2 (amended): for more than one chunk and a positive overlap size,
    [addOverlap] keeps the number of chunks and the first chunk; every
    later chunk gets, in front of its content, the last [chunkOverlap]
    characters of the content the preceding chunk had before the step
    (all of it when it is shorter) and a line feed, and its start line
    moves up by the number of lines of the overlap text, that is its
    number of line feeds plus one, not below line 1.  The rest of the
    metadata is kept. *)
Theorem addOverlap_spec (chunkOverlap : Z) (chunks : list CodeChunk) :
  (1 < length chunks)%nat -> 0 < chunkOverlap ->
  length (addOverlap chunkOverlap chunks) = length chunks /\
  addOverlap chunkOverlap chunks !! 0%nat = chunks !! 0%nat /\
  forall (i : nat) (prev c : CodeChunk),
    chunks !! i = Some prev -> chunks !! S i = Some c ->
    exists c' overlapText pre,
      addOverlap chunkOverlap chunks !! S i = Some c' /\
      content prev = pre ++ overlapText /\
      len overlapText = Z.min chunkOverlap (len (content prev)) /\
      content c' = overlapText ++ [LF] ++ content c /\
      startLine (metadata c')
      = Z.max 1 (startLine (metadata c) - (newlines overlapText + 1)) /\
      endLine (metadata c') = endLine (metadata c) /\
      language (metadata c') = language (metadata c) /\
      filePath (metadata c') = filePath (metadata c) /\
      isDefinition (metadata c') = isDefinition (metadata c).
Proof.
  intros Hlen Hov. split; [apply addOverlap_length|].
  split; [apply addOverlap_first|]. intros i prev c Hprev Hc.
  destruct (slice_from_suffix (- chunkOverlap) (content prev)) as [pre Hpre].
  exists (with_overlap chunkOverlap prev c),
         (slice_from (- chunkOverlap) (content prev)), pre.
  split; [now apply addOverlap_lookup|]. split; [exact Hpre|].
  split; [now apply slice_from_neg_length|].
  cbn. unfold getLineCount. rewrite split_lines_count. repeat split.
Qed.

Definition two_chunks : list CodeChunk :=
  [chunk "abc" 1 1; chunk "def" 5 5].

Lemma addOverlap_spec_witness :
  (1 < length two_chunks)%nat /\ 0 < 2 /\
  exists c',
    addOverlap 2 two_chunks !! 1%nat = Some c' /\
    content c' = str "bc" ++ [LF] ++ str "def" /\
    startLine (metadata c') = 4.
Proof.
  split; [cbn; lia|]. split; [lia|].
  destruct (addOverlap_spec 2 two_chunks) as (_ & _ & H);
    [cbn; lia | lia |].
  destruct (H 0%nat (chunk "abc" 1 1) (chunk "def" 5 5) eq_refl eq_refl)
    as (c' & ov & pre & Hc' & _).
  exists c'. split; [exact Hc'|].
  vm_compute in Hc'. injection Hc' as <-. split; reflexivity.
Defined.

End Refiner.

(** ** The chunker: emission order *)

Module Chunker.
Import Js JsFacts AstCodeSplitter.

(** Children lie inside [lo .. hi], each starting no earlier than the
    previous one ends. *)
Fixpoint siblings_ordered (ok : SyntaxNode -> bool) (lo hi : nat)
    (nodes : list SyntaxNode) : bool :=
  match nodes with
  | [] => true
  | c :: rest =>
      (lo <=? node_startRow c)%nat && (node_endRow c <=? hi)%nat
      && ok c && siblings_ordered ok (node_endRow c) hi rest
  end.

(** What tree-sitter guarantees of a syntax tree: a node ends no earlier
    than it starts, its children lie within it and follow one another in
    the order of the text. *)
Fixpoint in_document_order (node : SyntaxNode) : bool :=
  match node with
  | mkNode _ startRow endRow _ _ children =>
      (startRow <=? endRow)%nat
      && siblings_ordered in_document_order startRow endRow children
  end.

Lemma SyntaxNode_rect' (P : SyntaxNode -> Prop) :
  (forall type sr er si ei children,
      Forall P children -> P (mkNode type sr er si ei children)) ->
  forall node, P node.
Proof.
  intros step. fix IH 1. intros [type sr er si ei children].
  apply step. induction children as [|c rest IHrest];
    constructor; [apply IH | exact IHrest].
Qed.

Section Traverse.
Variables (code : list N) (splittableTypes : list string)
          (lang : string) (file : option string).

Definition starts (node : SyntaxNode) : list Z :=
  map start_of (traverse code splittableTypes lang file node).

Definition rows_ok (lo hi : nat) (l : list Z) : Prop :=
  StronglySorted Z.le l /\
  Forall (fun x => Z.of_nat lo + 1 <= x <= Z.of_nat hi + 1) l.

Lemma rows_ok_app (lo mid hi : nat) (l1 l2 : list Z) :
  (lo <= mid)%nat -> (mid <= hi)%nat ->
  rows_ok lo mid l1 -> rows_ok mid hi l2 -> rows_ok lo hi (l1 ++ l2).
Proof.
  intros Hlo Hhi [S1 B1] [S2 B2].
  rewrite List.Forall_forall in B1, B2. split.
  - apply StronglySorted_app_2; [|assumption..].
    intros x1 x2 H1%list_elem_of_In H2%list_elem_of_In.
    specialize (B1 _ H1). specialize (B2 _ H2). lia.
  - apply Forall_app. split; apply List.Forall_forall; intros x Hx;
      [specialize (B1 _ Hx) | specialize (B2 _ Hx)]; lia.
Qed.

Lemma siblings_starts (hi : nat) (nodes : list SyntaxNode) :
  Forall (fun c => in_document_order c = true ->
                   rows_ok (node_startRow c) (node_endRow c) (starts c))
         nodes ->
  forall lo, (lo <= hi)%nat ->
    siblings_ordered in_document_order lo hi nodes = true ->
    rows_ok lo hi
      (map start_of
         (flat_map (traverse code splittableTypes lang file) nodes)).
Proof.
  induction 1 as [|c rest Hc _ IH]; intros lo Hlo Hord; cbn.
  - split; constructor.
  - cbn in Hord. rewrite !andb_true_iff in Hord.
    destruct Hord as [[[H1 H2] H3] H4].
    apply Nat.leb_le in H1, H2. specialize (Hc H3).
    assert (node_startRow c <= node_endRow c)%nat as Hrow.
    { destruct c as [t sr er si ei ch]. cbn in *.
      apply andb_true_iff in H3 as [H3 _]. now apply Nat.leb_le. }
    rewrite map_app. apply (rows_ok_app lo (node_endRow c) hi);
      [lia | lia | | apply IH; [lia | exact H4]].
    destruct Hc as [Sc Bc]. split; [exact Sc|].
    eapply List.Forall_impl; [|exact Bc]. cbn. intros x Hx. lia.
Qed.

Lemma traverse_starts (node : SyntaxNode) :
  in_document_order node = true ->
  rows_ok (node_startRow node) (node_endRow node) (starts node).
Proof.
  induction node as [type sr er si ei children IH] using SyntaxNode_rect'.
  intros Hord. cbn in Hord. apply andb_true_iff in Hord as [Hrow Hord].
  apply Nat.leb_le in Hrow.
  pose proof (siblings_starts er children IH sr Hrow Hord)
    as [Schildren Bchildren].
  unfold starts. cbn [traverse node_startRow node_endRow].
  rewrite map_app. split.
  - apply StronglySorted_app_2; [| |exact Schildren].
    + intros x1 x2 H1 H2%list_elem_of_In.
      rewrite List.Forall_forall in Bchildren.
      specialize (Bchildren _ H2).
      destruct (includes splittableTypes type); [|inversion H1].
      destruct (len (trim (slice si ei code)) >? 0); [|inversion H1].
      cbn in H1. apply list_elem_of_singleton in H1 as ->. lia.
    + destruct (includes splittableTypes type); [|constructor].
      destruct (len (trim (slice si ei code)) >? 0); repeat constructor.
  - apply Forall_app. split; [|exact Bchildren].
    destruct (includes splittableTypes type); [|constructor].
    destruct (len (trim (slice si ei code)) >? 0); repeat constructor;
      cbn; lia.
Qed.

Lemma extractChunks_sorted (node : SyntaxNode) :
  in_document_order node = true ->
  Sorted Z.le
    (map start_of (extractChunks node code splittableTypes lang file)).
Proof.
  intros Hord. unfold extractChunks.
  destruct (length _ =? 0)%nat.
  - repeat constructor.
  - apply StronglySorted_Sorted. now apply traverse_starts.
Qed.

End Traverse.

(** *** Start lines of the pieces of [splitLargeChunk] *)

Section SplitOrder.
Variables (chunkSize : Z) (chunk : CodeChunk) (n : nat).

(** Before iteration [i]: the closed pieces start on increasing lines
    from the chunk's own start line on, all before the line the buffer
    starts on, and the buffer starts before line [i] unless it is empty. *)
Definition ordered (i : nat) (st : SplitState) : Prop :=
  StronglySorted Z.lt (map start_of (subChunks st)) /\
  Forall (fun c => start_of chunk <= start_of c < currentStartLine st)
         (subChunks st) /\
  start_of chunk <= currentStartLine st <= start_of chunk + Z.of_nat i /\
  (currentStartLine st < start_of chunk + Z.of_nat i
   \/ currentChunk st = []).

Lemma ordered_close (i : nat) (st : SplitState) (next : Z) :
  ordered i st -> currentStartLine st < next ->
  StronglySorted Z.lt (map start_of (subChunks st ++ [subChunk chunk st]))
  /\ Forall (fun c => start_of chunk <= start_of c < next)
            (subChunks st ++ [subChunk chunk st]).
Proof.
  intros (Hsorted & Hbound & Hcur & _) Hnext.
  rewrite List.Forall_forall in Hbound. split.
  - rewrite map_app. apply StronglySorted_app_2;
      [|exact Hsorted | repeat constructor].
    intros x1 x2 H1%list_elem_of_In H2. cbn in H2.
    apply list_elem_of_singleton in H2 as ->.
    apply in_map_iff in H1 as (c & <- & Hc). now apply Hbound.
  - apply Forall_app. split.
    + apply List.Forall_forall. intros c Hc. specialize (Hbound c Hc). lia.
    + repeat constructor; cbn; lia.
Qed.

Lemma split_step_ordered (i : nat) (line : list N) (st : SplitState) :
  ordered i st -> ordered (S i) (split_step chunkSize chunk n i line st).
Proof.
  intros Hst. pose proof Hst as (Hsorted & Hbound & Hcur & Hbuf).
  unfold split_step.
  set (l := if (i =? n - 1)%nat then line else line ++ [LF]).
  destruct ((len (currentChunk st) + len l >? chunkSize)
            && (len (currentChunk st) >? 0)) eqn:E.
  - apply andb_true_iff in E as [_ E].
    assert (currentStartLine st < start_of chunk + Z.of_nat i) as Hlt.
    { destruct Hbuf as [Hlt | Hnil]; [exact Hlt|].
      rewrite Hnil in E. discriminate. }
    destruct (ordered_close i st _ Hst Hlt) as [S' B'].
    unfold ordered; cbn. fold (start_of chunk).
    split; [exact S'|]. split; [exact B'|]. split; [lia|]. left. lia.
  - unfold ordered; cbn.
    split; [exact Hsorted|]. split; [exact Hbound|]. split; [lia|].
    left. lia.
Qed.

Lemma split_loop_ordered (lines : list (list N)) :
  forall (i : nat) (st : SplitState),
    ordered i st ->
    ordered (i + length lines) (split_loop chunkSize chunk n i lines st).
Proof.
  induction lines as [|line lines IH]; intros i st Hst; cbn.
  - now rewrite Nat.add_0_r.
  - replace (i + S (length lines))%nat with (S i + length lines)%nat
      by lia.
    apply IH. now apply split_step_ordered.
Qed.

End SplitOrder.

Lemma splitLargeChunk_ordered (chunkSize : Z) (chunk : CodeChunk) :
  Sorted Z.lt (map start_of (splitLargeChunk chunkSize chunk)) /\
  Forall (fun c => start_of chunk <= start_of c)
         (splitLargeChunk chunkSize chunk).
Proof.
  unfold splitLargeChunk.
  set (lines := split_lines (content chunk)).
  match goal with |- context [split_loop _ _ _ _ _ ?st0] =>
    pose proof (split_loop_ordered chunkSize chunk (length lines) lines
                  0 st0) as Hloop end.
  match type of Hloop with _ -> ordered _ _ ?st =>
    set (final := st) in *;
    assert (ordered chunk (0 + length lines) final) as Hst;
    [apply Hloop|] end.
  { unfold ordered; cbn. fold (start_of chunk).
    split; [constructor|]. split; [constructor|]. split; [lia|].
    now right. }
  clear Hloop. pose proof Hst as (Hsorted & Hbound & _).
  destruct (ordered_close chunk _ final (currentStartLine final + 1) Hst)
    as [S' B']; [lia|].
  match goal with |- context [if ?b then _ else _] => destruct b end.
  - split; [now apply StronglySorted_Sorted|].
    eapply List.Forall_impl; [|exact B']. cbn. intros c Hc. lia.
  - split; [now apply StronglySorted_Sorted|].
    eapply List.Forall_impl; [|exact Hbound]. cbn. intros c Hc. lia.
Qed.

(** *** A class with two methods *)

Definition nl : string := String "010" EmptyString.

Definition class_code : list N :=
  str ("class A {" ++ nl ++ "f() {}" ++ nl ++ "g() {}" ++ nl ++ "}").

Definition method_node (row first : nat) : SyntaxNode :=
  mkNode "method_definition" row row first (first + 6)
    [mkNode "property_identifier" row row first (first + 1) [];
     mkNode "formal_parameters" row row (first + 1) (first + 3)
       [mkNode "(" row row (first + 1) (first + 2) [];
        mkNode ")" row row (first + 2) (first + 3) []];
     mkNode "statement_block" row row (first + 4) (first + 6)
       [mkNode "{" row row (first + 4) (first + 5) [];
        mkNode "}" row row (first + 5) (first + 6) []]].

Definition class_tree : SyntaxNode :=
  mkNode "program" 0 3 0 25
    [mkNode "class_declaration" 0 3 0 25
       [mkNode "class" 0 0 0 5 [];
        mkNode "identifier" 0 0 6 7 [];
        mkNode "class_body" 0 3 8 25
          [mkNode "{" 0 0 8 9 [];
           method_node 1 10;
           method_node 2 17;
           mkNode "}" 3 3 24 25 []]]].

Definition emitted (chunkSize : Z) (root : SyntaxNode) (code : list N)
    (lang : string) : list CodeChunk :=
  match getLanguageConfig lang with
  | Some (_, nodeTypes) =>
      refineSplit chunkSize (extractChunks root code nodeTypes lang None)
  | None => []
  end.

(** The order property as the specification states it, on the sequence
    handed to the overlap step. *)
Definition emission_monotone_claim (chunkSize : Z) (root : SyntaxNode)
    (code : list N) (lang : string) : Prop :=
  Sorted Z.le (map start_of (emitted chunkSize root code lang)).

(** C8, counterexample: a four-line class with two one-line methods and
    a chunk size of 10.  The class chunk is cut into pieces starting on
    lines 1, 2 and 3; the chunks of the two methods, emitted after their
    parent, start on lines 2 and 3 again. *)
Lemma emission_monotone_counterexample :
  in_document_order class_tree = true /\
  map start_of (emitted 10 class_tree class_code "javascript")
  = [1; 2; 3; 2; 3] /\
  ~ emission_monotone_claim 10 class_tree class_code "javascript".
Proof.
  split; [reflexivity|]. split; [reflexivity|].
  unfold emission_monotone_claim.
  replace (map start_of (emitted 10 class_tree class_code "javascript"))
    with [1; 2; 3; 2; 3] by reflexivity.
  intros H.
  apply Sorted_inv in H as [H _]. apply Sorted_inv in H as [H _].
  apply Sorted_inv in H as [_ H]. apply HdRel_inv in H. lia.
Qed.

(** C8 (amended): for a syntax tree in document order, the chunks the
    depth-first traversal emits, before oversized chunks are split, have
    non-decreasing start lines; and the pieces [splitLargeChunk] cuts one
    oversized chunk into start on increasing lines, none before the
    chunk's own start line. *)
Theorem emission_order (root : SyntaxNode) (code : list N)
    (splittableTypes : list string) (lang : string) (file : option string) :
  in_document_order root = true ->
  Sorted Z.le
    (map start_of (extractChunks root code splittableTypes lang file)) /\
  forall (chunkSize : Z) (chunk : CodeChunk),
    Sorted Z.lt (map start_of (splitLargeChunk chunkSize chunk)) /\
    Forall (fun c => start_of chunk <= start_of c)
           (splitLargeChunk chunkSize chunk).
Proof.
  intros Hord. split.
  - now apply extractChunks_sorted.
  - intros chunkSize chunk. apply splitLargeChunk_ordered.
Qed.

Lemma emission_order_witness :
  in_document_order class_tree = true /\
  (Sorted Z.le
     (map start_of
        (extractChunks class_tree class_code
           (SPLITTABLE_NODE_TYPES JavaScript) "javascript" None)) /\
   forall (chunkSize : Z) (chunk : CodeChunk),
     Sorted Z.lt (map start_of (splitLargeChunk chunkSize chunk)) /\
     Forall (fun c => start_of chunk <= start_of c)
            (splitLargeChunk chunkSize chunk)).
Proof.
  split; [reflexivity|].
  apply (emission_order class_tree class_code
           (SPLITTABLE_NODE_TYPES JavaScript) "javascript" None).
  reflexivity.
Defined.

End Chunker.

(** ** The PostgreSQL vector database: filter expressions *)

Module PostgresVectorDatabase.
Import Js.

(** [s.startsWith(pat)] *)
Fixpoint starts_with (pat s : list N) : bool :=
  match pat, s with
  | [], _ => true
  | p :: pat', c :: s' => (p =? c)%N && starts_with pat' s'
  | _ :: _, [] => false
  end.

(** [s.replace(re, ...)] for a global regular expression without empty
    matches: [matcher] tells, for the text from the current position on,
    the replacement and the length of the match there.  Matches are taken
    from left to right and do not overlap; [skip] counts the characters
    of the current match still to be passed over. *)
Fixpoint gsub (matcher : list N -> option (list N * nat)) (skip : nat)
    (s : list N) : list N :=
  match s with
  | [] => []
  | c :: s' =>
      match skip with
      | S k => gsub matcher k s'
      | O =>
          match matcher s with
          | Some (replacement, n) => replacement ++ gsub matcher (pred n) s'
          | None => c :: gsub matcher 0 s'
          end
      end
  end.

(** A literal pattern. *)
Definition literal (pat replacement : list N) (s : list N)
  : option (list N * nat) :=
  if starts_with pat s then Some (replacement, length pat) else None.

Definition replace_all (pat replacement : list N) (s : list N) : list N :=
  gsub (literal pat replacement) 0 s.

Definition RBRACKET : N := 93%N.
Definition SEMICOLON : N := 59%N.

Fixpoint take_until (stop : N) (s : list N) : list N :=
  match s with
  | c :: s' => if (c =? stop)%N then [] else c :: take_until stop s'
  | [] => []
  end.

(** [/ in \[([^\]]+)\]/] with its replacement [` IN (${p1})`]: the
    bracket must hold at least one character and be closed. *)
Definition in_list (s : list N) : option (list N * nat) :=
  let opening := str " in [" in
  if starts_with opening s then
    let rest := skipn (length opening) s in
    let p1 := take_until RBRACKET rest in
    match p1, skipn (length p1) rest with
    | _ :: _, c :: _ =>
        if (c =? RBRACKET)%N
        then Some (str " IN (" ++ p1 ++ str ")",
                   (length opening + length p1 + 1)%nat)
        else None
    | _, _ => None
    end
  else None.

(** The alias and operator rewrites of [parseFilterExpression]. *)
Definition rewrite_aliases (filter : list N) : list N :=
  gsub in_list 0
    (replace_all (str " == ") (str " = ")
       (replace_all (str "fileExtension") (str "file_extension")
          (replace_all (str "endLine") (str "end_line")
             (replace_all (str "startLine") (str "start_line")
                (replace_all (str "relativePath") (str "relative_path")
                   filter))))).

Definition strip_semicolons (s : list N) : list N :=
  replace_all [SEMICOLON] [] s.

Definition parseFilterExpression (filter : list N) : list N :=
  let parsed := strip_semicolons (rewrite_aliases filter) in
  match parsed with
  | [] => str "1=1"
  | _ => parsed
  end.

(** The pattern occurs somewhere in the text. *)
Fixpoint occurs (pat s : list N) : bool :=
  starts_with pat s
  || match s with
     | [] => false
     | _ :: s' => occurs pat s'
     end.

(** None of the spellings the translator rewrites occurs in the filter. *)
Definition unrecognized (filter : list N) : bool :=
  negb (occurs (str "relativePath") filter)
  && negb (occurs (str "startLine") filter)
  && negb (occurs (str "endLine") filter)
  && negb (occurs (str "fileExtension") filter)
  && negb (occurs (str " == ") filter)
  && negb (occurs (str " in [") filter).

Lemma literal_semicolon (c : N) (s : list N) :
  literal [SEMICOLON] [] (c :: s)
  = if (SEMICOLON =? c)%N then Some ([], 1%nat) else None.
Proof. unfold literal. cbn. now rewrite andb_true_r. Qed.

Lemma gsub_semicolon (skip : nat) (s : list N) :
  ~ In SEMICOLON (gsub (literal [SEMICOLON] []) skip s).
Proof.
  revert skip. induction s as [|c s IH]; intros skip; cbn [gsub];
    [intros []|].
  destruct skip as [|k]; [|apply IH]. rewrite literal_semicolon.
  destruct (N.eqb_spec SEMICOLON c) as [<- | Hne]; cbn [app pred].
  - apply IH.
  - intros [Heq | Hin]; [congruence | now apply IH in Hin].
Qed.

Lemma gsub_semicolon_filter (s : list N) :
  gsub (literal [SEMICOLON] []) 0 s
  = List.filter (fun c => negb (c =? SEMICOLON)%N) s.
Proof.
  induction s as [|c s IH]; [reflexivity|].
  cbn [gsub List.filter]. rewrite literal_semicolon.
  rewrite (N.eqb_sym c SEMICOLON).
  destruct (SEMICOLON =? c)%N; cbn [negb app pred]; now rewrite IH.
Qed.

Lemma gsub_unmatched (matcher : list N -> option (list N * nat))
    (pat : list N) (s : list N) :
  (forall t, starts_with pat t = false -> matcher t = None) ->
  occurs pat s = false -> gsub matcher 0 s = s.
Proof.
  intros Hm. induction s as [|c s IH]; intros Hocc; [reflexivity|].
  cbn [occurs] in Hocc. apply orb_false_iff in Hocc as [Hhere Hlater].
  cbn [gsub]. rewrite (Hm _ Hhere). now rewrite IH.
Qed.

Lemma replace_all_unmatched (pat replacement s : list N) :
  occurs pat s = false -> replace_all pat replacement s = s.
Proof.
  apply gsub_unmatched. intros t Ht. unfold literal. now rewrite Ht.
Qed.

Lemma rewrite_aliases_unrecognized (filter : list N) :
  unrecognized filter = true -> rewrite_aliases filter = filter.
Proof.
  unfold unrecognized. rewrite !andb_true_iff, !negb_true_iff.
  intros [[[[[H1 H2] H3] H4] H5] H6]. unfold rewrite_aliases.
  rewrite (replace_all_unmatched (str "relativePath")) by assumption.
  rewrite (replace_all_unmatched (str "startLine")) by assumption.
  rewrite (replace_all_unmatched (str "endLine")) by assumption.
  rewrite (replace_all_unmatched (str "fileExtension")) by assumption.
  rewrite (replace_all_unmatched (str " == ")) by assumption.
  apply (gsub_unmatched _ (str " in [")); [|assumption].
  intros t Ht. unfold in_list. now rewrite Ht.
Qed.

(** C7: the translated filter never contains [;], whatever the input;
    and a filter in which none of the rewritten spellings occurs comes
    out as it went in but for the removed [;] (or as ["1=1"] when nothing
    is left). *)
Theorem parseFilterExpression_no_semicolon (filter : list N) :
  ~ In SEMICOLON (parseFilterExpression filter) /\
  (unrecognized filter = true ->
   parseFilterExpression filter
   = match List.filter (fun c => negb (c =? SEMICOLON)%N) filter with
     | [] => str "1=1"
     | kept => kept
     end).
Proof.
  split.
  - unfold parseFilterExpression, strip_semicolons, replace_all.
    pose proof (gsub_semicolon 0 (rewrite_aliases filter)) as H.
    destruct (gsub _ 0 (rewrite_aliases filter)); [|exact H].
    vm_compute. intuition discriminate.
  - intros Hun. unfold parseFilterExpression, strip_semicolons, replace_all.
    rewrite rewrite_aliases_unrecognized, gsub_semicolon_filter
      by assumption.
    now destruct (List.filter _ filter).
Qed.

Lemma parseFilterExpression_no_semicolon_witness :
  unrecognized (str "a = 1; DROP TABLE t") = true /\
  parseFilterExpression (str "a = 1; DROP TABLE t")
  = str "a = 1 DROP TABLE t".
Proof.
  split; [reflexivity|].
  destruct (parseFilterExpression_no_semicolon (str "a = 1; DROP TABLE t"))
    as [_ H].
  rewrite H; reflexivity.
Defined.

Example parse_extension_filter :
  parseFilterExpression (str "fileExtension in ['.ts', '.py'];")
  = str "file_extension IN ('.ts', '.py')".
Proof. reflexivity. Qed.

Example parse_equality :
  parseFilterExpression (str "relativePath == 'a.ts'")
  = str "relative_path = 'a.ts'".
Proof. reflexivity. Qed.

Example parse_empty : parseFilterExpression [] = str "1=1".
Proof. reflexivity. Qed.

End PostgresVectorDatabase.

(** ** Ordering by a score, highest first *)

Module Ranking.

Definition descending {A} (key : A -> Q) (a b : A) : Prop :=
  (key b <= key a)%Q.

(** Insertion keeping the earlier of two equal scores first, as the
    stable [Array.prototype.sort] does with [(a, b) => b.score - a.score]. *)
Fixpoint insert_desc {A} (key : A -> Q) (x : A) (l : list A) : list A :=
  match l with
  | [] => [x]
  | y :: l' =>
      if Qle_bool (key y) (key x) then x :: y :: l'
      else y :: insert_desc key x l'
  end.

Definition sort_desc {A} (key : A -> Q) (l : list A) : list A :=
  fold_right (insert_desc key) [] l.

Lemma insert_desc_perm {A} (key : A -> Q) (x : A) (l : list A) :
  Permutation (insert_desc key x l) (x :: l).
Proof.
  induction l as [|y l IH]; cbn; [reflexivity|].
  destruct (Qle_bool (key y) (key x)); [reflexivity|].
  rewrite IH. apply perm_swap.
Qed.

Lemma sort_desc_perm {A} (key : A -> Q) (l : list A) :
  Permutation (sort_desc key l) l.
Proof.
  induction l as [|x l IH]; cbn; [reflexivity|].
  rewrite insert_desc_perm. now constructor.
Qed.

Lemma insert_desc_sorted {A} (key : A -> Q) (x : A) (l : list A) :
  StronglySorted (descending key) l ->
  StronglySorted (descending key) (insert_desc key x l).
Proof.
  induction 1 as [|y l Hl IH Hy]; cbn; [repeat constructor|].
  destruct (Qle_bool (key y) (key x)) eqn:E.
  - apply Qle_bool_iff in E. constructor; [now constructor|].
    constructor; [exact E|].
    eapply List.Forall_impl; [|exact Hy]. unfold descending.
    intros z Hz. now apply Qle_trans with (key y).
  - assert (key x <= key y)%Q as Hxy.
    { apply Qnot_lt_le. intros Hlt. apply Qlt_le_weak in Hlt.
      apply Qle_bool_iff in Hlt. congruence. }
    constructor; [exact IH|].
    apply List.Forall_forall. intros z Hz.
    apply (Permutation_in _ (insert_desc_perm key x l)) in Hz
      as [<- | Hz]; [exact Hxy|].
    rewrite List.Forall_forall in Hy. now apply Hy.
Qed.

Lemma sort_desc_sorted {A} (key : A -> Q) (l : list A) :
  StronglySorted (descending key) (sort_desc key l).
Proof.
  induction l as [|x l IH]; cbn; [constructor|].
  now apply insert_desc_sorted.
Qed.

(** The first [k] of a list in descending order: in descending order, at
    most [k] long, and whatever is left out scores no higher than
    anything kept, which happens only when [k] entries were kept. *)
Lemma firstn_sorted {A} (key : A -> Q) (k : nat) (l : list A) :
  StronglySorted (descending key) l ->
  StronglySorted (descending key) (firstn k l).
Proof.
  intros H. rewrite <- (firstn_skipn k l) in H.
  now apply StronglySorted_app_1_l in H.
Qed.

Lemma firstn_In {A} (k : nat) (l : list A) (x : A) :
  In x (firstn k l) -> In x l.
Proof.
  intros H. rewrite <- (firstn_skipn k l). apply in_or_app. now left.
Qed.

Lemma firstn_cut {A} (key : A -> Q) (k : nat) (l : list A) (x : A) :
  StronglySorted (descending key) l -> In x l ->
  In x (firstn k l) \/
  (length (firstn k l) = k /\
   forall y, In y (firstn k l) -> (key x <= key y)%Q).
Proof.
  intros Hs Hx. rewrite <- (firstn_skipn k l) in Hs, Hx.
  apply in_app_or in Hx as [Hx | Hx]; [now left | right]. split.
  - apply firstn_length_le.
    destruct (Nat.le_gt_cases k (length l)) as [Hle | Hgt]; [exact Hle|].
    rewrite skipn_all2 in Hx by lia. destruct Hx.
  - intros y Hy.
    apply (StronglySorted_app_1_elem_of _ _ _ y x Hs);
      now apply list_elem_of_In.
Qed.

End Ranking.

(** ** The PostgreSQL vector database: hybrid search *)

Module HybridSearch.
Import Js Ranking PostgresVectorDatabase.

(** A row of a collection table. *)
Record Row := {
  id : string;
  vector : list Q;
  content : list N;
  relative_path : string;
  start_line : Z;
  end_line : Z;
  file_extension : string;
  is_definition : bool;
  metadata : string
}.

(** [data] of a search request: a query vector or a query text. *)
Inductive Data := DVector (v : list Q) | DText (t : list N).

Record HybridSearchRequest := { anns_field : string; data : Data }.

Record HybridSearchOptions := {
  limit : option N;
  filterExpr : option (list N)
}.

Record HybridSearchResult := { document : Row; score : Q }.

(** JavaScript truthiness of request data: only the empty text is falsy. *)
Definition truthy (d : Data) : bool :=
  match d with
  | DText [] => false
  | _ => true
  end.

(** [options?.limit || 10] *)
Definition topK (options : option HybridSearchOptions) : nat :=
  match options with
  | Some {| limit := Some n |} => if (n =? 0)%N then 10 else N.to_nat n
  | _ => 10
  end.

(** [options?.filterExpr ? parseFilterExpression(...) : '1=1'] *)
Definition where_clause (options : option HybridSearchOptions) : list N :=
  match options with
  | Some {| filterExpr := Some (c :: e) |} => parseFilterExpression (c :: e)
  | _ => str "1=1"
  end.

(** The text after WHERE in [fts_results]: the filter is spliced in as
    it is, without parentheses. *)
Definition fts_where (filterExpr : list N) : list N :=
  filterExpr
  ++ str " AND to_tsvector('english', content) @@ plainto_tsquery('english', $3)".

(** The parameters of the statement: the query vector, [topK] and the
    query text, when there is one. *)
Record Params := {
  param1 : Data;
  param2 : nat;
  param3 : option Data
}.

(** [a LEFT JOIN b ON on]: every row of [a], with each matching row of
    [b] or with NULL when there is none. *)
Definition left_join {A B} (on : A -> B -> bool) (a : list A) (b : list B)
  : list (A * option B) :=
  flat_map (fun x => match List.filter (on x) b with
                     | [] => [(x, None)]
                     | matches => map (fun y => (x, Some y)) matches
                     end) a.

(** [a INNER JOIN b ON on] *)
Definition inner_join {A B} (on : A -> B -> bool) (a : list A) (b : list B)
  : list (A * B) :=
  flat_map (fun x => map (fun y => (x, y)) (List.filter (on x) b)) a.

(** [x.id IS NOT NULL] *)
Definition not_null {A} (o : option A) : bool :=
  match o with
  | Some _ => true
  | None => false
  end.

(** [COALESCE(x.score, 0)] *)
Definition coalesce (o : option (string * Q)) : Q :=
  match o with
  | Some (_, x) => x
  | None => 0%Q
  end.

(** [CASE WHEN t.is_definition THEN 0.1 ELSE 0 END] *)
Definition definition_bonus (t : Row) : Q :=
  if is_definition t then (1 # 10)%Q else 0%Q.

(** The returned document: the row without its vector. *)
Definition to_result (scored : Row * Q) : HybridSearchResult :=
  let (row, final_score) := scored in
  {| document := {| id := id row; vector := [];
                    content := content row;
                    relative_path := relative_path row;
                    start_line := start_line row;
                    end_line := end_line row;
                    file_extension := file_extension row;
                    is_definition := is_definition row;
                    metadata := metadata row |};
     score := final_score |}.

(** The connection of a [PostgresVectorDatabase]: the error
    [initializationPromise] was rejected with, whether [client] is set,
    and the error [client.query] throws for the statement (a table that
    does not exist, a filter that is no SQL, a connection lost). *)
Record Connection := {
  initialization_error : option string;
  client_set : bool;
  query_error : option string
}.

(** [ensureInitialized]: the error it throws, if any. *)
Definition ensureInitialized (conn : Connection) : option string :=
  match initialization_error conn with
  | Some e => Some e
  | None => if client_set conn then None
            else Some "PostgreSQL client not initialized"
  end.

Section Query.

(** The database engine.  Scores are float8 values, taken as the
    rationals they are: [float8] is the value a number is rounded to,
    and an operation on float8 values rounds its exact result.  Then
    [1 - (vector <=> q)] and [ts_rank_cd] of a row, the truth of a WHERE
    text on a row under the parameters, and ORDER BY ... DESC, which may
    put equal keys in any order. *)
Variable float8 : Q -> Q.
Variable vector_score : Data -> Row -> Q.
Variable fts_score : Data -> Row -> Q.
Variable sql_where : list N -> Params -> Row -> bool.
Variable order_desc : forall A : Type, (A -> Q) -> list A -> list A.

(** [SELECT ... FROM table WHERE keep ORDER BY vector <=> q LIMIT k], as
    the engine answers it for a table with an ivfflat index on [vector]
    (the one [createCollection] makes): by the index, which is
    approximate, so that the rows returned need not be the [k] nearest
    of those that satisfy the WHERE. *)
Variable index_scan : (Row -> bool) -> (Row -> Q) -> nat -> list Row
                      -> list Row.

Definition mul8 (x y : Q) : Q := float8 (x * y).
Definition add8 (x y : Q) : Q := float8 (x + y).

Definition vector_results (table : list Row) (filter : list N)
    (params : Params) : list (string * Q) :=
  let q := param1 params in
  map (fun t => (id t, vector_score q t))
    (index_scan (sql_where filter params) (vector_score q) (param2 params)
       table).

Definition fts_results (table : list Row) (text : Data) (filter : list N)
    (params : Params) : list (string * Q) :=
  firstn (param2 params)
    (order_desc _ snd
       (map (fun t => (id t, fts_score text t))
            (List.filter (sql_where (fts_where filter) params) table))).

Definition same_id (t : Row) (r : string * Q) : bool :=
  String.eqb (id t) (fst r).

(** The query with a text: both candidate sets left-joined to the table.
    The literals 0.7, 0.3 and 0.1 are numeric and are converted to
    float8 for the arithmetic. *)
Definition fused_query (table : list Row) (text : Data) (filter : list N)
    (params : Params) : list (Row * Q) :=
  let v := vector_results table filter params in
  let f := fts_results table text filter params in
  let joined :=
    left_join (fun tv r => same_id (fst tv) r) (left_join same_id table v) f in
  let kept :=
    List.filter (fun '(t, v, f) => not_null v || not_null f) joined in
  firstn (param2 params)
    (order_desc _ snd
       (map (fun '(t, v, f) =>
               (t, add8 (add8 (mul8 (coalesce v) (float8 (7 # 10)))
                              (mul8 (coalesce f) (float8 (3 # 10))))
                        (float8 (definition_bonus t))))
            kept)).

(** The query without a text: the vector candidates inner-joined. *)
Definition vector_query (table : list Row) (filter : list N)
    (params : Params) : list (Row * Q) :=
  let v := vector_results table filter params in
  firstn (param2 params)
    (order_desc _ snd
       (map (fun '(t, v) => (t, add8 (snd v) (float8 (definition_bonus t))))
            (inner_join same_id table v))).

(** [hybridSearch] on the table its collection name stands for: the
    error thrown, or the results. *)
Definition hybridSearch (conn : Connection) (table : list Row)
    (searchRequests : list HybridSearchRequest)
    (options : option HybridSearchOptions)
  : string + list HybridSearchResult :=
  match ensureInitialized conn with
  | Some e => inl e
  | None =>
      let k := topK options in
      let filter := where_clause options in
      let denseRequest :=
        List.find (fun req => String.eqb (anns_field req) "vector")
                  searchRequests in
      let sparseRequest :=
        List.find (fun req => String.eqb (anns_field req) "sparse_vector")
                  searchRequests in
      match denseRequest with
      | None => inl "Hybrid search requires at least a dense vector request"
      | Some dense =>
          let queryText :=
            match sparseRequest with
            | Some sparse => if truthy (data sparse) then Some (data sparse)
                             else None
            | None => None
            end in
          let params := {| param1 := data dense; param2 := k;
                           param3 := queryText |} in
          match query_error conn with
          | Some e => inl e
          | None =>
              inr (map to_result
                     match queryText with
                     | Some text => fused_query table text filter params
                     | None => vector_query table filter params
                     end)
          end
      end
  end.

(** *** The scores as the specification states them *)

(** The score of an id in a candidate set, 0 when it is missing. *)
Definition score_or_zero (cands : list (string * Q)) (i : string) : Q :=
  match List.find (fun r => String.eqb i (fst r)) cands with
  | Some r => snd r
  | None => 0%Q
  end.

(** The id occurs in a candidate set. *)
Definition in_ids (i : string) (cands : list (string * Q)) : bool :=
  existsb (fun r => String.eqb i (fst r)) cands.

(** [vectorScore*0.7 + lexicalScore*0.3 + (0.1 if isDefinition else 0)],
    in float8 arithmetic. *)
Definition stated_fused_score (vectorScore lexicalScore : Q)
    (isDefinition : bool) : Q :=
  float8
    (float8 (float8 (vectorScore * float8 (7 # 10))
             + float8 (lexicalScore * float8 (3 # 10)))
     + float8 (if isDefinition then 1 # 10 else 0)).

(** [vectorScore + (0.1 if isDefinition else 0)], in float8
    arithmetic. *)
Definition stated_vector_score (vectorScore : Q) (isDefinition : bool)
  : Q :=
  float8 (vectorScore + float8 (if isDefinition then 1 # 10 else 0)).

(** The limit: the one given, 10 when none or 0 is. *)
Definition stated_limit (options : option HybridSearchOptions) : nat :=
  match options with
  | Some o => match limit o with
              | Some 0%N => 10
              | Some n => N.to_nat n
              | None => 10
              end
  | None => 10
  end.

(** *** What the joins compute when ids are unique *)

Hypothesis order_desc_perm :
  forall (A : Type) (key : A -> Q) (l : list A),
    Permutation (order_desc A key l) l.
Hypothesis order_desc_sorted :
  forall (A : Type) (key : A -> Q) (l : list A),
    StronglySorted (descending key) (order_desc A key l).

(** What is known of an index scan: it returns rows of the table that
    satisfy the WHERE, none of them twice. *)
Hypothesis index_scan_rows :
  forall (keep : Row -> bool) (key : Row -> Q) (k : nat) (table : list Row),
  exists rest,
    Permutation (index_scan keep key k table ++ rest)
                (List.filter keep table).

Lemma NoDup_firstn {A} (k : nat) (l : list A) :
  List.NoDup l -> List.NoDup (firstn k l).
Proof.
  intros H. rewrite <- (firstn_skipn k l) in H.
  now apply NoDup_app_remove_r in H.
Qed.

Lemma NoDup_filter_ids (keep : Row -> bool) (table : list Row) :
  List.NoDup (map id table) ->
  List.NoDup (map id (List.filter keep table)).
Proof.
  induction table as [|t table IH]; cbn; intros Hids; [constructor|].
  inversion Hids as [|? ? Hnotin Hrest]; subst.
  destruct (keep t); cbn; [|now apply IH]. constructor; [|now apply IH].
  intros Hin. apply Hnotin. apply in_map_iff in Hin as (t' & <- & Hin).
  apply filter_In in Hin as [Hin _]. now apply in_map.
Qed.

Lemma vector_results_ids (table : list Row) (filter : list N)
    (params : Params) :
  List.NoDup (map id table) ->
  List.NoDup (map fst (vector_results table filter params)).
Proof using index_scan_rows.
  intros Hids. unfold vector_results. cbv zeta. rewrite map_map. cbn [fst].
  destruct (index_scan_rows (sql_where filter params)
              (vector_score (param1 params)) (param2 params) table)
    as (rest & Hperm).
  apply (NoDup_filter_ids (sql_where filter params)) in Hids.
  apply (Permutation_map id) in Hperm.
  apply (Permutation_NoDup (Permutation_sym Hperm)) in Hids.
  rewrite map_app in Hids. now apply NoDup_app_remove_r in Hids.
Qed.

Lemma fts_results_ids (table : list Row) (text : Data) (filter : list N)
    (params : Params) :
  List.NoDup (map id table) ->
  List.NoDup (map fst (fts_results table text filter params)).
Proof using order_desc_perm.
  intros Hids. unfold fts_results.
  set (all := map (fun t => (id t, fts_score text t)) _).
  rewrite <- firstn_map. apply NoDup_firstn.
  apply (Permutation_NoDup (l := map fst all));
    [symmetry; apply Permutation_map, order_desc_perm|].
  unfold all. rewrite map_map. cbn [fst].
  now apply NoDup_filter_ids.
Qed.

(** The entry of a candidate set a row is joined with. *)
Definition joined_with (cands : list (string * Q)) (t : Row)
  : option (string * Q) :=
  List.find (fun r => String.eqb (id t) (fst r)) cands.

Lemma no_matches (cands : list (string * Q)) (t : Row) :
  ~ In (id t) (map fst cands) -> List.filter (same_id t) cands = [].
Proof.
  unfold same_id. induction cands as [|r cands IH]; intros Hnotin;
    [reflexivity|].
  cbn [List.filter]. destruct (String.eqb_spec (id t) (fst r)) as [E | _].
  - exfalso. apply Hnotin. now left.
  - apply IH. intros Hin. apply Hnotin. now right.
Qed.

(** The rows of a candidate set that join a table row: its entry, or
    none. *)
Lemma matches_of (cands : list (string * Q)) (t : Row) :
  List.NoDup (map fst cands) ->
  List.filter (same_id t) cands
  = match joined_with cands t with
    | Some r => [r]
    | None => []
    end.
Proof.
  unfold joined_with.
  induction cands as [|r cands IH]; intros Hnd; [reflexivity|].
  cbn [map] in Hnd. inversion Hnd as [|? ? Hnotin Hrest]; subst.
  cbn [List.filter List.find]. unfold same_id at 1.
  destruct (String.eqb_spec (id t) (fst r)) as [E | E].
  - f_equal. apply no_matches. now rewrite E.
  - now apply IH.
Qed.

Lemma flat_map_singletons {A B} (f : A -> list B) (g : A -> B)
    (l : list A) :
  (forall x, In x l -> f x = [g x]) -> flat_map f l = map g l.
Proof.
  induction l as [|x l IH]; intros H; cbn; [reflexivity|].
  rewrite (H x (or_introl eq_refl)), IH; [reflexivity|].
  intros y Hy. apply H. now right.
Qed.

Lemma filter_map_comm {A B} (p : B -> bool) (h : A -> B) (l : list A) :
  List.filter p (map h l) = map h (List.filter (fun x => p (h x)) l).
Proof.
  induction l as [|x l IH]; cbn; [reflexivity|].
  destruct (p (h x)); cbn; now rewrite IH.
Qed.

Lemma left_join_table (table : list Row) (cands : list (string * Q)) :
  List.NoDup (map fst cands) ->
  left_join same_id table cands
  = map (fun t => (t, joined_with cands t)) table.
Proof.
  intros Hc. unfold left_join. apply flat_map_singletons.
  intros t _. rewrite matches_of by assumption.
  now destruct (joined_with cands t).
Qed.

Lemma flat_map_map_singletons {A B C} (f : B -> list C) (h : A -> B)
    (g : A -> C) (l : list A) :
  (forall x, In x l -> f (h x) = [g x]) -> flat_map f (map h l) = map g l.
Proof.
  induction l as [|x l IH]; intros H; cbn; [reflexivity|].
  rewrite (H x (or_introl eq_refl)), IH; [reflexivity|].
  intros y Hy. apply H. now right.
Qed.

Lemma left_join_pairs (cands : list (string * Q))
    (first : Row -> option (string * Q)) (rows : list Row) :
  List.NoDup (map fst cands) ->
  left_join (fun tv r => same_id (fst tv) r)
            (map (fun t => (t, first t)) rows) cands
  = map (fun t => (t, first t, joined_with cands t)) rows.
Proof.
  intros Hc. unfold left_join.
  apply flat_map_map_singletons. intros t _. cbn [fst].
  rewrite matches_of by assumption.
  now destruct (joined_with cands t).
Qed.

Lemma flat_map_filter {A B} (f : A -> list B) (g : A -> B)
    (p : A -> bool) (l : list A) :
  (forall x, In x l -> f x = if p x then [g x] else []) ->
  flat_map f l = map g (List.filter p l).
Proof.
  induction l as [|x l IH]; intros H; cbn; [reflexivity|].
  rewrite (H x (or_introl eq_refl)), IH by (intros y Hy; apply H; now right).
  now destruct (p x).
Qed.

Lemma in_ids_joined (cands : list (string * Q)) (t : Row) :
  in_ids (id t) cands = not_null (joined_with cands t).
Proof.
  unfold in_ids, joined_with.
  induction cands as [|r cands IH]; [reflexivity|].
  cbn [existsb List.find]. now destruct (String.eqb (id t) (fst r)).
Qed.

Lemma coalesce_joined (cands : list (string * Q)) (t : Row) :
  coalesce (joined_with cands t) = score_or_zero cands (id t).
Proof.
  unfold joined_with, score_or_zero.
  now destruct (List.find _ cands) as [[i x]|].
Qed.

Lemma inner_join_table (cands : list (string * Q)) (rows : list Row) :
  List.NoDup (map fst cands) ->
  inner_join same_id rows cands
  = map (fun t => (t, (id t, score_or_zero cands (id t))))
        (List.filter (fun t => in_ids (id t) cands) rows).
Proof.
  intros Hc. unfold inner_join.
  apply flat_map_filter. intros t _.
  rewrite matches_of, in_ids_joined by assumption.
  unfold score_or_zero, joined_with.
  destruct (List.find _ cands) as [[i x]|] eqn:E; [|reflexivity].
  cbn. apply List.find_some in E as [_ E]. apply String.eqb_eq in E.
  cbn in E. now subst i.
Qed.

(** The score of a row with a query text. *)
Definition fused_score (v f : list (string * Q)) (t : Row) : Q :=
  stated_fused_score (score_or_zero v (id t)) (score_or_zero f (id t))
    (is_definition t).

(** The score of a row without one. *)
Definition boosted_score (v : list (string * Q)) (t : Row) : Q :=
  stated_vector_score (score_or_zero v (id t)) (is_definition t).

Lemma fused_query_eq (table : list Row) (text : Data) (filter : list N)
    (params : Params) :
  List.NoDup (map id table) ->
  let v := vector_results table filter params in
  let f := fts_results table text filter params in
  fused_query table text filter params
  = firstn (param2 params)
      (order_desc _ snd
         (map (fun t => (t, fused_score v f t))
              (List.filter
                 (fun t => in_ids (id t) v || in_ids (id t) f) table))).
Proof using order_desc_perm index_scan_rows.
  intros Hids v f. unfold fused_query. fold v f.
  assert (List.NoDup (map fst v)) as Hv by now apply vector_results_ids.
  assert (List.NoDup (map fst f)) as Hf by now apply fts_results_ids.
  rewrite left_join_table by assumption.
  rewrite left_join_pairs by assumption.
  rewrite filter_map_comm, map_map. cbn.
  do 2 f_equal. erewrite List.filter_ext.
  - apply map_ext. intros t.
    unfold fused_score, stated_fused_score, add8, mul8, definition_bonus.
    now rewrite !coalesce_joined.
  - intros t. cbn. now rewrite !in_ids_joined.
Qed.

Lemma vector_query_eq (table : list Row) (filter : list N)
    (params : Params) :
  List.NoDup (map id table) ->
  let v := vector_results table filter params in
  vector_query table filter params
  = firstn (param2 params)
      (order_desc _ snd
         (map (fun t => (t, boosted_score v t))
              (List.filter (fun t => in_ids (id t) v) table))).
Proof using index_scan_rows.
  intros Hids v. unfold vector_query. fold v.
  assert (List.NoDup (map fst v)) as Hv by now apply vector_results_ids.
  rewrite inner_join_table by assumption.
  now rewrite map_map.
Qed.

(** *** Ranked results *)

(** [out] ranks the candidates of [table] by [final]: highest score
    first, at most [k] results, each a candidate with its score, and a
    candidate is missing only when [k] results that score at least as
    high were returned. *)
Definition ranked (table : list Row) (candidate : Row -> bool)
    (final : Row -> Q) (k : nat) (out : list HybridSearchResult) : Prop :=
  StronglySorted (descending score) out /\
  (length out <= k)%nat /\
  (forall res, In res out ->
     exists t, In t table /\ candidate t = true /\
               res = to_result (t, final t)) /\
  (forall t, In t table -> candidate t = true ->
     In (to_result (t, final t)) out \/
     (length out = k /\
      forall res, In res out -> (final t <= score res)%Q)).

Lemma map_sorted {A B} (h : A -> B) (key : A -> Q) (key' : B -> Q)
    (l : list A) :
  (forall x, key' (h x) = key x) ->
  StronglySorted (descending key) l ->
  StronglySorted (descending key') (map h l).
Proof.
  intros Hkey. induction 1 as [|x l Hl IH Hx]; cbn; constructor;
    [exact IH|].
  apply Forall_map. eapply List.Forall_impl; [|exact Hx].
  unfold descending. intros y Hy. now rewrite !Hkey.
Qed.

Lemma ranked_top (table : list Row) (candidate : Row -> bool)
    (final : Row -> Q) (k : nat) :
  ranked table candidate final k
    (map to_result
       (firstn k
          (order_desc _ snd
             (map (fun t => (t, final t))
                  (List.filter candidate table))))).
Proof using order_desc_perm order_desc_sorted.
  set (scored := map (fun t => (t, final t)) (List.filter candidate table)).
  pose proof (order_desc_perm _ snd scored) as Hperm.
  pose proof (order_desc_sorted _ snd scored) as Hsorted.
  assert (forall x, score (to_result x) = snd x) as Hscore
    by (now intros [t sc]).
  split; [|split; [|split]].
  - apply (map_sorted to_result snd score); [exact Hscore|].
    now apply firstn_sorted.
  - rewrite length_map. apply firstn_le_length.
  - intros res Hres. apply in_map_iff in Hres as (x & <- & Hx).
    apply firstn_In in Hx. apply (Permutation_in _ Hperm) in Hx.
    apply in_map_iff in Hx as (t & <- & Ht).
    apply filter_In in Ht as [Ht Hc]. eauto.
  - intros t Ht Hc.
    assert (In (t, final t) (order_desc _ snd scored)) as Hin.
    { apply (Permutation_in _ (Permutation_sym Hperm)).
      apply in_map_iff. exists t. split; [reflexivity|].
      now apply filter_In. }
    destruct (firstn_cut snd k _ _ Hsorted Hin) as [Hkept | [Hlen Hcut]].
    + left. now apply in_map.
    + right. split; [now rewrite length_map|].
      intros res Hres. apply in_map_iff in Hres as (x & <- & Hx).
      rewrite Hscore. now apply Hcut.
Qed.

End Query.

(** The query text in force: the data of the [sparse_vector] request
    unless it is missing or empty. *)
Definition query_text (searchRequests : list HybridSearchRequest)
  : option Data :=
  match List.find (fun req => String.eqb (anns_field req) "sparse_vector")
                  searchRequests with
  | Some sparse => if truthy (data sparse) then Some (data sparse) else None
  | None => None
  end.

Lemma topK_stated (options : option HybridSearchOptions) :
  topK options = stated_limit options.
Proof.
  destruct options as [[[n|] filter]|]; try reflexivity.
  now destruct n.
Qed.

(** C5: on a connection that is up and answers the statement, a hybrid
    search that has a dense request returns results, and, ids being
    unique in the table, these rank by descending final score, capped at
    the limit (the one given, 10 when none or 0 is).  With a non-empty
    query text they are the rows in the vector or the lexical candidate
    set, each scored [vectorScore*0.7 + lexicalScore*0.3] plus 0.1 for a
    definition, a score missing from a set counting 0; without one, the
    rows of the vector candidate set alone, scored [vectorScore] plus
    0.1 for a definition.  The arithmetic is that of float8; the
    candidate sets are what the two subqueries return, the vector one by
    an index scan of which only this is assumed: it returns rows of the
    table, none twice. *)
Theorem hybridSearch_fusion
    (float8 : Q -> Q) (vector_score fts_score : Data -> Row -> Q)
    (sql_where : list N -> Params -> Row -> bool)
    (order_desc : forall A : Type, (A -> Q) -> list A -> list A)
    (index_scan : (Row -> bool) -> (Row -> Q) -> nat -> list Row
                  -> list Row)
    (conn : Connection) (table : list Row)
    (searchRequests : list HybridSearchRequest)
    (options : option HybridSearchOptions) (dense : HybridSearchRequest) :
  (forall (A : Type) (key : A -> Q) (l : list A),
      Permutation (order_desc A key l) l) ->
  (forall (A : Type) (key : A -> Q) (l : list A),
      StronglySorted (descending key) (order_desc A key l)) ->
  (forall (keep : Row -> bool) (key : Row -> Q) (k : nat) (rows : list Row),
      exists rest,
        Permutation (index_scan keep key k rows ++ rest)
                    (List.filter keep rows)) ->
  List.NoDup (map id table) ->
  ensureInitialized conn = None ->
  query_error conn = None ->
  List.find (fun req => String.eqb (anns_field req) "vector") searchRequests
  = Some dense ->
  let filter := where_clause options in
  let params := {| param1 := data dense; param2 := topK options;
                   param3 := query_text searchRequests |} in
  let v := vector_results vector_score sql_where index_scan table filter
             params in
  exists out,
    hybridSearch float8 vector_score fts_score sql_where order_desc
      index_scan conn table searchRequests options = inr out /\
    match query_text searchRequests with
    | Some text =>
        let f := fts_results fts_score sql_where order_desc table text
                   filter params in
        ranked table (fun t => in_ids (id t) v || in_ids (id t) f)
          (fun t => stated_fused_score float8 (score_or_zero v (id t))
                      (score_or_zero f (id t)) (is_definition t))
          (stated_limit options) out
    | None =>
        ranked table (fun t => in_ids (id t) v)
          (fun t => stated_vector_score float8 (score_or_zero v (id t))
                      (is_definition t))
          (stated_limit options) out
    end.
Proof.
  intros Hperm Hsorted Hscan Hids Hinit Hquery Hdense filter params v.
  unfold hybridSearch. rewrite Hinit, Hdense, Hquery.
  fold (query_text searchRequests). fold filter. cbv zeta. fold params.
  eexists. split; [reflexivity|].
  rewrite <- topK_stated. change (topK options) with (param2 params).
  destruct (query_text searchRequests) as [text|] eqn:Htext.
  - cbv zeta. rewrite fused_query_eq by assumption.
    now apply ranked_top.
  - rewrite vector_query_eq by assumption. now apply ranked_top.
Qed.

(** *** A three-row collection *)

Definition demo_row (i : string) (sim : Q) (text : string) (def : bool)
  : Row :=
  {| id := i; vector := [sim]; content := str text;
     relative_path := "src/a.ts"; start_line := 1; end_line := 3;
     file_extension := ".ts"; is_definition := def; metadata := "{}" |}.

Definition demo_table : list Row :=
  [demo_row "a" (9 # 10) "function add" true;
   demo_row "b" (5 # 10) "let total = add(1, 2)" false;
   demo_row "c" (1 # 10) "class Sum" true].

(** A toy engine: numbers are not rounded, the similarity is stored in
    the row, a row ranks 1/2 for a text it contains, a WHERE text holds
    when it is not a text search or the row contains the text, and the
    index scan is exact. *)
Definition demo_float8 (x : Q) : Q := x.
Definition demo_vector_score (_ : Data) (t : Row) : Q := hd 0%Q (vector t).
Definition demo_fts_match (text : Data) (t : Row) : bool :=
  match text with
  | DText w => occurs w (content t)
  | DVector _ => false
  end.
Definition demo_fts_score (text : Data) (t : Row) : Q :=
  if demo_fts_match text t then (1 # 2)%Q else 0%Q.
Definition demo_where (text : list N) (params : Params) (t : Row) : bool :=
  if occurs (str "@@") text
  then match param3 params with
       | Some w => demo_fts_match w t
       | None => false
       end
  else true.
Definition demo_order : forall A : Type, (A -> Q) -> list A -> list A :=
  fun A => @sort_desc A.
Definition demo_scan (keep : Row -> bool) (key : Row -> Q) (k : nat)
    (table : list Row) : list Row :=
  firstn k (sort_desc key (List.filter keep table)).

Definition demo_conn : Connection :=
  {| initialization_error := None; client_set := true;
     query_error := None |}.

Definition demo_dense : HybridSearchRequest :=
  {| anns_field := "vector"; data := DVector [1%Q] |}.
Definition demo_requests : list HybridSearchRequest :=
  [demo_dense; {| anns_field := "sparse_vector"; data := DText (str "Sum") |}].
Definition demo_options : option HybridSearchOptions :=
  Some {| limit := Some 2%N; filterExpr := None |}.

(** With limit 2 the vector candidates are a and b, the only lexical
    candidate is c: a scores 0.9*0.7 + 0.1, b scores 0.5*0.7, and c, absent
    from the vector candidates, 0.5*0.3 + 0.1. *)
Example demo_fused :
  match hybridSearch demo_float8 demo_vector_score demo_fts_score
          demo_where demo_order demo_scan demo_conn demo_table
          demo_requests demo_options with
  | inr out => map (fun r => (id (document r), Qred (score r))) out
  | inl _ => []
  end = [("a", 73 # 100); ("b", 7 # 20)]%Q.
Proof. reflexivity. Qed.

Example demo_vector_only :
  match hybridSearch demo_float8 demo_vector_score demo_fts_score
          demo_where demo_order demo_scan demo_conn demo_table
          [demo_dense] None with
  | inr out => map (fun r => (id (document r), Qred (score r))) out
  | inl _ => []
  end = [("a", 1); ("b", 1 # 2); ("c", 1 # 5)]%Q.
Proof. reflexivity. Qed.

(** Before anything else the connection is awaited: a search on a
    connection that could not be made fails with its error. *)
Example demo_not_connected :
  hybridSearch demo_float8 demo_vector_score demo_fts_score demo_where
    demo_order demo_scan
    {| initialization_error := Some "connect ECONNREFUSED";
       client_set := true; query_error := None |}
    demo_table [] None
  = inl "connect ECONNREFUSED".
Proof. reflexivity. Qed.

Lemma demo_scan_rows (keep : Row -> bool) (key : Row -> Q) (k : nat)
    (rows : list Row) :
  exists rest,
    Permutation (demo_scan keep key k rows ++ rest) (List.filter keep rows).
Proof.
  exists (skipn k (sort_desc key (List.filter keep rows))).
  unfold demo_scan. rewrite firstn_skipn. apply sort_desc_perm.
Qed.

Lemma hybridSearch_fusion_witness :
  (forall (A : Type) (key : A -> Q) (l : list A),
      Permutation (demo_order A key l) l) /\
  (forall (A : Type) (key : A -> Q) (l : list A),
      StronglySorted (descending key) (demo_order A key l)) /\
  (forall (keep : Row -> bool) (key : Row -> Q) (k : nat) (rows : list Row),
      exists rest,
        Permutation (demo_scan keep key k rows ++ rest)
                    (List.filter keep rows)) /\
  List.NoDup (map id demo_table) /\
  ensureInitialized demo_conn = None /\
  query_error demo_conn = None /\
  List.find (fun req => String.eqb (anns_field req) "vector") demo_requests
  = Some demo_dense /\
  exists out,
    hybridSearch demo_float8 demo_vector_score demo_fts_score demo_where
      demo_order demo_scan demo_conn demo_table demo_requests demo_options
    = inr out /\
    match query_text demo_requests with
    | Some text =>
        ranked demo_table
          (fun t =>
             in_ids (id t)
               (vector_results demo_vector_score demo_where demo_scan
                  demo_table (where_clause demo_options)
                  {| param1 := data demo_dense;
                     param2 := topK demo_options;
                     param3 := query_text demo_requests |})
             || in_ids (id t)
                  (fts_results demo_fts_score demo_where demo_order
                     demo_table text (where_clause demo_options)
                     {| param1 := data demo_dense;
                        param2 := topK demo_options;
                        param3 := query_text demo_requests |}))
          (fun t =>
             stated_fused_score demo_float8
               (score_or_zero
                  (vector_results demo_vector_score demo_where demo_scan
                     demo_table (where_clause demo_options)
                     {| param1 := data demo_dense;
                        param2 := topK demo_options;
                        param3 := query_text demo_requests |})
                  (id t))
               (score_or_zero
                  (fts_results demo_fts_score demo_where demo_order
                     demo_table text (where_clause demo_options)
                     {| param1 := data demo_dense;
                        param2 := topK demo_options;
                        param3 := query_text demo_requests |})
                  (id t))
               (is_definition t))
          (stated_limit demo_options) out
    | None =>
        ranked demo_table
          (fun t =>
             in_ids (id t)
               (vector_results demo_vector_score demo_where demo_scan
                  demo_table (where_clause demo_options)
                  {| param1 := data demo_dense;
                     param2 := topK demo_options;
                     param3 := query_text demo_requests |}))
          (fun t =>
             stated_vector_score demo_float8
               (score_or_zero
                  (vector_results demo_vector_score demo_where demo_scan
                     demo_table (where_clause demo_options)
                     {| param1 := data demo_dense;
                        param2 := topK demo_options;
                        param3 := query_text demo_requests |})
                  (id t))
               (is_definition t))
          (stated_limit demo_options) out
    end.
Proof.
  assert (List.NoDup (map id demo_table)) as Hids.
  { cbn. repeat constructor; cbn; intuition discriminate. }
  pose proof (fun A => @sort_desc_perm A) as Hperm.
  pose proof (fun A => @sort_desc_sorted A) as Hsorted.
  split; [exact Hperm|]. split; [exact Hsorted|].
  split; [exact demo_scan_rows|]. split; [exact Hids|].
  split; [reflexivity|]. split; [reflexivity|]. split; [reflexivity|].
  exact (hybridSearch_fusion demo_float8 demo_vector_score demo_fts_score
           demo_where demo_order demo_scan demo_conn demo_table
           demo_requests demo_options demo_dense Hperm Hsorted
           demo_scan_rows Hids eq_refl eq_refl eq_refl).
Defined.

End HybridSearch.

(** ** The tool handlers: state *)

Module ToolHandlers.
Import Js Ranking.

(** A thrown value: its [message] (empty when it has none) and what
    [String(error)] gives. *)
Record Exn := { message : string; as_string : string }.

(** [error.message || String(error)] *)
Definition error_text (e : Exn) : string :=
  if String.eqb (message e) "" then as_string e else message e.

Inductive IndexStatus := completed | limit_reached.

Record Stats := {
  indexedFiles : N;
  totalChunks : N;
  status : IndexStatus
}.

(** Modelled from the spec: the snapshot manager ([snapshot.js] is not
    among the sources).  Section 3 gives every path exactly one codebase
    index state, with a progress percentage while indexing, the final
    statistics once indexed, and the error message and last attempted
    percentage after a failure; a path without an entry is [not_found].
    Time stamps are left out. *)
Inductive CodebaseInfo :=
| Indexing (indexingPercentage : Q)
| Indexed (stats : Stats)
| IndexFailed (errorMessage : string) (lastAttemptedPercentage : option Q).

Inductive CodebaseStatus := indexed | indexing | indexfailed | not_found.

Module SnapshotManager.

Definition getCodebaseInfo (snap : gmap string CodebaseInfo)
    (path : string) : option CodebaseInfo := snap !! path.

Definition getCodebaseStatus (snap : gmap string CodebaseInfo)
    (path : string) : CodebaseStatus :=
  match snap !! path with
  | Some (Indexing _) => indexing
  | Some (Indexed _) => indexed
  | Some (IndexFailed _ _) => indexfailed
  | None => not_found
  end.

Definition is_indexing (info : CodebaseInfo) : bool :=
  match info with Indexing _ => true | _ => false end.

Definition is_indexed (info : CodebaseInfo) : bool :=
  match info with Indexed _ => true | _ => false end.

Definition paths_where (keep : CodebaseInfo -> bool)
    (snap : gmap string CodebaseInfo) : list string :=
  map fst (List.filter (fun entry => keep (snd entry)) (map_to_list snap)).

Definition getIndexingCodebases := paths_where is_indexing.
Definition getIndexedCodebases := paths_where is_indexed.

Definition getIndexingProgress (snap : gmap string CodebaseInfo)
    (path : string) : option Q :=
  match snap !! path with
  | Some (Indexing percentage) => Some percentage
  | _ => None
  end.

Definition setCodebaseIndexing (path : string) (percentage : Q)
    (snap : gmap string CodebaseInfo) : gmap string CodebaseInfo :=
  <[path := Indexing percentage]> snap.

Definition setCodebaseIndexed (path : string) (stats : Stats)
    (snap : gmap string CodebaseInfo) : gmap string CodebaseInfo :=
  <[path := Indexed stats]> snap.

Definition setCodebaseIndexFailed (path : string) (errorMessage : string)
    (lastProgress : option Q) (snap : gmap string CodebaseInfo)
  : gmap string CodebaseInfo :=
  <[path := IndexFailed errorMessage lastProgress]> snap.

Definition removeIndexedCodebase (path : string)
    (snap : gmap string CodebaseInfo) : gmap string CodebaseInfo :=
  match snap !! path with
  | Some (Indexed _) => delete path snap
  | _ => snap
  end.

End SnapshotManager.

(** A background indexing task that has been started and has not ended. *)
Record Job := {
  job_path : string;
  job_force : bool;
  job_splitter : string
}.

(** What the handlers act on.  Modelled from the spec: the [Context] of
    the core package is not among the sources; of it the model keeps the
    codebases that have a collection ([hasIndex], dropped by
    [clearIndex], created if absent by [getPreparedCollection]), those
    with a synchronizer, and the custom extensions and ignore patterns. *)
Record World := {
  snapshot : gmap string CodebaseInfo;
  saved : gmap string CodebaseInfo;
  collections : gset string;
  synchronizers : gset string;
  extensions : list string;
  ignorePatterns : list string;
  tracked : list string;
  indexingStats : option (N * N);
  jobs : list Job
}.

Definition set_snapshot (f : gmap string CodebaseInfo
                             -> gmap string CodebaseInfo) (w : World)
  : World :=
  {| snapshot := f (snapshot w); saved := saved w;
     collections := collections w; synchronizers := synchronizers w;
     extensions := extensions w;
     ignorePatterns := ignorePatterns w;
     tracked := tracked w; indexingStats := indexingStats w;
     jobs := jobs w |}.

(** [saveCodebaseSnapshot] *)
Definition save_snapshot (w : World) : World :=
  {| snapshot := snapshot w; saved := snapshot w;
     collections := collections w; synchronizers := synchronizers w;
     extensions := extensions w;
     ignorePatterns := ignorePatterns w;
     tracked := tracked w; indexingStats := indexingStats w;
     jobs := jobs w |}.

Definition set_collections (f : gset string -> gset string) (w : World)
  : World :=
  {| snapshot := snapshot w; saved := saved w;
     collections := f (collections w); synchronizers := synchronizers w;
     extensions := extensions w;
     ignorePatterns := ignorePatterns w;
     tracked := tracked w; indexingStats := indexingStats w;
     jobs := jobs w |}.

Definition set_synchronizers (f : gset string -> gset string) (w : World)
  : World :=
  {| snapshot := snapshot w; saved := saved w;
     collections := collections w; synchronizers := f (synchronizers w);
     extensions := extensions w;
     ignorePatterns := ignorePatterns w;
     tracked := tracked w; indexingStats := indexingStats w;
     jobs := jobs w |}.

Definition add_extensions (exts : list string) (w : World) : World :=
  {| snapshot := snapshot w; saved := saved w;
     collections := collections w; synchronizers := synchronizers w;
     extensions := extensions w ++ exts;
     ignorePatterns := ignorePatterns w;
     tracked := tracked w; indexingStats := indexingStats w;
     jobs := jobs w |}.

Definition add_ignore_patterns (pats : list string) (w : World) : World :=
  {| snapshot := snapshot w; saved := saved w;
     collections := collections w; synchronizers := synchronizers w;
     extensions := extensions w;
     ignorePatterns := ignorePatterns w ++ pats;
     tracked := tracked w; indexingStats := indexingStats w;
     jobs := jobs w |}.

Definition track (path : string) (w : World) : World :=
  {| snapshot := snapshot w; saved := saved w;
     collections := collections w; synchronizers := synchronizers w;
     extensions := extensions w;
     ignorePatterns := ignorePatterns w;
     tracked := tracked w ++ [path]; indexingStats := indexingStats w;
     jobs := jobs w |}.

Definition set_indexingStats (s : option (N * N)) (w : World) : World :=
  {| snapshot := snapshot w; saved := saved w;
     collections := collections w; synchronizers := synchronizers w;
     extensions := extensions w;
     ignorePatterns := ignorePatterns w;
     tracked := tracked w; indexingStats := s;
     jobs := jobs w |}.

Definition set_jobs (f : list Job -> list Job) (w : World) : World :=
  {| snapshot := snapshot w; saved := saved w;
     collections := collections w; synchronizers := synchronizers w;
     extensions := extensions w;
     ignorePatterns := ignorePatterns w;
     tracked := tracked w; indexingStats := indexingStats w;
     jobs := f (jobs w) |}.

(** What [console.warn] and [console.error] print, one constructor for
    each call; the [console.log] lines are not modelled. *)
Inductive ConsoleEntry :=
| warn_non_ast_splitter (splitterType : string)
| warn_search_failed (codebasePath : string) (text : string)
| error_limit_validation (absolutePath : string)
| error_validation_failed (e : Exn)
| error_handleIndexCodebase (e : Exn)
| error_background_indexing (absolutePath : string) (e : Exn)
| error_indexing_failed (absolutePath : string) (errorMessage : string).

Record St := { world : World; console : list ConsoleEntry }.

(** *** Handler code: state and exceptions *)

Definition M (A : Type) : Type := St -> (Exn + A) * St.

#[global] Instance M_ret : MRet M := fun A a st => (inr a, st).

#[global] Instance M_bind : MBind M := fun A B f m st =>
  match m st with
  | (inl e, st') => (inl e, st')
  | (inr a, st') => f a st'
  end.

Definition throw {A} (e : Exn) : M A := fun st => (inl e, st).

(** [try { body } catch (error) { handler }] *)
Definition try_catch {A} (body : M A) (handler : Exn -> M A) : M A :=
  fun st =>
    match body st with
    | (inl e, st') => handler e st'
    | (inr a, st') => (inr a, st')
    end.

Definition gets {A} (f : World -> A) : M A :=
  fun st => (inr (f (world st)), st).

Definition modify (f : World -> World) : M unit :=
  fun st => (inr tt, {| world := f (world st); console := console st |}).

Definition print (entry : ConsoleEntry) : M unit :=
  fun st => (inr tt, {| world := world st;
                        console := console st ++ [entry] |}).

Definition when (b : bool) (m : M unit) : M unit :=
  if b then m else mret tt.

(** A call that throws when the collaborator fails. *)
Definition may_throw (fault : option Exn) : M unit :=
  match fault with
  | Some e => throw e
  | None => mret tt
  end.

(** ** The tool handlers: starting an indexing job *)

(** The arguments of a start-indexing request. *)
Record IndexArgs := {
  arg_path : string;
  arg_force : bool;
  arg_splitter : option string;
  arg_customExtensions : list string;
  arg_ignorePatterns : list string
}.

(** [{ content: [{ type: "text", text }], isError }] *)
Record Response := { text : string; isError : bool }.

(** What the file system and the vector database answer during one
    request. *)
Record Backend := {
  existsSync : string -> bool;
  isDirectory : string -> bool;
  hasIndex_fault : option Exn;
  clearIndex_fault : option Exn;
  checkCollectionLimit : Exn + bool
}.

(** What the collaborators of a background task answer before indexing
    begins: a failure while loading ignore patterns or initialising the
    synchronizer, a failure of [getPreparedCollection]. *)
Record Preparation := {
  setup_fault : option Exn;
  collection_fault : option Exn
}.

(** One run of [context.indexCodebase]: the progress reports (percentage
    and [Date.now()] at the callback), then the statistics returned or
    the exception thrown. *)
Record IndexRun := {
  progress : list (Q * Z);
  outcome : Exn + Stats
}.

Definition nl : string := String "010" EmptyString.

(** [xs.join(', ')] *)
Definition join (xs : list string) : string := String.concat ", " xs.

Section Handlers.

(** From the core package and [utils.js], which are not among the
    sources: the collection-limit message, path resolution, the
    [Context] class and the run of its [indexCodebase] on a codebase. *)
Variable COLLECTION_LIMIT_MESSAGE : string.
Variable ensureAbsolutePath : string -> string.
Variable Context : Type.
Variable indexCodebase : Context -> string -> IndexRun.

(** [this.context] *)
Variable this_context : Context.

(** [context.hasIndex]: whether the codebase has a collection. *)
Definition hasIndex (env : Backend) (absolutePath : string) : M bool :=
  may_throw (hasIndex_fault env);;
  gets (fun w => bool_decide (absolutePath ∈ collections w)).

(** [context.clearIndex]: the collection of the codebase is dropped. *)
Definition clearIndex (env : Backend) (absolutePath : string) : M unit :=
  may_throw (clearIndex_fault env);;
  modify (set_collections (fun c => c ∖ {[absolutePath]})).

(** [startBackgroundIndexing] up to its first [await]: the task is
    started and left pending. *)
Definition startBackgroundIndexing_begin (absolutePath : string)
    (forceReindex : bool) (splitterType : string) : M unit :=
  when (negb (String.eqb splitterType "ast"))
       (print (warn_non_ast_splitter splitterType));;
  modify (set_jobs (fun js => js ++ [{| job_path := absolutePath;
                                        job_force := forceReindex;
                                        job_splitter := splitterType |}])).

(** The pre-index validation: a response when indexing must not start. *)
Definition validateCollectionCreation (env : Backend)
    (absolutePath : string) : M (option Response) :=
  try_catch
    (canCreateCollection ←
       match checkCollectionLimit env with
       | inl e => throw e
       | inr b => mret b
       end;
     if negb canCreateCollection then
       print (error_limit_validation absolutePath);;
       mret (Some {| text := COLLECTION_LIMIT_MESSAGE; isError := true |})
     else mret None)
    (fun validationError =>
       print (error_validation_failed validationError);;
       mret (Some {| text := "Error validating collection creation: "
                             +:+ error_text validationError;
                     isError := true |})).

Definition started_text (codebasePath absolutePath splitterType : string)
    (customFileExtensions customIgnorePatterns : list string) : string :=
  let pathInfo :=
    if negb (String.eqb codebasePath absolutePath)
    then nl +:+ "Note: Input path '" +:+ codebasePath
         +:+ "' was resolved to absolute path '" +:+ absolutePath +:+ "'"
    else "" in
  let extensionInfo :=
    if (0 <? length customFileExtensions)%nat
    then nl +:+ "Using " +:+ pretty (length customFileExtensions)
         +:+ " custom extensions: " +:+ join customFileExtensions
    else "" in
  let ignoreInfo :=
    if (0 <? length customIgnorePatterns)%nat
    then nl +:+ "Using " +:+ pretty (length customIgnorePatterns)
         +:+ " custom ignore patterns: " +:+ join customIgnorePatterns
    else "" in
  "Started background indexing for codebase '" +:+ absolutePath
  +:+ "' using " +:+ toUpperCase splitterType +:+ " splitter."
  +:+ pathInfo +:+ extensionInfo +:+ ignoreInfo +:+ nl +:+ nl
  +:+ "Indexing is running in the background. You can search the codebase while indexing is in progress, but results may be incomplete until indexing completes.".

(** The force branch of [handleIndexCodebase]: the indexed entry is
    removed and an existing index cleared, before the validation. *)
Definition clear_for_reindex (env : Backend) (absolutePath : string)
  : M unit :=
  stillIndexed ← gets (fun w =>
     SnapshotManager.getIndexedCodebases (snapshot w));
  when (includes stillIndexed absolutePath)
    (modify (set_snapshot
       (SnapshotManager.removeIndexedCodebase absolutePath)));;
  has ← hasIndex env absolutePath;
  when has (clearIndex env absolutePath).

(** The end of [handleIndexCodebase], once nothing stands in the way:
    the path is set to indexing at 0, the snapshot saved, the path
    tracked and the background task started without being awaited. *)
Definition begin_indexing (codebasePath absolutePath : string)
    (forceReindex : bool) (splitterType : string)
    (customFileExtensions customIgnorePatterns : list string)
  : M Response :=
  when (0 <? length customFileExtensions)%nat
    (modify (add_extensions customFileExtensions));;
  when (0 <? length customIgnorePatterns)%nat
    (modify (add_ignore_patterns customIgnorePatterns));;
  modify (set_snapshot
    (SnapshotManager.setCodebaseIndexing absolutePath 0));;
  modify save_snapshot;;
  modify (track absolutePath);;
  startBackgroundIndexing_begin absolutePath forceReindex splitterType;;
  mret {| text := started_text codebasePath absolutePath splitterType
                    customFileExtensions customIgnorePatterns;
          isError := false |}.

(** [splitter || 'ast'] *)
Definition splitter_of (args : IndexArgs) : string :=
  match arg_splitter args with
  | Some s => if String.eqb s "" then "ast" else s
  | None => "ast"
  end.

Definition handleIndexCodebase (env : Backend) (args : IndexArgs)
  : M Response :=
  let codebasePath := arg_path args in
  let forceReindex := arg_force args in
  let splitterType := splitter_of args in
  let customFileExtensions := arg_customExtensions args in
  let customIgnorePatterns := arg_ignorePatterns args in
  try_catch
    (if negb (String.eqb splitterType "ast")
        && negb (String.eqb splitterType "langchain")
     then mret {| text := "Error: Invalid splitter type '" +:+ splitterType
                          +:+ "'. Must be 'ast' or 'langchain'.";
                  isError := true |}
     else
       let absolutePath := ensureAbsolutePath codebasePath in
       if negb (existsSync env absolutePath)
       then mret {| text := "Error: Path '" +:+ absolutePath
                            +:+ "' does not exist. Original input: '"
                            +:+ codebasePath +:+ "'";
                    isError := true |}
       else if negb (isDirectory env absolutePath)
       then mret {| text := "Error: Path '" +:+ absolutePath
                            +:+ "' is not a directory";
                    isError := true |}
       else
         indexingNow ← gets (fun w =>
                          SnapshotManager.getIndexingCodebases (snapshot w));
         if includes indexingNow absolutePath
         then mret {| text := "Codebase '" +:+ absolutePath
                        +:+ "' is already being indexed in the background. Please wait for completion.";
                      isError := true |}
         else
           indexedNow ← gets (fun w =>
                           SnapshotManager.getIndexedCodebases (snapshot w));
           if negb forceReindex && includes indexedNow absolutePath
           then mret {| text := "Codebase '" +:+ absolutePath
                          +:+ "' is already indexed. Use force=true to re-index.";
                        isError := true |}
           else
             when forceReindex (clear_for_reindex env absolutePath);;
             refusal ← validateCollectionCreation env absolutePath;
             match refusal with
             | Some response => mret response
             | None =>
                 begin_indexing codebasePath absolutePath forceReindex
                   splitterType customFileExtensions customIgnorePatterns
             end)
    (fun error =>
       print (error_handleIndexCodebase error);;
       mret {| text := "Error starting indexing: " +:+ error_text error;
               isError := true |}).

(** [handleReindexCodebase] *)
Definition handleReindexCodebase (env : Backend) (args : IndexArgs)
  : M Response :=
  handleIndexCodebase env
    {| arg_path := arg_path args; arg_force := true;
       arg_splitter := arg_splitter args;
       arg_customExtensions := arg_customExtensions args;
       arg_ignorePatterns := arg_ignorePatterns args |}.

(** *** The background task *)

(** The progress callback but for its saving rule. *)
Definition report_progress (absolutePath : string) (percentage : Q)
    (save : bool) : M unit :=
  modify (set_snapshot
            (SnapshotManager.setCodebaseIndexing absolutePath percentage));;
  when save (modify save_snapshot).

(** The progress callback: the snapshot is saved when two seconds have
    passed since [lastSaveTime], which it returns updated. *)
Definition onProgress (absolutePath : string) (lastSaveTime : Z)
    (report : Q * Z) : M Z :=
  let (percentage, currentTime) := report in
  let save := currentTime - lastSaveTime >=? 2000 in
  report_progress absolutePath percentage save;;
  mret (if save then currentTime else lastSaveTime).

Fixpoint progress_loop (absolutePath : string) (lastSaveTime : Z)
    (reports : list (Q * Z)) : M Z :=
  match reports with
  | [] => mret lastSaveTime
  | report :: rest =>
      t ← onProgress absolutePath lastSaveTime report;
      progress_loop absolutePath t rest
  end.

(** [getPreparedCollection] and [setSynchronizer] *)
Definition prepare_collection (absolutePath : string) : M unit :=
  modify (set_collections (fun c => {[absolutePath]} ∪ c));;
  modify (set_synchronizers (fun c => {[absolutePath]} ∪ c)).

(** After [indexCodebase] has returned its statistics. *)
Definition indexing_completed (absolutePath : string) (stats : Stats)
  : M unit :=
  modify (set_snapshot
            (SnapshotManager.setCodebaseIndexed absolutePath stats));;
  modify (set_indexingStats (Some (indexedFiles stats, totalChunks stats)));;
  modify save_snapshot.

(** The [catch] block of the task. *)
Definition indexing_failed (absolutePath : string) (error : Exn) : M unit :=
  print (error_background_indexing absolutePath error);;
  lastProgress ← gets (fun w =>
     SnapshotManager.getIndexingProgress (snapshot w) absolutePath);
  let errorMessage := error_text error in
  modify (set_snapshot
            (SnapshotManager.setCodebaseIndexFailed absolutePath errorMessage
               lastProgress));;
  modify save_snapshot;;
  print (error_indexing_failed absolutePath errorMessage).

(** [startBackgroundIndexing], run from start to end. *)
Definition startBackgroundIndexing (prep : Preparation)
    (absolutePath : string) (forceReindex : bool) (splitterType : string)
  : M unit :=
  try_catch
    (let contextForThisTask := this_context in
     when (negb (String.eqb splitterType "ast"))
          (print (warn_non_ast_splitter splitterType));;
     may_throw (setup_fault prep);;
     may_throw (collection_fault prep);;
     prepare_collection absolutePath;;
     let run := indexCodebase contextForThisTask absolutePath in
     _ ← progress_loop absolutePath 0 (progress run);
     match outcome run with
     | inl error => throw error
     | inr stats => indexing_completed absolutePath stats
     end)
    (indexing_failed absolutePath).

(** *** A request, from one [await] to the next *)

(** The [await]s of [handleIndexCodebase]: of [context.hasIndex] and of
    [context.clearIndex] in the force branch, and of
    [checkCollectionLimit].  There the call is suspended, and other calls
    and the pending tasks run before it goes on. *)
Inductive Await :=
| await_hasIndex
| await_clearIndex
| await_checkCollectionLimit.

(** The [catch] block of [handleIndexCodebase]. *)
Definition index_error (error : Exn) : M (Response + Await) :=
  print (error_handleIndexCodebase error);;
  mret (inl {| text := "Error starting indexing: " +:+ error_text error;
               isError := true |}).

(** [handleIndexCodebase] from its call to its first [await]: the checks
    of the arguments and of the status of the path and, with [force], the
    removal of the indexed entry. *)
Definition index_arrive (env : Backend) (args : IndexArgs)
  : M (Response + Await) :=
  let codebasePath := arg_path args in
  let forceReindex := arg_force args in
  let splitterType := splitter_of args in
  try_catch
    (if negb (String.eqb splitterType "ast")
        && negb (String.eqb splitterType "langchain")
     then mret (inl {| text := "Error: Invalid splitter type '"
                               +:+ splitterType
                               +:+ "'. Must be 'ast' or 'langchain'.";
                       isError := true |})
     else
       let absolutePath := ensureAbsolutePath codebasePath in
       if negb (existsSync env absolutePath)
       then mret (inl {| text := "Error: Path '" +:+ absolutePath
                                 +:+ "' does not exist. Original input: '"
                                 +:+ codebasePath +:+ "'";
                         isError := true |})
       else if negb (isDirectory env absolutePath)
       then mret (inl {| text := "Error: Path '" +:+ absolutePath
                                 +:+ "' is not a directory";
                         isError := true |})
       else
         indexingNow ← gets (fun w =>
                          SnapshotManager.getIndexingCodebases (snapshot w));
         if includes indexingNow absolutePath
         then mret (inl {| text := "Codebase '" +:+ absolutePath
                             +:+ "' is already being indexed in the background. Please wait for completion.";
                           isError := true |})
         else
           indexedNow ← gets (fun w =>
                           SnapshotManager.getIndexedCodebases (snapshot w));
           if negb forceReindex && includes indexedNow absolutePath
           then mret (inl {| text := "Codebase '" +:+ absolutePath
                               +:+ "' is already indexed. Use force=true to re-index.";
                             isError := true |})
           else if forceReindex then
             stillIndexed ← gets (fun w =>
                SnapshotManager.getIndexedCodebases (snapshot w));
             when (includes stillIndexed absolutePath)
               (modify (set_snapshot
                  (SnapshotManager.removeIndexedCodebase absolutePath)));;
             mret (inr await_hasIndex)
           else mret (inr await_checkCollectionLimit))
    index_error.

(** [handleIndexCodebase] from the [await] it was suspended at to the
    next one, or to its response. *)
Definition index_resume (env : Backend) (args : IndexArgs) (at_ : Await)
  : M (Response + Await) :=
  let codebasePath := arg_path args in
  let absolutePath := ensureAbsolutePath codebasePath in
  try_catch
    match at_ return M (Response + Await) with
    | await_hasIndex =>
        has ← hasIndex env absolutePath;
        mret (inr (if has : bool then await_clearIndex
                   else await_checkCollectionLimit))
    | await_clearIndex =>
        clearIndex env absolutePath;;
        mret (inr await_checkCollectionLimit)
    | await_checkCollectionLimit =>
        refusal ← validateCollectionCreation env absolutePath;
        match refusal with
        | Some response => mret (inl response)
        | None =>
            response ← begin_indexing codebasePath absolutePath
                         (arg_force args) (splitter_of args)
                         (arg_customExtensions args) (arg_ignorePatterns args);
            mret (inl response)
        end
    end
    index_error.

(** The call resumed again and again until it responds; it passes three
    [await]s at most. *)
Fixpoint index_finish (awaits : nat) (env : Backend) (args : IndexArgs)
    (r : Response + Await) : M (Response + Await) :=
  match awaits, r with
  | S n, inr at_ =>
      r' ← index_resume env args at_; index_finish n env args r'
  | _, _ => mret r
  end.

(** *** Calls and tasks taking turns *)

(** What happens in one stretch of a pending task, between two of its
    [await]s. *)
Inductive JobEvent :=
| collection_prepared
| progress_reported (percentage : Q) (save : bool)
| completed_with (stats : Stats)
| failed_with (error : Exn).

Definition drop_job (j : Job) (w : World) : World :=
  set_jobs (List.filter (fun j' => negb (String.eqb (job_path j')
                                                    (job_path j)))) w.

Definition job_event (j : Job) (ev : JobEvent) : M unit :=
  match ev with
  | collection_prepared => prepare_collection (job_path j)
  | progress_reported percentage save =>
      report_progress (job_path j) percentage save
  | completed_with stats =>
      indexing_completed (job_path j) stats;; modify (drop_job j)
  | failed_with error =>
      indexing_failed (job_path j) error;; modify (drop_job j)
  end.

(** The world a piece of handler code leaves. *)
Definition exec {A} (m : M A) (w : World) : World :=
  world (snd (m {| world := w; console := [] |})).

(** A start-indexing call that is suspended: what the file system and
    the database answer it, its arguments and the [await] it is at. *)
Record Call := {
  call_env : Backend;
  call_args : IndexArgs;
  call_at : Await
}.

(** What has become of a call after a stretch of it: suspended again, or
    gone when it has responded. *)
Definition still_pending (env : Backend) (args : IndexArgs)
    (r : Exn + (Response + Await)) : list Call :=
  match r with
  | inr (inr at_) =>
      [{| call_env := env; call_args := args; call_at := at_ |}]
  | _ => []
  end.

(** What a stretch of handler code returns. *)
Definition returned {A} (m : M A) (w : World) : Exn + A :=
  fst (m {| world := w; console := [] |}).

(** One turn of the event loop, on the world and the suspended calls: a
    start-indexing request arrives and runs to its first [await] or to
    its response; or a suspended call goes on to its next [await] or to
    its response; or a pending task runs one stretch.  Turns come in any
    order: a request may arrive while calls are suspended. *)
Inductive step : World * list Call -> World * list Call -> Prop :=
| step_request (env : Backend) (args : IndexArgs) (w : World)
    (calls : list Call) :
    step (w, calls)
         (exec (index_arrive env args) w,
          calls ++ still_pending env args
                     (returned (index_arrive env args) w))
| step_resume (c : Call) (w : World) (before after : list Call) :
    let m := index_resume (call_env c) (call_args c) (call_at c) in
    step (w, before ++ c :: after)
         (exec m w,
          before
          ++ still_pending (call_env c) (call_args c) (returned m w)
          ++ after)
| step_job (j : Job) (ev : JobEvent) (w : World) (calls : list Call) :
    In j (jobs w) -> step (w, calls) (exec (job_event j ev) w, calls).

Inductive reachable (s0 : World * list Call) : World * list Call -> Prop :=
| reachable_start : reachable s0 s0
| reachable_step (s s' : World * list Call) :
    reachable s0 s -> step s s' -> reachable s0 s'.

End Handlers.


(** ** The tool handlers: facts *)

Ltac run :=
  cbv beta iota zeta delta
    [mbind M_bind mret M_ret modify gets print when may_throw throw
     try_catch onProgress report_progress prepare_collection
     indexing_completed indexing_failed hasIndex clearIndex
     startBackgroundIndexing_begin validateCollectionCreation
     clear_for_reindex begin_indexing];
  repeat progress
    cbn [fst snd world console snapshot saved jobs collections
         set_snapshot save_snapshot set_collections set_synchronizers
         set_jobs set_indexingStats track add_extensions
         add_ignore_patterns].

(** The same for the stretches of a call. *)
Ltac run_call :=
  cbv beta iota zeta delta
    [mbind M_bind mret M_ret modify gets print when may_throw throw
     try_catch hasIndex clearIndex index_error index_resume index_finish
     startBackgroundIndexing_begin validateCollectionCreation
     clear_for_reindex begin_indexing];
  repeat progress
    cbn [fst snd world console snapshot saved jobs collections
         set_snapshot save_snapshot set_collections set_synchronizers
         set_jobs set_indexingStats track add_extensions
         add_ignore_patterns].

Section Facts.
Variable COLLECTION_LIMIT_MESSAGE : string.
Variable ensureAbsolutePath : string -> string.
Variable Context : Type.
Variable indexCodebase : Context -> string -> IndexRun.
Variable this_context : Context.

(** The percentage of the last report, [initial] when there was none. *)
Definition last_reported (reports : list (Q * Z)) (initial : option Q)
  : option Q :=
  fold_left (fun _ report => Some (fst report)) reports initial.

Lemma progress_of_indexing (path : string) (percentage : Q)
    (snap : gmap string CodebaseInfo) :
  SnapshotManager.getIndexingProgress
    (SnapshotManager.setCodebaseIndexing path percentage snap) path
  = Some percentage.
Proof.
  unfold SnapshotManager.getIndexingProgress,
    SnapshotManager.setCodebaseIndexing.
  now rewrite lookup_insert_eq.
Qed.

Lemma progress_loop_spec (absolutePath : string) (reports : list (Q * Z)) :
  forall (lastSaveTime : Z) (st : St),
  exists (t : Z) (st' : St),
    progress_loop absolutePath lastSaveTime reports st = (inr t, st') /\
    console st' = console st /\
    SnapshotManager.getIndexingProgress (snapshot (world st')) absolutePath
    = last_reported reports
        (SnapshotManager.getIndexingProgress (snapshot (world st))
           absolutePath).
Proof.
  induction reports as [|[percentage currentTime] rest IH];
    intros lastSaveTime st.
  - exists lastSaveTime, st. repeat split.
  - cbn [progress_loop]. unfold mbind at 1, M_bind at 1. run.
    destruct (currentTime - lastSaveTime >=? 2000);
      match goal with |- context [progress_loop _ ?t _ ?s] =>
        destruct (IH t s) as (t' & st' & Hrun & Hconsole & Hlast) end;
      exists t', st'; (split; [exact Hrun|]); (split; [exact Hconsole|]);
      rewrite Hlast; cbn [world snapshot set_snapshot save_snapshot];
      now rewrite progress_of_indexing.
Qed.

(** The first exception of a task: from its preparation or from
    [indexCodebase]. *)
Definition first_fault (prep : Preparation) (run : IndexRun) : option Exn :=
  match setup_fault prep, collection_fault prep, outcome run with
  | Some e, _, _ => Some e
  | None, Some e, _ => Some e
  | None, None, inl e => Some e
  | None, None, inr _ => None
  end.

(** The progress reports made before it. *)
Definition reports_made (prep : Preparation) (run : IndexRun)
  : list (Q * Z) :=
  match setup_fault prep, collection_fault prep with
  | None, None => progress run
  | _, _ => []
  end.

(** C6: whatever exception a background task meets, in its preparation
    or thrown by [indexCodebase] after any number of progress reports,
    the task ends without throwing; the path is then [indexfailed] with
    the text of the exception ([error.message], or [String(error)] when
    that is empty) and the percentage of the last progress report (the
    percentage the path was indexing at when none was made), and this
    snapshot is the one saved. *)
Theorem background_failure_recorded (prep : Preparation)
    (absolutePath : string) (forceReindex : bool) (splitterType : string)
    (error : Exn) (st : St) :
  first_fault prep (indexCodebase this_context absolutePath) = Some error ->
  exists st',
    startBackgroundIndexing Context indexCodebase this_context prep
      absolutePath forceReindex splitterType st = (inr tt, st') /\
    snapshot (world st') !! absolutePath
    = Some (IndexFailed (error_text error)
              (last_reported
                 (reports_made prep (indexCodebase this_context absolutePath))
                 (SnapshotManager.getIndexingProgress (snapshot (world st))
                    absolutePath))) /\
    saved (world st') = snapshot (world st').
Proof.
  unfold first_fault, reports_made, startBackgroundIndexing. cbv zeta.
  set (r := indexCodebase this_context absolutePath).
  intros Hfault. unfold try_catch.
  destruct (negb (String.eqb splitterType "ast"));
    (destruct (setup_fault prep) as [e1|];
      [injection Hfault as ->; run; eexists; split; [reflexivity|];
       split; [apply lookup_insert_eq | reflexivity] |]);
    (destruct (collection_fault prep) as [e2|];
      [injection Hfault as ->; run; eexists; split; [reflexivity|];
       split; [apply lookup_insert_eq | reflexivity] |]);
    (destruct (outcome r) as [e3|stats]; [|discriminate]);
    injection Hfault as ->; run;
    match goal with |- context [progress_loop _ ?t _ ?s] =>
      destruct (progress_loop_spec absolutePath (progress r) t s)
        as (t' & st1 & Hrun & _ & Hlast) end;
    rewrite Hrun; run;
    (eexists; split; [reflexivity|]);
    (split; [|reflexivity]);
    cbn [world snapshot set_snapshot save_snapshot];
    unfold SnapshotManager.setCodebaseIndexFailed;
    rewrite lookup_insert_eq, Hlast; reflexivity.
Qed.

Lemma includes_spec (xs : list string) (x : string) :
  includes xs x = true <-> In x xs.
Proof.
  unfold includes. rewrite existsb_exists. split.
  - intros (y & Hy & E). apply String.eqb_eq in E. now subst.
  - intros H. exists x. split; [exact H | apply String.eqb_refl].
Qed.

Lemma paths_where_spec (keep : CodebaseInfo -> bool)
    (snap : gmap string CodebaseInfo) (path : string) :
  includes (SnapshotManager.paths_where keep snap) path = true <->
  exists info, snap !! path = Some info /\ keep info = true.
Proof.
  rewrite includes_spec. unfold SnapshotManager.paths_where.
  rewrite in_map_iff. split.
  - intros ([p info] & <- & Hin). apply filter_In in Hin as [Hin Hkeep].
    apply list_elem_of_In, elem_of_map_to_list in Hin. eauto.
  - intros (info & Hlook & Hkeep). exists (path, info).
    split; [reflexivity|]. apply filter_In. split; [|exact Hkeep].
    now apply list_elem_of_In, elem_of_map_to_list.
Qed.

Lemma includes_indexing (snap : gmap string CodebaseInfo) (path : string) :
  includes (SnapshotManager.getIndexingCodebases snap) path = true <->
  SnapshotManager.getCodebaseStatus snap path = indexing.
Proof.
  unfold SnapshotManager.getIndexingCodebases,
    SnapshotManager.getCodebaseStatus.
  rewrite paths_where_spec. split.
  - intros (info & -> & Hkeep). now destruct info.
  - destruct (snap !! path) as [[]|]; try discriminate. eauto.
Qed.

Lemma includes_indexed (snap : gmap string CodebaseInfo) (path : string) :
  includes (SnapshotManager.getIndexedCodebases snap) path = true <->
  SnapshotManager.getCodebaseStatus snap path = indexed.
Proof.
  unfold SnapshotManager.getIndexedCodebases,
    SnapshotManager.getCodebaseStatus.
  rewrite paths_where_spec. split.
  - intros (info & -> & Hkeep). now destruct info.
  - destruct (snap !! path) as [[]|]; try discriminate. eauto.
Qed.

(** A request for a path that is being indexed is answered with an
    error and leaves everything as it was. *)
Lemma indexing_guard (env : Backend) (args : IndexArgs) (st : St) :
  SnapshotManager.getCodebaseStatus (snapshot (world st))
    (ensureAbsolutePath (arg_path args)) = indexing ->
  exists response,
    handleIndexCodebase COLLECTION_LIMIT_MESSAGE ensureAbsolutePath
      env args st = (inr response, st) /\
    isError response = true.
Proof.
  intros Hst%includes_indexing. unfold handleIndexCodebase. cbv zeta.
  unfold try_catch.
  destruct (negb (String.eqb (splitter_of args) "ast")
            && negb (String.eqb (splitter_of args) "langchain"));
    [run; eauto|].
  destruct (negb (existsSync env _)); [run; eauto|].
  destruct (negb (isDirectory env _)); [run; eauto|].
  run. rewrite Hst. eauto.
Qed.

(** *** What a request does to the snapshot and the tasks *)

(** The entries of a snapshot but for [path], whose entry is kept or,
    when it was indexed, removed. *)
Definition stable (path : string) (snap snap' : gmap string CodebaseInfo)
  : Prop :=
  (forall p, p <> path -> snap' !! p = snap !! p) /\
  (snap' !! path = snap !! path \/
   (snap' !! path = None /\
    SnapshotManager.getCodebaseStatus snap path = indexed)).

Lemma stable_refl (path : string) (snap : gmap string CodebaseInfo) :
  stable path snap snap.
Proof. split; [reflexivity | now left]. Qed.

Lemma stable_remove (path : string) (snap : gmap string CodebaseInfo) :
  stable path snap (SnapshotManager.removeIndexedCodebase path snap).
Proof.
  unfold SnapshotManager.removeIndexedCodebase.
  destruct (snap !! path) as [[]|] eqn:E; try apply stable_refl.
  split.
  - intros p Hp. now apply lookup_delete_ne.
  - right. split; [apply lookup_delete_eq|].
    unfold SnapshotManager.getCodebaseStatus. now rewrite E.
Qed.

(** *** One task for a path *)

(** The pending tasks have different paths, each being indexed. *)
Definition jobs_ok (w : World) : Prop :=
  List.NoDup (map job_path (jobs w)) /\
  forall j, In j (jobs w) ->
            SnapshotManager.getCodebaseStatus (snapshot w) (job_path j)
            = indexing.

Lemma status_lookup (snap snap' : gmap string CodebaseInfo) (p : string) :
  snap' !! p = snap !! p ->
  SnapshotManager.getCodebaseStatus snap' p
  = SnapshotManager.getCodebaseStatus snap p.
Proof. unfold SnapshotManager.getCodebaseStatus. now intros ->. Qed.

Lemma stable_indexing (path p : string)
    (snap snap' : gmap string CodebaseInfo) :
  stable path snap snap' ->
  SnapshotManager.getCodebaseStatus snap p = indexing ->
  SnapshotManager.getCodebaseStatus snap' p = indexing.
Proof.
  intros [Hother Hpath] Hp. destruct (String.eqb_spec p path) as [-> | Hne].
  - destruct Hpath as [E | [_ E]]; [|congruence].
    now rewrite (status_lookup _ _ _ E).
  - now rewrite (status_lookup _ _ _ (Hother p Hne)).
Qed.

Lemma NoDup_filter_map {A B} (f : A -> B) (keep : A -> bool)
    (l : list A) :
  List.NoDup (map f l) -> List.NoDup (map f (List.filter keep l)).
Proof.
  induction l as [|x l IH]; cbn; intros H; [constructor|].
  inversion H as [|? ? Hnotin Hrest]; subst.
  destruct (keep x); cbn; [|now apply IH]. constructor; [|now apply IH].
  intros Hin. apply Hnotin. apply in_map_iff in Hin as (y & <- & Hy).
  apply filter_In in Hy as [Hy _]. now apply in_map.
Qed.

Lemma dropped_jobs_ok (j : Job) (info : CodebaseInfo) (w : World)
    (saved' : gmap string CodebaseInfo) (stats' : option (N * N)) :
  jobs_ok w ->
  List.NoDup
    (map job_path
       (List.filter (fun j' => negb (String.eqb (job_path j') (job_path j)))
                    (jobs w))) /\
  forall j', In j' (List.filter
                      (fun j' => negb (String.eqb (job_path j')
                                                  (job_path j)))
                      (jobs w)) ->
    SnapshotManager.getCodebaseStatus (<[job_path j := info]> (snapshot w))
      (job_path j') = indexing.
Proof.
  intros [Hnodup Hidx]. split; [now apply NoDup_filter_map|].
  intros j' Hin. apply filter_In in Hin as [Hin Hne].
  apply negb_true_iff, String.eqb_neq in Hne.
  rewrite (status_lookup (snapshot w)); [now apply Hidx|].
  apply lookup_insert_ne. congruence.
Qed.

Lemma job_event_keeps_jobs_ok (j : Job) (ev : JobEvent) (w : World) :
  jobs_ok w -> In j (jobs w) -> jobs_ok (exec (job_event j ev) w).
Proof.
  intros Hok Hin. pose proof Hok as [Hnodup Hidx]. unfold exec.
  destruct ev as [|percentage save|stats|error]; cbn [job_event]; run.
  - exact Hok.
  - assert (jobs_ok (set_snapshot
                       (SnapshotManager.setCodebaseIndexing (job_path j)
                          percentage) w)) as Hok'.
    { split; [exact Hnodup|]. cbn. intros j' Hj'.
      unfold SnapshotManager.setCodebaseIndexing.
      destruct (String.eqb_spec (job_path j') (job_path j)) as [-> | Hne].
      - unfold SnapshotManager.getCodebaseStatus.
        now rewrite lookup_insert_eq.
      - rewrite (status_lookup (snapshot w)); [now apply Hidx|].
        apply lookup_insert_ne. congruence. }
    destruct save; run; exact Hok'.
  - unfold jobs_ok, drop_job. cbn.
    now apply (dropped_jobs_ok j (Indexed stats) w (snapshot w) None).
  - unfold jobs_ok, drop_job. cbn.
    now apply (dropped_jobs_ok j (IndexFailed _ _) w (snapshot w) None).
Qed.

(** *** The stretches of a request *)

(** Run without interruption, the stretches of a call are
    [handleIndexCodebase]. *)
Lemma index_uninterrupted (env : Backend) (args : IndexArgs) (st : St) :
  (r ← index_arrive ensureAbsolutePath env args;
   index_finish COLLECTION_LIMIT_MESSAGE ensureAbsolutePath 3 env args r) st
  = (response ← handleIndexCodebase COLLECTION_LIMIT_MESSAGE
                  ensureAbsolutePath env args;
     mret (inl response)) st.
Proof.
  unfold index_arrive, handleIndexCodebase. cbv zeta.
  set (absolutePath := ensureAbsolutePath (arg_path args)).
  destruct (negb (String.eqb (splitter_of args) "ast")
            && negb (String.eqb (splitter_of args) "langchain"));
    [reflexivity|].
  destruct (negb (existsSync env absolutePath)); [reflexivity|].
  destruct (negb (isDirectory env absolutePath)); [reflexivity|].
  run_call.
  destruct (includes (SnapshotManager.getIndexingCodebases _) absolutePath);
    [reflexivity|].
  destruct (arg_force args); cbn [negb andb].
  - destruct (includes (SnapshotManager.getIndexedCodebases _) absolutePath);
      run_call; fold absolutePath;
      (destruct (hasIndex_fault env); [reflexivity|]); run_call;
      (destruct (bool_decide _); run_call;
       [destruct (clearIndex_fault env); [reflexivity|]; run_call|]);
      (destruct (checkCollectionLimit env) as [e|[]];
       [reflexivity| |reflexivity]);
      run_call;
      destruct (0 <? length (arg_customExtensions args))%nat;
      destruct (0 <? length (arg_ignorePatterns args))%nat;
      destruct (negb (String.eqb (splitter_of args) "ast")); reflexivity.
  - destruct (includes (SnapshotManager.getIndexedCodebases _) absolutePath);
      [reflexivity|]. run_call. fold absolutePath.
    destruct (checkCollectionLimit env) as [e|[]]; [reflexivity| |reflexivity].
    run_call.
    destruct (0 <? length (arg_customExtensions args))%nat;
      destruct (0 <? length (arg_ignorePatterns args))%nat;
      destruct (negb (String.eqb (splitter_of args) "ast")); reflexivity.
Qed.

(** The path a suspended call is for. *)
Definition call_path (c : Call) : string :=
  ensureAbsolutePath (arg_path (call_args c)).

(** No two suspended calls are for the same path. *)
Definition calls_apart (calls : list Call) : Prop :=
  List.NoDup (map call_path calls).

(** No suspended call is for a path that is being indexed. *)
Definition calls_clear (w : World) (calls : list Call) : Prop :=
  forall c, In c calls ->
            SnapshotManager.getCodebaseStatus (snapshot w) (call_path c)
            <> indexing.

(** What the first stretch leaves: the tasks as they were and the
    snapshot stable; and the call is suspended only when its path is not
    being indexed. *)
Lemma index_arrive_effect (env : Backend) (args : IndexArgs) (st : St) :
  let absolutePath := ensureAbsolutePath (arg_path args) in
  exists r st',
    index_arrive ensureAbsolutePath env args st = (inr r, st') /\
    jobs (world st') = jobs (world st) /\
    stable absolutePath (snapshot (world st)) (snapshot (world st')) /\
    (forall at_, r = inr at_ ->
       SnapshotManager.getCodebaseStatus (snapshot (world st)) absolutePath
       <> indexing).
Proof.
  intros absolutePath. unfold index_arrive. cbv zeta. fold absolutePath.
  assert (forall response,
            exists (r : Response + Await) st',
              (inr (inl response) : Exn + (Response + Await), st)
              = (inr r, st') /\
              jobs (world st') = jobs (world st) /\
              stable absolutePath (snapshot (world st))
                     (snapshot (world st')) /\
              (forall at_, r = inr at_ ->
                 SnapshotManager.getCodebaseStatus (snapshot (world st))
                   absolutePath <> indexing)) as Hresponse.
  { intros response. do 2 eexists. split; [reflexivity|].
    split; [reflexivity|]. split; [apply stable_refl | discriminate]. }
  destruct (negb (String.eqb (splitter_of args) "ast")
            && negb (String.eqb (splitter_of args) "langchain"));
    [apply Hresponse|].
  destruct (negb (existsSync env absolutePath)); [apply Hresponse|].
  destruct (negb (isDirectory env absolutePath)); [apply Hresponse|].
  run_call.
  destruct (includes (SnapshotManager.getIndexingCodebases _) absolutePath)
    eqn:Hguard; [apply Hresponse|].
  assert (SnapshotManager.getCodebaseStatus (snapshot (world st))
            absolutePath <> indexing) as Hnot.
  { intros H%includes_indexing. congruence. }
  destruct (negb (arg_force args)
            && includes (SnapshotManager.getIndexedCodebases _)
                 absolutePath); [apply Hresponse|].
  destruct (arg_force args).
  - destruct (includes (SnapshotManager.getIndexedCodebases _)
                absolutePath); run_call;
      do 2 eexists; (split; [reflexivity|]); (split; [reflexivity|]);
      (split; [first [apply stable_remove | apply stable_refl]|]);
      intros; exact Hnot.
  - do 2 eexists. split; [reflexivity|]. split; [reflexivity|].
    split; [apply stable_refl|]. intros; exact Hnot.
Qed.

(** What a later stretch leaves: the snapshot and the tasks as they
    were, or the path set to indexing at 0 and one more task, for it. *)
Lemma index_resume_effect (env : Backend) (args : IndexArgs) (at_ : Await)
    (st : St) :
  let absolutePath := ensureAbsolutePath (arg_path args) in
  exists r st',
    index_resume COLLECTION_LIMIT_MESSAGE ensureAbsolutePath env args at_ st
    = (inr r, st') /\
    ((jobs (world st') = jobs (world st) /\
      snapshot (world st') = snapshot (world st)) \/
     (still_pending env args (inr r) = [] /\
      exists j,
        job_path j = absolutePath /\
        jobs (world st') = jobs (world st) ++ [j] /\
        snapshot (world st')
        = <[absolutePath := Indexing 0]> (snapshot (world st)))).
Proof.
  intros absolutePath. unfold index_resume. cbv zeta. fold absolutePath.
  destruct at_; run_call.
  - destruct (hasIndex_fault env); run_call;
      do 2 eexists; (split; [reflexivity|]); left; now split.
  - destruct (clearIndex_fault env); run_call;
      do 2 eexists; (split; [reflexivity|]); left; now split.
  - destruct (checkCollectionLimit env) as [e|[]]; run_call;
      try (do 2 eexists; (split; [reflexivity|]); left; now split).
    destruct (0 <? length (arg_customExtensions args))%nat;
      destruct (0 <? length (arg_ignorePatterns args))%nat;
      destruct (negb (String.eqb (splitter_of args) "ast")); run_call;
      (do 2 eexists; split; [reflexivity|]); right;
      (split; [reflexivity|]); eexists;
      (split; [|split; [reflexivity|reflexivity]]); reflexivity.
Qed.

Lemma stable_not_indexing (path p : string)
    (snap snap' : gmap string CodebaseInfo) :
  stable path snap snap' ->
  SnapshotManager.getCodebaseStatus snap p <> indexing ->
  SnapshotManager.getCodebaseStatus snap' p <> indexing.
Proof.
  intros [Hother Hpath] Hp. destruct (String.eqb_spec p path) as [-> | Hne].
  - destruct Hpath as [E | [E _]].
    + now rewrite (status_lookup _ _ _ E).
    + unfold SnapshotManager.getCodebaseStatus. now rewrite E.
  - now rewrite (status_lookup _ _ _ (Hother p Hne)).
Qed.

Lemma in_still_pending (env : Backend) (args : IndexArgs)
    (r : Exn + (Response + Await)) (c : Call) :
  In c (still_pending env args r) ->
  call_path c = ensureAbsolutePath (arg_path args) /\
  exists at_, r = inr (inr at_).
Proof using Type.
  destruct r as [e|[response|at_]]; cbn [still_pending In]; intros Hc;
    try contradiction.
  destruct Hc as [<- | []]. split; [reflexivity|]. now exists at_.
Qed.

(** A request that arrives leaves the tasks one to a path, and no
    suspended call, itself included, is for a path being indexed. *)
Lemma arrive_keeps_jobs_ok (env : Backend) (args : IndexArgs) (w : World)
    (calls : list Call) :
  let m := index_arrive ensureAbsolutePath env args in
  jobs_ok w -> calls_clear w calls ->
  jobs_ok (exec m w) /\
  calls_clear (exec m w) (calls ++ still_pending env args (returned m w)).
Proof using Type.
  intros m [Hnodup Hidx] Hclear. unfold exec, returned. subst m.
  destruct (index_arrive_effect env args {| world := w; console := [] |})
    as (r & st' & -> & Hjobs & Hstable & Hpassed).
  cbn [fst snd world] in *. split.
  - split; rewrite Hjobs; [exact Hnodup|].
    intros j Hj. eapply stable_indexing; eauto.
  - intros c Hc. apply (stable_not_indexing _ _ _ _ Hstable).
    apply in_app_or in Hc as [Hc | Hc]; [now apply Hclear|].
    apply in_still_pending in Hc as [-> (at_ & [= ->])].
    now apply (Hpassed at_).
Qed.

(** So does a suspended call that goes on, when no other suspended call
    is for its path. *)
Lemma resume_keeps_jobs_ok (c : Call) (w : World)
    (before after : list Call) :
  let m := index_resume COLLECTION_LIMIT_MESSAGE ensureAbsolutePath
             (call_env c) (call_args c) (call_at c) in
  jobs_ok w -> calls_clear w (before ++ c :: after) ->
  calls_apart (before ++ c :: after) ->
  jobs_ok (exec m w) /\
  calls_clear (exec m w)
    (before ++ still_pending (call_env c) (call_args c) (returned m w)
     ++ after).
Proof using Type.
  intros m [Hnodup Hidx] Hclear Hapart. unfold exec, returned. subst m.
  destruct (index_resume_effect (call_env c) (call_args c) (call_at c)
              {| world := w; console := [] |})
    as (r & st' & -> & Heffect).
  cbn [fst snd world] in *.
  destruct Heffect as [[Hjobs Hsnap] | (Hdone & j & Hj & Hjobs & Hsnap)].
  - split.
    + split; rewrite Hjobs; [exact Hnodup|]. rewrite Hsnap. exact Hidx.
    + intros c' Hc'. rewrite Hsnap.
      apply in_app_or in Hc' as [Hc' | Hc'];
        [apply Hclear, in_or_app; now left|].
      apply in_app_or in Hc' as [Hc' | Hc'].
      * apply in_still_pending in Hc' as [Hpath _].
        unfold call_path in Hpath |- *.
        assert (In c (before ++ c :: after)) as Hc
          by (apply in_or_app; right; now left).
        specialize (Hclear c Hc). unfold call_path in Hclear.
        now rewrite Hpath.
      * apply Hclear, in_or_app. right. now right.
  - rewrite Hdone. cbn [app].
    assert (SnapshotManager.getCodebaseStatus (snapshot w) (call_path c)
            <> indexing) as Hc
      by (apply Hclear, in_or_app; right; now left).
    fold (call_path c) in Hj, Hsnap. split.
    + split; rewrite Hjobs.
      * rewrite map_app. cbn.
        apply (Permutation_NoDup
                 (l := job_path j :: map job_path (jobs w)));
          [apply Permutation_cons_append|].
        constructor; [|exact Hnodup].
        intros Hin. apply in_map_iff in Hin as (j' & Hpath & Hin).
        apply Hidx in Hin. congruence.
      * rewrite Hsnap. intros j' Hin.
        apply in_app_or in Hin as [Hin | [<- | []]].
        -- destruct (String.eqb_spec (job_path j') (call_path c))
             as [E | Hne]; [apply Hidx in Hin; congruence|].
           rewrite (status_lookup (snapshot w))
             by now apply lookup_insert_ne.
           now apply Hidx.
        -- rewrite Hj. unfold SnapshotManager.getCodebaseStatus.
           now rewrite lookup_insert_eq.
    + intros c' Hc'. rewrite Hsnap.
      assert (call_path c' <> call_path c) as Hne.
      { unfold calls_apart in Hapart. rewrite map_app in Hapart.
        cbn [map] in Hapart. apply NoDup_remove_2 in Hapart.
        intros E. apply Hapart. rewrite <- E, <- map_app.
        now apply in_map. }
      rewrite (status_lookup (snapshot w))
        by (apply lookup_insert_ne; congruence).
      apply Hclear. apply in_app_or in Hc' as [Hc' | Hc'];
        apply in_or_app; [now left | right; now right].
Qed.

(** A stretch of a task touches the snapshot at the path of the task
    only. *)
Lemma job_event_frame (j : Job) (ev : JobEvent) (w : World) (p : string) :
  p <> job_path j ->
  snapshot (exec (job_event j ev) w) !! p = snapshot w !! p.
Proof using Type.
  intros Hne. unfold exec.
  destruct ev as [|percentage save|stats|error]; cbn [job_event]; run.
  - reflexivity.
  - destruct save; run; now apply lookup_insert_ne.
  - unfold drop_job. cbn. now apply lookup_insert_ne.
  - unfold drop_job. cbn. now apply lookup_insert_ne.
Qed.

Lemma job_event_keeps_calls_clear (j : Job) (ev : JobEvent) (w : World)
    (calls : list Call) :
  jobs_ok w -> In j (jobs w) -> calls_clear w calls ->
  calls_clear (exec (job_event j ev) w) calls.
Proof using Type.
  intros [_ Hidx] Hj Hclear c Hc.
  rewrite (status_lookup (snapshot w)); [now apply Hclear|].
  apply job_event_frame. intros E. apply (Hclear c Hc).
  rewrite E. now apply Hidx.
Qed.

(** A run in which no request arrives for a path while a call for that
    path is suspended. *)
Inductive reachable_apart (s0 : World * list Call)
  : World * list Call -> Prop :=
| apart_start : reachable_apart s0 s0
| apart_step (s s' : World * list Call) :
    reachable_apart s0 s ->
    step COLLECTION_LIMIT_MESSAGE ensureAbsolutePath s s' ->
    calls_apart (snd s') -> reachable_apart s0 s'.

(** In such a run the guard does what it is there for: no two pending
    tasks have the same path, and the path of each is being indexed. *)
Lemma reachable_apart_jobs_ok (w0 w : World) (calls : list Call) :
  jobs w0 = [] -> reachable_apart (w0, []) (w, calls) -> jobs_ok w.
Proof using Type.
  intros Hstart Hrun.
  enough (jobs_ok w /\ calls_clear w calls /\ calls_apart calls) as [H _]
    by exact H.
  remember (w0, []) as s0 eqn:E0. remember (w, calls) as s eqn:E.
  revert w calls E. induction Hrun as [|s s' Hrun IH Hstep Hapart];
    intros w calls E.
  - subst s0. injection E as <- <-. split; [|split].
    + unfold jobs_ok. rewrite Hstart. split; [constructor | intros j []].
    + intros c [].
    + constructor.
  - subst s'. cbn [snd] in Hapart. split; [|split; [|exact Hapart]];
      destruct s as [w1 calls1];
      destruct (IH w1 calls1 eq_refl) as (Hok & Hclear & Hapart1);
      inversion Hstep as [env args w' calls' | c w' before after m
                         | j ev w' calls' Hj]; subst.
    + now apply (arrive_keeps_jobs_ok env args w1 calls1).
    + now apply (resume_keeps_jobs_ok c w1 before after).
    + now apply job_event_keeps_jobs_ok.
    + now apply (arrive_keeps_jobs_ok env args w1 calls1).
    + now apply (resume_keeps_jobs_ok c w1 before after).
    + now apply job_event_keeps_calls_clear.
Qed.

(** *** A request that reaches the validation *)

(** The world after the force branch when the database answers: the
    indexed entry of the path removed, its collection dropped. *)
Definition cleared (absolutePath : string) (w : World) : World :=
  set_collections (fun c => c ∖ {[absolutePath]})
    (set_snapshot (SnapshotManager.removeIndexedCodebase absolutePath) w).

Lemma remove_not_indexed (path : string) (snap : gmap string CodebaseInfo) :
  includes (SnapshotManager.getIndexedCodebases snap) path = false ->
  SnapshotManager.removeIndexedCodebase path snap = snap.
Proof.
  intros H. unfold SnapshotManager.removeIndexedCodebase.
  destruct (snap !! path) as [[]|] eqn:E; try reflexivity.
  assert (includes (SnapshotManager.getIndexedCodebases snap) path = true)
    as H'; [|congruence].
  apply includes_indexed. unfold SnapshotManager.getCodebaseStatus.
  now rewrite E.
Qed.

Lemma clear_for_reindex_ok (env : Backend) (absolutePath : string)
    (st : St) :
  hasIndex_fault env = None -> clearIndex_fault env = None ->
  clear_for_reindex env absolutePath st
  = (inr tt, {| world := cleared absolutePath (world st);
                console := console st |}).
Proof using Type.
  intros H1 H2.
  destruct st as [[snap sv cols syn ext ign tr stats js] out].
  run. rewrite H1. unfold cleared. cbn.
  destruct (includes _ absolutePath) eqn:Hinc; run;
    destruct (bool_decide_reflect (absolutePath ∈ cols)) as [Hin | Hout];
    run; rewrite ?H2; unfold set_collections, set_snapshot; cbn;
    rewrite ?(remove_not_indexed _ _ Hinc);
    repeat f_equal; symmetry; apply difference_disjoint_L;
    now apply disjoint_singleton_r.
Qed.

(** The request passes the checks that come before the validation. *)
Definition admissible (env : Backend) (args : IndexArgs) (w : World)
  : Prop :=
  let absolutePath := ensureAbsolutePath (arg_path args) in
  (splitter_of args = "ast" \/ splitter_of args = "langchain") /\
  existsSync env absolutePath = true /\
  isDirectory env absolutePath = true /\
  SnapshotManager.getCodebaseStatus (snapshot w) absolutePath <> indexing /\
  (arg_force args = true \/
   SnapshotManager.getCodebaseStatus (snapshot w) absolutePath <> indexed) /\
  hasIndex_fault env = None /\ clearIndex_fault env = None.

Lemma not_true_false (b : bool) : b <> true -> b = false.
Proof. now destruct b. Qed.

Lemma handleIndexCodebase_admissible (env : Backend) (args : IndexArgs)
    (st : St) :
  admissible env args (world st) ->
  let absolutePath := ensureAbsolutePath (arg_path args) in
  let st1 := {| world := if arg_force args
                         then cleared absolutePath (world st)
                         else world st;
                console := console st |} in
  handleIndexCodebase COLLECTION_LIMIT_MESSAGE ensureAbsolutePath env args st
  = match checkCollectionLimit env with
    | inr true =>
        begin_indexing (arg_path args) absolutePath (arg_force args)
          (splitter_of args) (arg_customExtensions args)
          (arg_ignorePatterns args) st1
    | inr false =>
        (inr {| text := COLLECTION_LIMIT_MESSAGE; isError := true |},
         {| world := world st1;
            console := console st ++ [error_limit_validation absolutePath] |})
    | inl e =>
        (inr {| text := "Error validating collection creation: "
                        +:+ error_text e;
                isError := true |},
         {| world := world st1;
            console := console st ++ [error_validation_failed e] |})
    end.
Proof.
  intros (Hsplit & Hexists & Hdir & Hidx & Hforce & Hf1 & Hf2).
  cbv zeta in *. unfold handleIndexCodebase. cbv zeta.
  set (absolutePath := ensureAbsolutePath (arg_path args)) in *.
  assert (negb (String.eqb (splitter_of args) "ast")
          && negb (String.eqb (splitter_of args) "langchain") = false)
    as -> by (destruct Hsplit as [-> | ->]; reflexivity).
  rewrite Hexists, Hdir. cbn [negb]. unfold try_catch.
  unfold mbind at 1, M_bind at 1. unfold gets at 1. cbv beta iota.
  rewrite (not_true_false _ (fun H => Hidx (proj1 (includes_indexing _ _) H))).
  unfold mbind at 1, M_bind at 1. unfold gets at 1. cbv beta iota.
  assert (negb (arg_force args)
          && includes (SnapshotManager.getIndexedCodebases
                         (snapshot (world st))) absolutePath = false) as ->.
  { destruct Hforce as [-> | Hn]; [reflexivity|].
    rewrite (not_true_false _
               (fun H => Hn (proj1 (includes_indexed _ _) H))).
    apply andb_false_r. }
  unfold mbind at 1, M_bind at 1.
  assert (when (arg_force args) (clear_for_reindex env absolutePath) st
          = (inr tt, {| world := if arg_force args
                                 then cleared absolutePath (world st)
                                 else world st;
                        console := console st |})) as ->.
  { destruct (arg_force args); [now apply clear_for_reindex_ok|].
    run. now destruct st. }
  run. destruct (checkCollectionLimit env) as [e|[]]; run;
    try reflexivity.
  destruct (0 <? length (arg_customExtensions args))%nat;
    destruct (0 <? length (arg_ignorePatterns args))%nat;
    destruct (negb (String.eqb (splitter_of args) "ast")); reflexivity.
Qed.

(** C3 (amended): when [checkCollectionLimit] answers that no
    collection can be created, a request that passed the earlier checks
    gets the collection-limit message as its response, and indexing does
    not begin: no task is started, the path is not set to indexing,
    nothing is saved or tracked and no collection is created.  Without
    [force] the world is as before the request; with [force] it differs
    by the clean-up made before the validation: the indexed entry of the
    path removed from the snapshot and its collection dropped. *)
Theorem collection_limit_refusal (env : Backend) (args : IndexArgs)
    (st : St) :
  admissible env args (world st) ->
  checkCollectionLimit env = inr false ->
  let absolutePath := ensureAbsolutePath (arg_path args) in
  exists response st',
    handleIndexCodebase COLLECTION_LIMIT_MESSAGE ensureAbsolutePath
      env args st = (inr response, st') /\
    text response = COLLECTION_LIMIT_MESSAGE /\
    world st' = (if arg_force args then cleared absolutePath (world st)
                 else world st) /\
    jobs (world st') = jobs (world st) /\
    saved (world st') = saved (world st) /\
    tracked (world st') = tracked (world st) /\
    collections (world st') ⊆ collections (world st) /\
    SnapshotManager.getCodebaseStatus (snapshot (world st')) absolutePath
    <> indexing.
Proof using Type.
  intros Hadm Hcheck absolutePath.
  pose proof Hadm as (_ & _ & _ & Hidx & _).
  rewrite (handleIndexCodebase_admissible env args st Hadm), Hcheck.
  fold absolutePath in Hidx |- *.
  do 2 eexists. split; [reflexivity|]. split; [reflexivity|].
  split; [reflexivity|]. cbn [world].
  destruct (arg_force args); cbn;
    (split; [reflexivity|]); (split; [reflexivity|]);
    (split; [reflexivity|]);
    (split; [first [reflexivity
                   | apply subseteq_difference_l; reflexivity]|]);
    [|exact Hidx].
  intros H. apply Hidx. revert H.
  unfold SnapshotManager.getCodebaseStatus,
    SnapshotManager.removeIndexedCodebase.
  destruct (snapshot (world st) !! absolutePath) as [[]|] eqn:E;
    rewrite ?E, ?lookup_delete_eq; congruence.
Qed.

(** *** The splitter a task indexes with *)

(** The world and [lastSaveTime] after a series of progress reports. *)
Fixpoint after_reports (absolutePath : string) (lastSaveTime : Z)
    (reports : list (Q * Z)) (w : World) : Z * World :=
  match reports with
  | [] => (lastSaveTime, w)
  | (percentage, currentTime) :: rest =>
      let w1 := set_snapshot
                  (SnapshotManager.setCodebaseIndexing absolutePath
                     percentage) w in
      if currentTime - lastSaveTime >=? 2000
      then after_reports absolutePath currentTime rest (save_snapshot w1)
      else after_reports absolutePath lastSaveTime rest w1
  end.

Lemma progress_loop_eq (absolutePath : string) (reports : list (Q * Z)) :
  forall (lastSaveTime : Z) (st : St),
    progress_loop absolutePath lastSaveTime reports st
    = (inr (fst (after_reports absolutePath lastSaveTime reports
                   (world st))),
       {| world := snd (after_reports absolutePath lastSaveTime reports
                          (world st));
          console := console st |}).
Proof.
  induction reports as [|[percentage currentTime] rest IH];
    intros lastSaveTime st.
  - now destruct st.
  - cbn [progress_loop after_reports].
    unfold mbind at 1, M_bind at 1. run.
    destruct (currentTime - lastSaveTime >=? 2000); now rewrite IH.
Qed.





End Facts.
(** ** The tool handlers: searching all codebases *)

Record SearchResult := {
  relativePath : string;
  startLine : Z;
  endLine : Z;
  content : string;
  language : string;
  result_score : option Q
}.

(** An entry of [allResults]. *)
Record Item := {
  result : SearchResult;
  codebasePath : string;
  codebaseName : string;
  score : Q;
  isIndexing : bool
}.

Definition quote : string := String "034" EmptyString.

Section SearchAll.

(** From the core package, [path] and the formatting of one result
    ([truncateContent], [toFixed]), none of them among the sources. *)
Variable semanticSearch :
  string -> string -> N -> option string -> Exn + list SearchResult.
Variable basename : string -> string.
Variable formatResult : nat -> Item -> string.

(** [result.score || 0] *)
Definition score_or_zero (r : SearchResult) : Q :=
  match result_score r with
  | Some s => s
  | None => 0%Q
  end.

Definition item_of (path : string) (indexingNow : bool) (r : SearchResult)
  : Item :=
  {| result := r; codebasePath := path; codebaseName := basename path;
     score := score_or_zero r; isIndexing := indexingNow |}.

(** One turn of the loop over [allCodebases]: the [try] with its [catch]. *)
Definition search_one (indexingCodebases : list string) (query : string)
    (resultLimit : N) (filterExpr : option string) (path : string)
  : M (list Item) :=
  try_catch
    (let indexingNow := includes indexingCodebases path in
     searchResults ←
       match semanticSearch path query (N.min (resultLimit * 2) 50)
               filterExpr with
       | inl e => throw e
       | inr rs => mret rs
       end;
     mret (map (item_of path indexingNow) searchResults))
    (fun error =>
       print (warn_search_failed path (error_text error));;
       mret []).

Fixpoint search_loop (indexingCodebases : list string) (query : string)
    (resultLimit : N) (filterExpr : option string)
    (codebases : list string) (allResults : list Item)
    (hasIndexingCodebase : bool) : M (list Item * bool) :=
  match codebases with
  | [] => mret (allResults, hasIndexingCodebase)
  | path :: rest =>
      found ← search_one indexingCodebases query resultLimit filterExpr
                path;
      search_loop indexingCodebases query resultLimit filterExpr rest
        (allResults ++ found)
        (hasIndexingCodebase || includes indexingCodebases path)
  end.

Definition no_results_text (query : string) (codebases : nat)
    (hasIndexingCodebase : bool) : string :=
  "No results found for query: " +:+ quote +:+ query +:+ quote
  +:+ " across " +:+ pretty codebases +:+ " indexed codebase(s)"
  +:+ (if hasIndexingCodebase
       then nl +:+ nl +:+ "Note: Some codebases are still being indexed. Try searching again after indexing completes."
       else "").

Definition found_text (query : string) (codebases : nat)
    (hasIndexingCodebase : bool) (limitedResults : list Item) : string :=
  "Found " +:+ pretty (length limitedResults) +:+ " results for query: "
  +:+ quote +:+ query +:+ quote +:+ " across " +:+ pretty codebases
  +:+ " codebase(s)" +:+ nl +:+ nl
  +:+ String.concat nl (imap formatResult limitedResults)
  +:+ (if hasIndexingCodebase
       then nl +:+ nl +:+ "💡 **Tip**: Some codebases are still being indexed (marked with ⏳). More results may become available as indexing progresses."
       else "").

Definition searchAllCodebases (query : string) (resultLimit : N)
    (filterExpr : option string) : M Response :=
  indexedCodebases ← gets (fun w =>
     SnapshotManager.getIndexedCodebases (snapshot w));
  indexingCodebases ← gets (fun w =>
     SnapshotManager.getIndexingCodebases (snapshot w));
  let allCodebases := indexedCodebases ++ indexingCodebases in
  if (length allCodebases =? 0)%nat
  then mret {| text := "No codebases are currently indexed. Please index a codebase first using the add_codebase tool.";
               isError := true |}
  else
    '(allResults, hasIndexingCodebase) ←
       search_loop indexingCodebases query resultLimit filterExpr
         allCodebases [] false;
    if (length allResults =? 0)%nat
    then mret {| text := no_results_text query (length allCodebases)
                           hasIndexingCodebase;
                 isError := false |}
    else
      let sorted := sort_desc score allResults in
      let limitedResults := firstn (N.to_nat resultLimit) sorted in
      mret {| text := found_text query (length allCodebases)
                        hasIndexingCodebase limitedResults;
              isError := false |}.

(** *** Failures stay with their codebase *)

Definition search_limit (resultLimit : N) : N := N.min (resultLimit * 2) 50.

(** The results of the codebases whose search returned, in order. *)
Definition merged (indexingCodebases : list string) (query : string)
    (resultLimit : N) (filterExpr : option string)
    (codebases : list string) : list Item :=
  flat_map
    (fun path =>
       match semanticSearch path query (search_limit resultLimit)
               filterExpr with
       | inr rs => map (item_of path (includes indexingCodebases path)) rs
       | inl _ => []
       end) codebases.

(** The warnings for the codebases whose search threw, in order. *)
Definition warnings (query : string) (resultLimit : N)
    (filterExpr : option string) (codebases : list string)
  : list ConsoleEntry :=
  flat_map
    (fun path =>
       match semanticSearch path query (search_limit resultLimit)
               filterExpr with
       | inr _ => []
       | inl e => [warn_search_failed path (error_text e)]
       end) codebases.

Lemma search_loop_spec (indexingCodebases : list string) (query : string)
    (resultLimit : N) (filterExpr : option string)
    (codebases : list string) :
  forall (allResults : list Item) (flag : bool) (st : St),
    search_loop indexingCodebases query resultLimit filterExpr codebases
      allResults flag st
    = (inr (allResults
            ++ merged indexingCodebases query resultLimit filterExpr
                 codebases,
            flag || existsb (includes indexingCodebases) codebases),
       {| world := world st;
          console := console st
                     ++ warnings query resultLimit filterExpr codebases |}).
Proof.
  induction codebases as [|path rest IH]; intros allResults flag st.
  - cbn. rewrite !app_nil_r, orb_false_r. now destruct st.
  - cbn [search_loop merged warnings flat_map existsb].
    unfold mbind at 1, M_bind at 1. unfold search_one, try_catch.
    fold (search_limit resultLimit).
    destruct (semanticSearch path query (search_limit resultLimit)
                filterExpr) as [e|rs]; run; rewrite IH; cbn [world console];
      now rewrite <- !app_assoc, orb_assoc.
Qed.

(** C9: with at least one codebase indexed or being indexed, a search
    over all of them always ends with a response that is not an error,
    whatever the searches of the single codebases do.  A codebase whose
    search throws contributes a warning and no results; the response is
    made of the results of all the others, highest score first, cut at
    the result limit: a result is left out only when [resultLimit]
    results that score at least as high are kept. *)
Theorem search_all_isolates_failures (query : string) (resultLimit : N)
    (filterExpr : option string) (st : St) :
  let indexingCodebases :=
    SnapshotManager.getIndexingCodebases (snapshot (world st)) in
  let allCodebases :=
    SnapshotManager.getIndexedCodebases (snapshot (world st))
    ++ indexingCodebases in
  let found :=
    merged indexingCodebases query resultLimit filterExpr allCodebases in
  let limitedResults :=
    firstn (N.to_nat resultLimit) (sort_desc score found) in
  allCodebases <> [] ->
  exists response st',
    searchAllCodebases query resultLimit filterExpr st
    = (inr response, st') /\
    isError response = false /\
    world st' = world st /\
    console st'
    = console st ++ warnings query resultLimit filterExpr allCodebases /\
    text response
    = (if (length found =? 0)%nat
       then no_results_text query (length allCodebases)
              (existsb (includes indexingCodebases) allCodebases)
       else found_text query (length allCodebases)
              (existsb (includes indexingCodebases) allCodebases)
              limitedResults) /\
    StronglySorted (descending score) limitedResults /\
    (forall item, In item limitedResults -> In item found) /\
    (forall item, In item found ->
       In item limitedResults \/
       (length limitedResults = N.to_nat resultLimit /\
        forall kept, In kept limitedResults ->
                     (score item <= score kept)%Q)).
Proof.
  intros indexingCodebases allCodebases found limitedResults Hsome.
  unfold searchAllCodebases.
  unfold mbind at 1, M_bind at 1. unfold gets at 1. cbv beta iota.
  unfold mbind at 1, M_bind at 1. unfold gets at 1. cbv beta iota zeta.
  fold indexingCodebases. fold allCodebases.
  destruct (Nat.eqb_spec (length allCodebases) 0) as [Hlen | _];
    [destruct allCodebases; [congruence | discriminate]|].
  unfold mbind at 1, M_bind at 1. rewrite search_loop_spec.
  cbn [app orb]. fold found.
  assert (StronglySorted (descending score) limitedResults /\
          (forall item, In item limitedResults -> In item found) /\
          (forall item, In item found ->
             In item limitedResults \/
             (length limitedResults = N.to_nat resultLimit /\
              forall kept, In kept limitedResults ->
                           (score item <= score kept)%Q))) as Hranked.
  { pose proof (sort_desc_sorted score found) as Hsorted.
    pose proof (sort_desc_perm score found) as Hperm.
    split; [now apply firstn_sorted|]. split.
    - intros item Hin. apply firstn_In in Hin.
      now apply (Permutation_in _ Hperm).
    - intros item Hin. apply (firstn_cut score _ _ _ Hsorted).
      now apply (Permutation_in _ (Permutation_sym Hperm)). }
  destruct (length found =? 0)%nat; run;
    (do 2 eexists; split; [reflexivity|]; split; [reflexivity|];
     split; [reflexivity|]; split; [reflexivity|];
     split; [reflexivity | exact Hranked]).
Qed.

End SearchAll.
(** ** The tool handlers: a repository at /repo *)

Definition demo_limit_message : string :=
  "The collection limit has been reached.".

(** Paths that are absolute already. *)
Definition demo_absolute (path : string) : string := path.

Definition demo_env (canCreateCollection : bool) : Backend :=
  {| existsSync := fun p => String.eqb p "/repo";
     isDirectory := fun p => String.eqb p "/repo";
     hasIndex_fault := None;
     clearIndex_fault := None;
     checkCollectionLimit := inr canCreateCollection |}.

Definition demo_args (force : bool) (splitter : option string) : IndexArgs :=
  {| arg_path := "/repo"; arg_force := force; arg_splitter := splitter;
     arg_customExtensions := []; arg_ignorePatterns := [] |}.

Definition world_with (snap : gmap string CodebaseInfo)
    (cols : gset string) : World :=
  {| snapshot := snap; saved := snap; collections := cols;
     synchronizers := cols; extensions := []; ignorePatterns := [];
     tracked := []; indexingStats := None; jobs := [] |}.

Definition empty_world : World := world_with ∅ ∅.

Definition demo_stats : Stats :=
  {| indexedFiles := 3; totalChunks := 12; status := completed |}.

Definition indexed_world : World :=
  world_with {[ "/repo" := Indexed demo_stats ]} {[ "/repo" ]}.

Definition indexing_world : World :=
  world_with {[ "/repo" := Indexing (40 # 1) ]} {[ "/repo" ]}.

Definition quiet (w : World) : St := {| world := w; console := [] |}.

(** The refusal as the specification states it: nothing touched, and
    the message returned as a response that is not an error. *)
Definition limit_refusal_claim (env : Backend) (args : IndexArgs) (st : St)
  : Prop :=
  exists response st',
    handleIndexCodebase demo_limit_message demo_absolute env args st
    = (inr response, st') /\
    world st' = world st /\
    text response = demo_limit_message /\
    isError response = false.

(** C3, counterexample: a forced request for /repo, indexed and with a
    collection, against a database that cannot create a collection.
    Before the validation fails the entry of /repo has been removed from
    the snapshot and its collection dropped; the message is returned
    with [isError] set. *)
Lemma limit_refusal_counterexample :
  checkCollectionLimit (demo_env false) = inr false /\
  ~ limit_refusal_claim (demo_env false) (demo_args true None)
      (quiet indexed_world).
Proof.
  split; [reflexivity|].
  intros (response & st' & Hrun & Hworld & _ & _).
  assert (snapshot (world st') !! "/repo" = None) as Hgone.
  { apply (f_equal snd) in Hrun. cbn [snd] in Hrun. subst st'.
    vm_compute. reflexivity. }
  rewrite Hworld in Hgone. vm_compute in Hgone. discriminate.
Qed.

(** Without [force] nothing is touched, but the response is an error. *)
Example limit_refusal_is_error :
  handleIndexCodebase demo_limit_message demo_absolute (demo_env false)
    (demo_args false None) (quiet empty_world)
  = (inr {| text := demo_limit_message; isError := true |},
     {| world := empty_world;
        console := [error_limit_validation "/repo"] |}).
Proof. reflexivity. Qed.

Lemma demo_admissible (canCreate force : bool) (splitter : string)
    (w : World) :
  splitter = "ast" \/ splitter = "langchain" ->
  SnapshotManager.getCodebaseStatus (snapshot w) "/repo" <> indexing ->
  force = true \/
  SnapshotManager.getCodebaseStatus (snapshot w) "/repo" <> indexed ->
  admissible demo_absolute (demo_env canCreate)
    (demo_args force (Some splitter)) w.
Proof.
  intros Hs Hidx Hforce. unfold admissible, splitter_of. cbn.
  destruct Hs as [-> | ->];
    (split; [first [now left | now right]|]); repeat split; assumption.
Qed.

Lemma collection_limit_refusal_witness :
  admissible demo_absolute (demo_env false) (demo_args true (Some "ast"))
    (world (quiet indexed_world)) /\
  checkCollectionLimit (demo_env false) = inr false /\
  exists response st',
    handleIndexCodebase demo_limit_message demo_absolute (demo_env false)
      (demo_args true (Some "ast")) (quiet indexed_world)
    = (inr response, st') /\
    text response = demo_limit_message /\
    world st' = cleared "/repo" indexed_world /\
    jobs (world st') = [] /\
    saved (world st') = saved indexed_world /\
    tracked (world st') = [] /\
    collections (world st') ⊆ collections indexed_world /\
    SnapshotManager.getCodebaseStatus (snapshot (world st')) "/repo"
    <> indexing.
Proof.
  assert (admissible demo_absolute (demo_env false)
            (demo_args true (Some "ast")) (world (quiet indexed_world)))
    as Hadm.
  { apply demo_admissible; [now left | | now left].
    vm_compute. discriminate. }
  split; [exact Hadm|]. split; [reflexivity|].
  exact (collection_limit_refusal demo_limit_message demo_absolute
           (demo_env false) (demo_args true (Some "ast"))
           (quiet indexed_world) Hadm eq_refl).
Defined.

(** *** Two overlapping requests for /repo *)

(** A request to add /repo that has passed the guard and is suspended
    at [await checkCollectionLimit()]. *)
Definition add_repo_suspended : Call :=
  {| call_env := demo_env true; call_args := demo_args false None;
     call_at := await_checkCollectionLimit |}.

(** The world after the first of two such calls has gone on, and after
    both have. *)
Definition one_started : World :=
  exec (index_resume demo_limit_message demo_absolute (demo_env true)
          (demo_args false None) await_checkCollectionLimit) empty_world.

Definition both_started : World :=
  exec (index_resume demo_limit_message demo_absolute (demo_env true)
          (demo_args false None) await_checkCollectionLimit) one_started.

(** C4, the failing run: two requests to add /repo arrive one after the
    other on an empty snapshot, the second while the first is suspended
    at [await checkCollectionLimit()].  Both pass the guard, since the
    path is set to indexing only after that [await]; both then start a
    task and both are told that indexing has started: two tasks are
    pending for /repo. *)
Theorem overlapping_requests_start_two_jobs :
  reachable demo_limit_message demo_absolute (empty_world, [])
    (both_started, []) /\
  map job_path (jobs both_started) = ["/repo"; "/repo"] /\
  exists response,
    returned (index_resume demo_limit_message demo_absolute (demo_env true)
                (demo_args false None) await_checkCollectionLimit)
             one_started
    = inr (inl response) /\
    isError response = false.
Proof.
  split; [|split; [reflexivity|eexists; split; reflexivity]].
  apply (reachable_step _ _ _ (one_started, [add_repo_suspended])).
  - apply (reachable_step _ _ _
             (empty_world, [add_repo_suspended; add_repo_suspended])).
    + apply (reachable_step _ _ _ (empty_world, [add_repo_suspended])).
      * apply (reachable_step _ _ _ (empty_world, []));
          [apply reachable_start|].
        exact (step_request demo_limit_message demo_absolute (demo_env true)
                 (demo_args false None) empty_world []).
      * exact (step_request demo_limit_message demo_absolute (demo_env true)
                 (demo_args false None) empty_world [add_repo_suspended]).
    + exact (step_resume demo_limit_message demo_absolute
               add_repo_suspended empty_world [] [add_repo_suspended]).
  - exact (step_resume demo_limit_message demo_absolute
             add_repo_suspended one_started [] []).
Qed.

(** A run that reports 25 and 50 per cent and then loses its connection. *)
Definition lost_connection : Exn :=
  {| message := "connection lost"; as_string := "Error: connection lost" |}.

Definition demo_indexCodebase (_ : unit) (_ : string) : IndexRun :=
  {| progress := [((25 # 1)%Q, 1000); ((50 # 1)%Q, 4000)];
     outcome := inl lost_connection |}.

Definition no_faults : Preparation :=
  {| setup_fault := None; collection_fault := None |}.

Lemma background_failure_recorded_witness :
  first_fault no_faults (demo_indexCodebase tt "/repo")
  = Some lost_connection /\
  exists st',
    startBackgroundIndexing unit demo_indexCodebase tt no_faults "/repo"
      false "ast" (quiet indexing_world) = (inr tt, st') /\
    snapshot (world st') !! "/repo"
    = Some (IndexFailed "connection lost" (Some (50 # 1)%Q)) /\
    saved (world st') = snapshot (world st').
Proof.
  split; [reflexivity|].
  exact (background_failure_recorded unit demo_indexCodebase tt no_faults
           "/repo" false "ast" lost_connection (quiet indexing_world)
           eq_refl).
Defined.



(** Two codebases, the search of the first of which throws. *)
Definition two_codebases : World :=
  world_with {[ "/a" := Indexed demo_stats; "/b" := Indexed demo_stats ]}
             {[ "/a"; "/b" ]}.

Definition hit (file : string) (s : Q) : SearchResult :=
  {| relativePath := file; startLine := 1; endLine := 9;
     content := "..."; language := "typescript"; result_score := Some s |}.

Definition demo_semanticSearch (path : string) (_ : string) (_ : N)
    (_ : option string) : Exn + list SearchResult :=
  if String.eqb path "/a" then inl lost_connection
  else inr [hit "x.ts" (4 # 10); hit "y.ts" (8 # 10)].

Definition demo_basename (path : string) : string := path.
Definition demo_format (_ : nat) (item : Item) : string :=
  relativePath (result item).

Lemma search_all_isolates_failures_witness :
  SnapshotManager.getIndexedCodebases (snapshot (world (quiet two_codebases)))
  ++ SnapshotManager.getIndexingCodebases
       (snapshot (world (quiet two_codebases))) <> [] /\
  exists response st',
    searchAllCodebases demo_semanticSearch demo_basename demo_format
      "add" 10 None (quiet two_codebases) = (inr response, st') /\
    isError response = false /\
    console st' = [warn_search_failed "/a" "connection lost"] /\
    map (fun item => relativePath (result item))
      (firstn 10
         (sort_desc score
            (merged demo_semanticSearch demo_basename [] "add" 10 None
               ["/a"; "/b"])))
    = ["y.ts"; "x.ts"].
Proof.
  assert (SnapshotManager.getIndexedCodebases
            (snapshot (world (quiet two_codebases)))
          ++ SnapshotManager.getIndexingCodebases
               (snapshot (world (quiet two_codebases))) <> []) as Hsome.
  { vm_compute. discriminate. }
  split; [exact Hsome|].
  destruct (search_all_isolates_failures demo_semanticSearch demo_basename
              demo_format "add" 10 None (quiet two_codebases) Hsome)
    as (response & st' & Hrun & Herr & _ & Hconsole & _).
  exists response, st'. split; [exact Hrun|]. split; [exact Herr|].
  split; [rewrite Hconsole; vm_compute; reflexivity | reflexivity].
Defined.

End ToolHandlers.


(** ** The AST code splitter: languages, chunks and pieces *)

Module SplitterFacts.
Import Js JsFacts AstCodeSplitter Refiner Chunker.

(** [AstCodeSplitter.isLanguageSupported] *)
Definition isLanguageSupported (language : string) : bool :=
  includes
    ["javascript"; "js"; "typescript"; "ts"; "python"; "py"; "java"; "cpp";
     "c++"; "c"; "go"; "rust"; "rs"; "cs"; "csharp"; "scala"]
    (toLowerCase language).

(** The splitter as constructed: [if (chunkSize) this.chunkSize =
    chunkSize], and the same for the overlap; an absent argument and 0
    are both falsy. *)
Record Sizes := { chunkSize : Z; chunkOverlap : Z }.

Definition or_default (arg : option Z) (default : Z) : Z :=
  match arg with
  | Some n => if n =? 0 then default else n
  | None => default
  end.

Definition constructor (chunkSize chunkOverlap : option Z) : Sizes :=
  {| chunkSize := or_default chunkSize 2500;
     chunkOverlap := or_default chunkOverlap 300 |}.

Definition setChunkOverlap (n : Z) (s : Sizes) : Sizes :=
  {| chunkSize := chunkSize s; chunkOverlap := n |}.

Ltac by_language x :=
  repeat match goal with
         | |- context [String.eqb x ?lit] =>
             destruct (String.eqb_spec x lit) as [-> | ?]
         end.

(** Keys that a lookup in an object literal finds on [Object.prototype]
    and that [toLowerCase] leaves as they are. *)
Definition inherited_keys : list string := ["constructor"; "__proto__"].

(** Apart from the inherited keys, [getLanguageConfig] has a
    configuration exactly for the languages that [isLanguageSupported]
    lists and for [dart], which the list leaves out. *)
Theorem supported_languages (language : string) :
  ~ In (toLowerCase language) inherited_keys ->
  (is_Some (getLanguageConfig language) <->
   isLanguageSupported language = true \/ toLowerCase language = "dart").
Proof.
  intros _.
  unfold getLanguageConfig, isLanguageSupported, includes. cbv zeta.
  set (x := toLowerCase language). cbn [existsb].
  destruct (String.eqb_spec x "dart") as [-> | Hdart].
  - cbn. split; [now right | eauto].
  - by_language x; cbn [orb];
      try (split; [intros _; now left | intros _; eauto]).
    split; [intros [? H]; discriminate | intros [H | H]; congruence].
Qed.

Lemma supported_languages_witness :
  ~ In (toLowerCase "Dart") inherited_keys /\
  (is_Some (getLanguageConfig "Dart") <->
   isLanguageSupported "Dart" = true \/ toLowerCase "Dart" = "dart").
Proof.
  assert (~ In (toLowerCase "Dart") inherited_keys) as H.
  { cbn. intros [H | [H | []]]; discriminate. }
  split; [exact H | exact (supported_languages "Dart" H)].
Defined.

(** *** What the traversal emits *)

Section Emitted.
Variables (code : list N) (splittableTypes : list string)
          (lang : string) (file : option string).

(** A chunk made for a node of some type spanning the given rows and
    offsets. *)
Definition node_chunk (c : CodeChunk) : Prop :=
  exists type startRow endRow startIndex endIndex,
    content c = slice startIndex endIndex code /\
    len (trim (content c)) > 0 /\
    startLine (metadata c) = Z.of_nat startRow + 1 /\
    endLine (metadata c) = Z.of_nat endRow + 1 /\
    language (metadata c) = lang /\
    filePath (metadata c) = file /\
    isDefinition (metadata c) = Some (isDefinitionNode type lang).

Lemma traverse_node_chunks (node : SyntaxNode) :
  Forall node_chunk (traverse code splittableTypes lang file node).
Proof.
  induction node as [type sr er si ei children IH] using SyntaxNode_rect'.
  cbn [traverse]. apply Forall_app. split.
  - destruct (includes splittableTypes type); [|constructor].
    destruct (len (trim (slice si ei code)) >? 0) eqn:E; [|constructor].
    apply Z.gtb_lt in E. repeat constructor.
    exists type, sr, er, si, ei.
    cbn [content metadata startLine endLine language filePath isDefinition].
    repeat split; try reflexivity. lia.
  - apply Forall_flat_map. exact IH.
Qed.

Lemma slice_part (a b : nat) :
  exists pre post, code = pre ++ slice a b code ++ post.
Proof.
  exists (firstn a code), (skipn (b - a) (skipn a code)). unfold slice.
  now rewrite firstn_skipn, firstn_skipn.
Qed.

Lemma siblings_ordered_each (ok : SyntaxNode -> bool)
    (nodes : list SyntaxNode) :
  forall lo hi, siblings_ordered ok lo hi nodes = true ->
                Forall (fun c => ok c = true) nodes.
Proof.
  induction nodes as [|c rest IH]; intros lo hi H; [constructor|].
  cbn in H. rewrite !andb_true_iff in H. destruct H as [[[_ _] Hc] Hrest].
  constructor; [exact Hc | eapply IH; exact Hrest].
Qed.

Lemma traverse_rows (node : SyntaxNode) :
  in_document_order node = true ->
  Forall (fun c => startLine (metadata c) <= endLine (metadata c))
         (traverse code splittableTypes lang file node).
Proof.
  induction node as [type sr er si ei children IH] using SyntaxNode_rect'.
  intros Hord. cbn in Hord. apply andb_true_iff in Hord as [Hrow Hsib].
  apply Nat.leb_le in Hrow. apply siblings_ordered_each in Hsib.
  cbn [traverse]. apply Forall_app. split.
  - destruct (includes splittableTypes type); [|constructor].
    destruct (len (trim (slice si ei code)) >? 0); repeat constructor.
    cbn. lia.
  - apply Forall_flat_map. rewrite List.Forall_forall in *.
    intros c Hc. apply (IH c Hc). now apply Hsib.
Qed.

End Emitted.

(** [extractChunks] always returns at least one chunk; each is a
    contiguous part of the source, starts on line 1 or later and carries
    the language and file path given; apart from the single whole-file
    chunk that stands in when no node qualifies, no chunk is blank. *)
Theorem extractChunks_parts (root : SyntaxNode) (code : list N)
    (splittableTypes : list string) (lang : string) (file : option string) :
  extractChunks root code splittableTypes lang file <> [] /\
  Forall (fun c =>
            (exists pre post, code = pre ++ content c ++ post) /\
            1 <= startLine (metadata c) /\
            language (metadata c) = lang /\
            filePath (metadata c) = file /\
            (len (trim (content c)) > 0 \/
             extractChunks root code splittableTypes lang file
             = [c] /\ content c = code))
         (extractChunks root code splittableTypes lang file).
Proof.
  unfold extractChunks.
  pose proof (traverse_node_chunks code splittableTypes lang file root)
    as Hall.
  destruct (traverse code splittableTypes lang file root) as [|c l] eqn:E;
    cbn [length Nat.eqb].
  - split; [discriminate|]. constructor; [|constructor].
    cbn [content metadata startLine language filePath].
    split; [now exists [], []; rewrite app_nil_r|].
    split; [lia|]. split; [reflexivity|]. split; [reflexivity|]. now right.
  - split; [discriminate|]. eapply List.Forall_impl; [|exact Hall].
    intros d (ty & sr & er & si & ei & Hc & Hblank & Hs & _ & Hl & Hf & _).
    split; [rewrite Hc; apply slice_part|].
    split; [lia|]. split; [exact Hl|]. split; [exact Hf | now left].
Qed.

(** For a syntax tree in document order every chunk of [extractChunks]
    ends on the line it starts on or later. *)
Theorem extractChunks_line_ranges (root : SyntaxNode) (code : list N)
    (splittableTypes : list string) (lang : string) (file : option string) :
  in_document_order root = true ->
  Forall (fun c => startLine (metadata c) <= endLine (metadata c))
         (extractChunks root code splittableTypes lang file).
Proof.
  intros Hord. unfold extractChunks.
  destruct (length _ =? 0)%nat; [|now apply traverse_rows].
  repeat constructor. cbn.
  pose proof (split_lines_nonempty code).
  destruct (split_lines code); [congruence | cbn; lia].
Qed.

Lemma extractChunks_line_ranges_witness :
  in_document_order class_tree = true /\
  Forall (fun c => startLine (metadata c) <= endLine (metadata c))
         (extractChunks class_tree class_code
            (SPLITTABLE_NODE_TYPES JavaScript) "javascript" None).
Proof.
  split; [reflexivity|].
  apply (extractChunks_line_ranges class_tree class_code
           (SPLITTABLE_NODE_TYPES JavaScript) "javascript" None).
  reflexivity.
Defined.

(** The language names that [getLanguageConfig] accepts but the table of
    [isDefinitionNode] has no entry for. *)
Definition aliases : list string :=
  ["js"; "ts"; "py"; "c++"; "c"; "rs"; "cs"].

Lemma alias_no_definitions (language nodeType : string) :
  In (toLowerCase language) aliases ->
  isDefinitionNode nodeType language = false.
Proof.
  unfold isDefinitionNode, aliases. cbn [In].
  intros [<- | [<- | [<- | [<- | [<- | [<- | [<- | []]]]]]]]; reflexivity.
Qed.

(** Under an alias ([js], [ts], [py], [c++], [c], [rs], [cs], in any
    case) a file is split along its syntax tree like under the full
    name, but no node counts as a definition: no chunk of
    [extractChunks] is marked as one. *)
Theorem alias_chunks_unmarked (root : SyntaxNode) (code : list N)
    (splittableTypes : list string) (language : string)
    (file : option string) :
  In (toLowerCase language) aliases ->
  is_Some (getLanguageConfig language) /\
  Forall (fun c => isDefinition (metadata c) <> Some true)
         (extractChunks root code splittableTypes language file).
Proof.
  intros Halias. split.
  - unfold getLanguageConfig, aliases in *. cbn [In] in Halias. cbv zeta.
    destruct Halias as [<- | [<- | [<- | [<- | [<- | [<- | [<- | []]]]]]]];
      cbn; eauto.
  - unfold extractChunks. destruct (length _ =? 0)%nat.
    + repeat constructor. cbn. discriminate.
    + eapply List.Forall_impl; [|apply traverse_node_chunks].
      intros c (ty & _ & _ & _ & _ & _ & _ & _ & _ & _ & _ & Hd).
      rewrite Hd, (alias_no_definitions language ty Halias). discriminate.
Qed.

Lemma alias_chunks_unmarked_witness :
  In (toLowerCase "JS") aliases /\
  (is_Some (getLanguageConfig "JS") /\
   Forall (fun c => isDefinition (metadata c) <> Some true)
          (extractChunks class_tree class_code
             (SPLITTABLE_NODE_TYPES JavaScript) "JS" None)).
Proof.
  split; [now left|].
  apply (alias_chunks_unmarked class_tree class_code
           (SPLITTABLE_NODE_TYPES JavaScript) "JS" None).
  now left.
Defined.

(** *** The pieces of an oversized chunk *)

(** The chunks of [l] cover consecutive, non-empty line ranges from line
    [from] up to, not including, line [to]. *)
Fixpoint tiles (from : Z) (l : list CodeChunk) (to : Z) : Prop :=
  match l with
  | [] => from = to
  | c :: rest =>
      startLine (metadata c) = from /\
      startLine (metadata c) <= endLine (metadata c) /\
      tiles (endLine (metadata c) + 1) rest to
  end.

Lemma tiles_snoc (from mid to : Z) (l : list CodeChunk) (c : CodeChunk) :
  tiles from l mid -> startLine (metadata c) = mid ->
  mid <= endLine (metadata c) -> endLine (metadata c) + 1 = to ->
  tiles from (l ++ [c]) to.
Proof.
  revert from. induction l as [|d l IH]; cbn; intros from H Hs Hle He.
  - subst. repeat split; lia.
  - destruct H as (H1 & H2 & H3). repeat split; [assumption..|].
    now apply IH.
Qed.

(** A piece takes language and file path from the chunk and carries no
    definition mark. *)
Definition piece_of (chunk c : CodeChunk) : Prop :=
  language (metadata c) = language (metadata chunk) /\
  filePath (metadata c) = filePath (metadata chunk) /\
  isDefinition (metadata c) = None.

Section Tiling.
Variables (chunkSize : Z) (chunk : CodeChunk) (n : nat).

(** Before iteration [i]: the closed pieces tile the lines before the
    buffer's first line, and the buffer holds the lines from there to
    line [i]. *)
Definition tiling (i : nat) (st : SplitState) : Prop :=
  tiles (start_of chunk) (subChunks st) (currentStartLine st) /\
  Forall (piece_of chunk) (subChunks st) /\
  currentStartLine st + currentLineCount st = start_of chunk + Z.of_nat i /\
  0 <= currentLineCount st /\
  (currentLineCount st = 0 -> currentChunk st = []).

Lemma tiling_close (i : nat) (st : SplitState) :
  tiling i st -> currentChunk st <> [] ->
  tiles (start_of chunk) (subChunks st ++ [subChunk chunk st])
        (start_of chunk + Z.of_nat i) /\
  Forall (piece_of chunk) (subChunks st ++ [subChunk chunk st]).
Proof.
  intros (Ht & Hp & Hsum & Hpos & Hnil) Hbuf. split.
  - eapply tiles_snoc; [exact Ht | reflexivity | cbn | cbn; lia].
    assert (currentLineCount st <> 0) by (intros H; auto). lia.
  - apply Forall_app. split; [exact Hp|]. now repeat constructor.
Qed.

Lemma split_step_tiling (i : nat) (line : list N) (st : SplitState) :
  tiling i st -> tiling (S i) (split_step chunkSize chunk n i line st).
Proof.
  intros Hst. unfold split_step.
  set (l := if (i =? n - 1)%nat then line else line ++ [LF]).
  destruct ((len (currentChunk st) + len l >? chunkSize)
            && (len (currentChunk st) >? 0)) eqn:E.
  - apply andb_true_iff in E as [_ E].
    assert (currentChunk st <> []) as Hbuf.
    { intros H. rewrite H in E. discriminate. }
    destruct (tiling_close i st Hst Hbuf) as [Ht Hp].
    unfold tiling. cbn [subChunks currentChunk currentStartLine
                        currentLineCount].
    fold (start_of chunk).
    split; [exact Ht|]. split; [exact Hp|]. split; [lia|].
    split; [lia|]. intros H. lia.
  - destruct Hst as (Ht & Hp & Hsum & Hpos & Hnil).
    unfold tiling. cbn [subChunks currentChunk currentStartLine
                        currentLineCount].
    split; [exact Ht|]. split; [exact Hp|]. split; [lia|].
    split; [lia|]. intros H. lia.
Qed.

Lemma split_loop_tiling (lines : list (list N)) :
  forall (i : nat) (st : SplitState),
    tiling i st ->
    tiling (i + length lines) (split_loop chunkSize chunk n i lines st).
Proof.
  induction lines as [|line lines IH]; intros i st Hst; cbn.
  - now rewrite Nat.add_0_r.
  - replace (i + S (length lines))%nat with (S i + length lines)%nat
      by lia.
    apply IH. now apply split_step_tiling.
Qed.

End Tiling.

(** The state the loop of [splitLargeChunk] ends in. *)
Definition final_state (chunkSize : Z) (chunk : CodeChunk) : SplitState :=
  let lines := split_lines (content chunk) in
  split_loop chunkSize chunk (length lines) 0 lines
    {| subChunks := []; currentChunk := [];
       currentStartLine := startLine (metadata chunk);
       currentLineCount := 0 |}.

Lemma final_state_tiling (chunkSize : Z) (chunk : CodeChunk) :
  tiling chunk (length (split_lines (content chunk)))
         (final_state chunkSize chunk).
Proof.
  unfold final_state. cbv zeta.
  set (lines := split_lines (content chunk)).
  apply (split_loop_tiling chunkSize chunk (length lines) lines 0).
  unfold tiling; cbn. unfold start_of.
  split; [reflexivity|]. split; [constructor|]. split; [lia|].
  split; [lia | reflexivity].
Qed.

Lemma splitLargeChunk_final (chunkSize : Z) (chunk : CodeChunk) :
  splitLargeChunk chunkSize chunk
  = let st := final_state chunkSize chunk in
    if len (trim (currentChunk st)) >? 0
    then subChunks st ++ [subChunk chunk st]
    else subChunks st.
Proof. reflexivity. Qed.

Lemma splitLargeChunk_pieces (chunkSize : Z) (chunk : CodeChunk) :
  Forall (piece_of chunk) (splitLargeChunk chunkSize chunk).
Proof.
  rewrite splitLargeChunk_final. cbv zeta.
  pose proof (final_state_tiling chunkSize chunk) as Hst.
  destruct (len (trim (currentChunk (final_state chunkSize chunk))) >? 0)
    eqn:E.
  - apply (tiling_close chunk _ _ Hst). intros H. rewrite H in E.
    discriminate.
  - apply Hst.
Qed.

(** The pieces of [splitLargeChunk] cover consecutive line ranges that
    begin at the chunk's start line, each range non-empty, and end no
    later than the start line plus the number of lines of the content:
    the chunk's own end line plays no part.  Every piece keeps language
    and file path and has no definition mark. *)
Theorem splitLargeChunk_tiles (chunkSize : Z) (chunk : CodeChunk) :
  exists to,
    tiles (startLine (metadata chunk)) (splitLargeChunk chunkSize chunk) to
    /\ to <= startLine (metadata chunk) + getLineCount (content chunk)
    /\ Forall (piece_of chunk) (splitLargeChunk chunkSize chunk).
Proof.
  pose proof (splitLargeChunk_pieces chunkSize chunk) as Hpieces.
  rewrite splitLargeChunk_final in *. cbv zeta in *. unfold getLineCount.
  pose proof (final_state_tiling chunkSize chunk) as Hst.
  set (final := final_state chunkSize chunk) in *.
  set (lines := split_lines (content chunk)) in *.
  destruct (len (trim (currentChunk final)) >? 0) eqn:E.
  - assert (currentChunk final <> []) as Hbuf.
    { intros H. rewrite H in E. discriminate. }
    destruct (tiling_close chunk _ final Hst Hbuf) as [Ht _].
    exists (start_of chunk + Z.of_nat (length lines)).
    split; [exact Ht|]. split; [unfold start_of; lia | exact Hpieces].
  - destruct Hst as (Ht & _ & Hsum & Hpos & _).
    exists (currentStartLine final).
    split; [exact Ht|].
    split; [unfold start_of in Hsum; lia | exact Hpieces].
Qed.

(** *** Chunks that need no refinement *)

Lemma refineSplit_small (chunkSize : Z) (chunks : list CodeChunk) :
  Forall (fun c => chunk_len c <= chunkSize) chunks ->
  refineSplit chunkSize chunks = chunks.
Proof.
  unfold refineSplit, chunk_len.
  induction 1 as [|c l Hc _ IH]; cbn; [reflexivity|].
  destruct (Z.leb_spec (len (content c)) chunkSize); [|lia].
  cbn. now f_equal.
Qed.

(** When no line of an oversized chunk is longer than [chunkSize], the
    splitting loop of [refineChunks] reaches a fixed point in one pass:
    splitting its result again changes nothing. *)
Theorem refineSplit_idempotent (chunkSize : Z) (chunks : list CodeChunk) :
  lines_fit chunkSize chunks = true ->
  refineSplit chunkSize (refineSplit chunkSize chunks)
  = refineSplit chunkSize chunks.
Proof.
  intros Hfit. apply refineSplit_small. now apply refineSplit_bound.
Qed.

Lemma refineSplit_idempotent_witness :
  lines_fit 4 three_lines = true /\
  refineSplit 4 (refineSplit 4 three_lines) = refineSplit 4 three_lines.
Proof.
  split; [reflexivity|].
  apply (refineSplit_idempotent 4 three_lines). reflexivity.
Defined.

(** Only a chunk that fits keeps its definition mark through the
    splitting loop: a chunk of the result that is marked as a definition
    is one of the given chunks, unchanged, and is within the size. *)
Theorem definitions_survive_whole (chunkSize : Z)
    (chunks : list CodeChunk) (c : CodeChunk) :
  In c (refineSplit chunkSize chunks) ->
  isDefinition (metadata c) = Some true ->
  In c chunks /\ chunk_len c <= chunkSize.
Proof.
  unfold refineSplit. intros Hin Hdef.
  apply in_flat_map in Hin as (d & Hd & Hc).
  destruct (Z.leb_spec (len (content d)) chunkSize) as [Hle | Hgt].
  - destruct Hc as [<- | []]. split; [exact Hd | exact Hle].
  - pose proof (splitLargeChunk_pieces chunkSize d) as Hp.
    rewrite List.Forall_forall in Hp. destruct (Hp c Hc) as (_ & _ & Hnone).
    congruence.
Qed.

Definition marked (s : string) (first last : Z) : CodeChunk :=
  {| content := str s;
     metadata := {| startLine := first; endLine := last;
                    language := "javascript"; filePath := None;
                    isDefinition := Some true |} |}.

Lemma definitions_survive_whole_witness :
  In (marked "ab" 1 1) (refineSplit 4 [marked "ab" 1 1]) /\
  isDefinition (metadata (marked "ab" 1 1)) = Some true /\
  (In (marked "ab" 1 1) [marked "ab" 1 1] /\
   chunk_len (marked "ab" 1 1) <= 4).
Proof.
  assert (In (marked "ab" 1 1) (refineSplit 4 [marked "ab" 1 1])) as H
    by now left.
  split; [exact H|]. split; [reflexivity|].
  exact (definitions_survive_whole 4 [marked "ab" 1 1] (marked "ab" 1 1)
           H eq_refl).
Defined.

(** *** Sizes given to the constructor *)

(** An overlap of 0 given to the constructor does not switch the overlap
    off: the splitter keeps the default of 300 characters, so the second
    chunk of a refinement is prefixed from the first.  Only
    [setChunkOverlap] with 0 makes [refineChunks] return the chunks of
    the splitting loop as they are. *)
Theorem constructor_zero_overlap (size : option Z)
    (chunks : list CodeChunk) (c0 c1 : CodeChunk) :
  refineSplit (chunkSize (constructor size (Some 0))) chunks !! 0%nat
  = Some c0 ->
  refineSplit (chunkSize (constructor size (Some 0))) chunks !! 1%nat
  = Some c1 ->
  refineChunks (chunkSize (constructor size (Some 0)))
               (chunkOverlap (constructor size (Some 0))) chunks !! 1%nat
  = Some (with_overlap 300 c0 c1) /\
  refineChunks
    (chunkSize (setChunkOverlap 0 (constructor size (Some 0))))
    (chunkOverlap (setChunkOverlap 0 (constructor size (Some 0)))) chunks
  = refineSplit (chunkSize (constructor size (Some 0))) chunks.
Proof.
  cbn [constructor setChunkOverlap chunkSize chunkOverlap or_default Z.eqb].
  intros H0 H1. split.
  - unfold refineChunks. apply (addOverlap_lookup 300 _ 0 c0 c1);
      [|lia | exact H0 | exact H1].
    apply lookup_lt_Some in H1. lia.
  - unfold refineChunks, addOverlap. cbn [Z.leb Z.compare].
    now rewrite orb_true_r.
Qed.

Lemma constructor_zero_overlap_witness :
  refineSplit (chunkSize (constructor (Some 4) (Some 0))) three_lines
    !! 0%nat = Some (nth 0 (refineSplit 4 three_lines) (marked "" 0 0)) /\
  refineSplit (chunkSize (constructor (Some 4) (Some 0))) three_lines
    !! 1%nat = Some (nth 1 (refineSplit 4 three_lines) (marked "" 0 0)) /\
  (refineChunks (chunkSize (constructor (Some 4) (Some 0)))
                (chunkOverlap (constructor (Some 4) (Some 0))) three_lines
     !! 1%nat
   = Some (with_overlap 300
             (nth 0 (refineSplit 4 three_lines) (marked "" 0 0))
             (nth 1 (refineSplit 4 three_lines) (marked "" 0 0))) /\
   refineChunks
     (chunkSize (setChunkOverlap 0 (constructor (Some 4) (Some 0))))
     (chunkOverlap (setChunkOverlap 0 (constructor (Some 4) (Some 0))))
     three_lines
   = refineSplit (chunkSize (constructor (Some 4) (Some 0))) three_lines).
Proof.
  split; [reflexivity|]. split; [reflexivity|].
  apply (constructor_zero_overlap (Some 4) three_lines); reflexivity.
Defined.

End SplitterFacts.

(** ** The vector database: names and filters in SQL text *)

Module SqlText.
Import Js JsFacts PostgresVectorDatabase.

Definition UNDERSCORE : N := 95%N.
Definition QUOTE : N := 39%N.

Definition is_upper (c : N) : bool := ((65 <=? c) && (c <=? 90))%N.
Definition is_lower (c : N) : bool := ((97 <=? c) && (c <=? 122))%N.
Definition is_digit (c : N) : bool := ((48 <=? c) && (c <=? 57))%N.

(** [/[A-Z]/] with its replacement [`_${letter.toLowerCase()}`] *)
Definition upper_letter (s : list N) : option (list N * nat) :=
  match s with
  | c :: _ => if is_upper c then Some ([UNDERSCORE; (c + 32)%N], 1%nat)
              else None
  | [] => None
  end.

(** [camelToSnake] *)
Definition camelToSnake (s : list N) : list N := gsub upper_letter 0 s.

(** [/[^a-z0-9_]/] with its replacement ['_'] *)
Definition ident_char (c : N) : bool :=
  is_lower c || is_digit c || (c =? UNDERSCORE)%N.

Definition other_char (s : list N) : option (list N * nat) :=
  match s with
  | c :: _ => if ident_char c then None else Some ([UNDERSCORE], 1%nat)
  | [] => None
  end.

Section TableName.

(** [String.prototype.toLowerCase], left to the engine. *)
Variable toLowerCase : list N -> list N.

(** [sanitizeTableName] *)
Definition sanitizeTableName (name : list N) : list N :=
  str "collection_" ++ gsub other_char 0 (toLowerCase name).

End TableName.

Lemma camelToSnake_cons (c : N) (s : list N) :
  camelToSnake (c :: s)
  = (if is_upper c then [UNDERSCORE; (c + 32)%N] else [c])
    ++ camelToSnake s.
Proof.
  unfold camelToSnake. cbn [gsub upper_letter].
  destruct (is_upper c); reflexivity.
Qed.

Lemma camelToSnake_app (s t : list N) :
  camelToSnake (s ++ t) = camelToSnake s ++ camelToSnake t.
Proof.
  induction s as [|c s IH]; [reflexivity|].
  cbn [app]. now rewrite !camelToSnake_cons, IH, app_assoc.
Qed.

Lemma camelToSnake_lower (s : list N) :
  forallb (fun c => negb (is_upper c)) s = true -> camelToSnake s = s.
Proof.
  induction s as [|c s IH]; [reflexivity|]. cbn [forallb].
  intros [Hc Hs]%andb_true_iff. rewrite camelToSnake_cons, IH by exact Hs.
  apply negb_true_iff in Hc. now rewrite Hc.
Qed.

Lemma camelToSnake_no_upper (s : list N) :
  forallb (fun c => negb (is_upper c)) (camelToSnake s) = true.
Proof.
  induction s as [|c s IH]; [reflexivity|].
  rewrite camelToSnake_cons, forallb_app, IH, andb_true_r.
  destruct (is_upper c) eqn:E.
  - unfold is_upper in *. cbn [forallb]. rewrite !andb_true_r.
    apply andb_true_iff in E as [E1 E2].
    apply N.leb_le in E1, E2. apply andb_true_iff. split; [reflexivity|].
    apply negb_true_iff, andb_false_iff. right. apply N.leb_gt. lia.
  - cbn [forallb]. now rewrite E.
Qed.

(** [camelToSnake] puts an underscore and the lower-case letter for
    every letter from A to Z and leaves the other characters: the result
    has no such letter, is one character longer for each of them, and is
    left unchanged by a second pass. *)
Theorem camelToSnake_snake (s : list N) :
  forallb (fun c => negb (is_upper c)) (camelToSnake s) = true /\
  length (camelToSnake s) = (length s + length (List.filter is_upper s))%nat /\
  camelToSnake (camelToSnake s) = camelToSnake s.
Proof.
  split; [apply camelToSnake_no_upper|]. split.
  - induction s as [|c s IH]; [reflexivity|].
    rewrite camelToSnake_cons, length_app, IH. cbn [List.filter].
    destruct (is_upper c); cbn; lia.
  - apply camelToSnake_lower, camelToSnake_no_upper.
Qed.

Lemma other_char_cons (c : N) (s : list N) :
  gsub other_char 0 (c :: s)
  = (if ident_char c then c else UNDERSCORE) :: gsub other_char 0 s.
Proof. cbn [gsub other_char]. destruct (ident_char c); reflexivity. Qed.

(** Whatever the collection name and whatever [toLowerCase] makes of it,
    the table name is [collection_] followed by one character for each
    character of the lower-cased name, and consists of the letters a to
    z, digits and underscores only. *)
Theorem sanitizeTableName_identifier (toLowerCase : list N -> list N)
    (name : list N) :
  exists body,
    sanitizeTableName toLowerCase name = str "collection_" ++ body /\
    length body = length (toLowerCase name) /\
    forallb ident_char (sanitizeTableName toLowerCase name) = true.
Proof.
  unfold sanitizeTableName. eexists. split; [reflexivity|].
  generalize (toLowerCase name) as s. intros s. split.
  - induction s as [|c s IH]; [reflexivity|].
    rewrite other_char_cons. cbn [length]. now rewrite IH.
  - rewrite forallb_app. apply andb_true_iff. split; [reflexivity|].
    induction s as [|c s IH]; [reflexivity|].
    rewrite other_char_cons. cbn [forallb]. rewrite IH, andb_true_r.
    destruct (ident_char c) eqn:E; [exact E | reflexivity].
Qed.

End SqlText.

(** ** The extension filter of a search, from the request to SQL text *)

Module SearchFilter.
Import Js JsFacts PostgresVectorDatabase SqlText.

(** An element of the [extensionFilter] array: a string or anything
    else. *)
Inductive JsValue := JsString (s : list N) | JsOther.

Definition strings (vs : list JsValue) : list (list N) :=
  flat_map (fun v => match v with JsString s => [s] | JsOther => [] end) vs.

(** [xs.join(sep)] *)
Fixpoint join (sep : list N) (xs : list (list N)) : list N :=
  match xs with
  | [] => []
  | [x] => x
  | x :: rest => x ++ sep ++ join sep rest
  end.

(** [e.startsWith('.') && e.length > 1 && !/\s/.test(e)] *)
Definition valid_extension (e : list N) : bool :=
  starts_with (str ".") e && (1 <? length e)%nat
  && negb (existsb is_space e).

Definition cleaned (extensionFilter : list JsValue) : list (list N) :=
  List.filter (fun v => (0 <? length v)%nat)
    (map trim (strings extensionFilter)).

Definition quoted (exts : list (list N)) : list N :=
  join (str ", ") (map (fun e => [QUOTE] ++ e ++ [QUOTE]) exts).

(** The filter block of [handleSearchCode]: the invalid extensions that
    make the request fail, or the filter expression, if any. *)
Definition extension_filter (extensionFilter : option (list JsValue))
  : list (list N) + option (list N) :=
  match extensionFilter with
  | Some (v :: vs) =>
      let cleaned := cleaned (v :: vs) in
      let invalid := List.filter (fun e => negb (valid_extension e)) cleaned in
      if (0 <? length invalid)%nat then inl invalid
      else inr (Some (str "fileExtension in [" ++ quoted cleaned ++ str "]"))
  | _ => inr None
  end.

(** *** Patterns and separators *)

Lemma starts_with_sep (pat a b : list N) (c : N) :
  ~ In c pat -> starts_with pat (a ++ c :: b) = starts_with pat a.
Proof.
  revert a. induction pat as [|p pat IH]; intros a Hc; [now destruct a|].
  destruct a as [|x a]; cbn [app starts_with].
  - destruct (N.eqb_spec p c) as [-> | _]; [|reflexivity].
    exfalso. apply Hc. now left.
  - rewrite IH; [reflexivity|]. intros H. apply Hc. now right.
Qed.

Lemma occurs_nil (pat : list N) : pat <> [] -> occurs pat [] = false.
Proof. now destruct pat. Qed.

Lemma occurs_sep (pat a b : list N) (c : N) :
  pat <> [] -> ~ In c pat ->
  occurs pat (a ++ c :: b) = occurs pat a || occurs pat b.
Proof.
  intros Hne Hc. induction a as [|x a IH].
  - cbn [app]. rewrite (occurs_nil pat Hne). cbn [orb].
    change (occurs pat (c :: b))
      with (starts_with pat (c :: b) || occurs pat b).
    pose proof (starts_with_sep pat [] b c Hc) as H. cbn [app] in H.
    rewrite H. now destruct pat.
  - change (occurs pat ((x :: a) ++ c :: b))
      with (starts_with pat ((x :: a) ++ c :: b)
            || occurs pat (a ++ c :: b)).
    change (occurs pat (x :: a))
      with (starts_with pat (x :: a) || occurs pat a).
    now rewrite starts_with_sep, IH, orb_assoc.
Qed.

Lemma starts_with_needs (pat s : list N) (c : N) :
  In c pat -> ~ In c s -> starts_with pat s = false.
Proof.
  revert s. induction pat as [|p pat IH]; intros s Hp Hs; [destruct Hp|].
  destruct s as [|x s]; [reflexivity|]. cbn [starts_with].
  destruct (N.eqb_spec p x) as [-> | _]; [|reflexivity]. cbn [andb].
  destruct Hp as [-> | Hp]; [exfalso; apply Hs; now left|].
  apply IH; [exact Hp|]. intros H. apply Hs. now right.
Qed.

Lemma occurs_needs (pat s : list N) (c : N) :
  In c pat -> ~ In c s -> occurs pat s = false.
Proof.
  intros Hp. induction s as [|x s IH]; intros Hs.
  - cbn. rewrite (starts_with_needs pat [] c Hp Hs). reflexivity.
  - change (occurs pat (x :: s))
      with (starts_with pat (x :: s) || occurs pat s).
    rewrite (starts_with_needs pat (x :: s) c Hp Hs), IH; [reflexivity|].
    intros H. apply Hs. now right.
Qed.

Lemma occurs_sep_head (pat b : list N) (c : N) :
  pat <> [] -> ~ In c pat -> occurs pat (c :: b) = occurs pat b.
Proof.
  intros Hne Hc. pose proof (occurs_sep pat [] b c Hne Hc) as H.
  cbn [app] in H. now rewrite H, (occurs_nil pat Hne).
Qed.

Lemma occurs_sep_last (pat a : list N) (c : N) :
  pat <> [] -> ~ In c pat -> occurs pat (a ++ [c]) = occurs pat a.
Proof.
  intros Hne Hc.
  now rewrite (occurs_sep pat a [] c Hne Hc), (occurs_nil pat Hne),
    orb_false_r.
Qed.

(** A pattern without a quote that occurs in no extension and not in the
    separator does not occur in the quoted list. *)
Lemma occurs_quoted (pat : list N) (exts : list (list N)) :
  pat <> [] -> ~ In QUOTE pat -> occurs pat (str ", ") = false ->
  Forall (fun e => occurs pat e = false) exts ->
  occurs pat (quoted exts) = false.
Proof.
  intros Hne Hq Hsep. unfold quoted.
  induction 1 as [|e exts He Hexts IH]; [now apply occurs_nil|].
  assert (occurs pat ([QUOTE] ++ e ++ [QUOTE]) = false) as Hone.
  { cbn [app]. now rewrite (occurs_sep_head pat _ QUOTE Hne Hq),
      (occurs_sep_last pat e QUOTE Hne Hq). }
  cbn [map join]. destruct exts as [|e' exts]; [exact Hone|].
  cbn [map] in *.
  set (rest := join (str ", ") (_ :: map _ exts)) in *.
  assert (exists tail, rest = QUOTE :: tail) as [tail Htail].
  { subst rest. cbn [join]. destruct (map _ exts); cbn; eauto. }
  rewrite Htail in *.
  replace (([QUOTE] ++ e ++ [QUOTE]) ++ str ", " ++ QUOTE :: tail)
    with (([QUOTE] ++ e ++ [QUOTE] ++ str ", ") ++ QUOTE :: tail)
    by now rewrite <- !app_assoc.
  rewrite (occurs_sep pat _ tail QUOTE Hne Hq).
  rewrite (occurs_sep_head pat tail QUOTE Hne Hq) in IH. rewrite IH.
  rewrite orb_false_r. cbn [app].
  rewrite (occurs_sep_head pat _ QUOTE Hne Hq).
  now rewrite (occurs_sep pat e (str ", ") QUOTE Hne Hq), He, Hsep.
Qed.

(** *** The translation of a bracketed list *)

Lemma gsub_skip (matcher : list N -> option (list N * nat)) (s : list N) :
  forall k, gsub matcher k s = gsub matcher 0 (skipn k s).
Proof.
  induction s as [|c s IH]; intros [|k]; try reflexivity.
  cbn [gsub skipn]. apply IH.
Qed.

Lemma take_until_stop (stop : N) (q rest : list N) :
  ~ In stop q -> take_until stop (q ++ stop :: rest) = q.
Proof.
  induction q as [|c q IH]; intros Hq; cbn [app take_until].
  - now rewrite N.eqb_refl.
  - destruct (N.eqb_spec c stop) as [-> | _];
      [exfalso; apply Hq; now left|].
    rewrite IH; [reflexivity|]. intros H. apply Hq. now right.
Qed.

Lemma gsub_cons_unmatched (matcher : list N -> option (list N * nat))
    (c : N) (s : list N) :
  matcher (c :: s) = None ->
  gsub matcher 0 (c :: s) = c :: gsub matcher 0 s.
Proof. intros H. cbn [gsub]. now rewrite H. Qed.

Lemma gsub_cons_matched (matcher : list N -> option (list N * nat))
    (c : N) (s replacement : list N) (n : nat) :
  matcher (c :: s) = Some (replacement, n) ->
  gsub matcher 0 (c :: s)
  = replacement ++ gsub matcher 0 (skipn (pred n) s).
Proof. intros H. cbn [gsub]. now rewrite H, gsub_skip. Qed.

(** Passing over characters at which the pattern does not match. *)
Ltac pass_unmatched :=
  repeat match goal with
         | |- context [gsub ?m 0 (?c :: ?s)] =>
             rewrite (gsub_cons_unmatched m c s) by reflexivity
         end.

Lemma in_list_bracket (q : list N) :
  q <> [] -> ~ In RBRACKET q ->
  in_list (str " in [" ++ q ++ [RBRACKET])
  = Some (str " IN (" ++ q ++ str ")", (5 + length q + 1)%nat).
Proof.
  intros Hne Hq. unfold in_list. cbv zeta.
  change (starts_with (str " in [") (str " in [" ++ q ++ [RBRACKET]))
    with true. cbv iota.
  change (skipn (length (str " in [")) (str " in [" ++ q ++ [RBRACKET]))
    with (q ++ [RBRACKET]).
  rewrite (take_until_stop RBRACKET q [] Hq).
  destruct q as [|c q']; [congruence|].
  rewrite skipn_app, skipn_all, Nat.sub_diag. cbn [app skipn].
  now rewrite N.eqb_refl.
Qed.

(** The patterns of [parseFilterExpression] and the characters it
    treats specially do not occur in the text. *)
Definition plain (q : list N) : bool :=
  unrecognized q && negb (existsb (N.eqb RBRACKET) q)
  && negb (existsb (N.eqb SEMICOLON) q).

Lemma not_existsb (c : N) (q : list N) :
  existsb (N.eqb c) q = false -> ~ In c q.
Proof.
  intros H Hin. assert (existsb (N.eqb c) q = true) as H'; [|congruence].
  apply existsb_exists. exists c. split; [exact Hin | apply N.eqb_refl].
Qed.

Lemma filter_all {A} (keep : A -> bool) (l : list A) :
  (forall x, In x l -> keep x = true) -> List.filter keep l = l.
Proof.
  induction l as [|x l IH]; intros H; [reflexivity|]. cbn.
  rewrite (H x) by now left. f_equal. apply IH. intros y Hy. apply H.
  now right.
Qed.

(** String literals as their code units. *)
Ltac units :=
  repeat match goal with
         | |- context [str ?s] =>
             let v := eval vm_compute in (str s) in change (str s) with v
         end.

Lemma rewrite_aliases_bracket (q : list N) :
  q <> [] -> unrecognized q = true -> ~ In RBRACKET q ->
  rewrite_aliases (str "fileExtension in [" ++ q ++ [RBRACKET])
  = str "file_extension IN (" ++ q ++ str ")".
Proof.
  intros Hne Hun Hbr.
  unfold unrecognized in Hun. rewrite !andb_true_iff, !negb_true_iff in Hun.
  destruct Hun as [[[[[H1 H2] H3] H4] H5] H6].
  assert (forall pat repl, pat <> [] -> ~ In RBRACKET pat ->
            occurs pat q = false ->
            gsub (literal pat repl) 0 (q ++ [RBRACKET]) = q ++ [RBRACKET])
    as Hrest.
  { intros pat repl Hp Hb Ho. apply (replace_all_unmatched pat repl).
    now rewrite occurs_sep_last. }
  assert (gsub in_list 0 (q ++ [RBRACKET]) = q ++ [RBRACKET]) as Hlist.
  { apply (gsub_unmatched _ (str " in ["));
      [intros t Ht; unfold in_list; now rewrite Ht|].
    rewrite occurs_sep_last;
      [assumption | discriminate | vm_compute; intuition discriminate]. }
  pose proof (in_list_bracket q Hne Hbr) as Hin.
  unfold rewrite_aliases, replace_all.
  revert Hin. units. intros Hin. cbn [app] in *.
  pass_unmatched.
  rewrite (Hrest (str "relativePath"))
    by (assumption || discriminate || (vm_compute; intuition discriminate)).
  pass_unmatched.
  rewrite (Hrest (str "startLine"))
    by (assumption || discriminate || (vm_compute; intuition discriminate)).
  pass_unmatched.
  rewrite (Hrest (str "endLine"))
    by (assumption || discriminate || (vm_compute; intuition discriminate)).
  erewrite gsub_cons_matched by reflexivity.
  cbn [pred length skipn app].
  pass_unmatched.
  rewrite (Hrest (str "fileExtension"))
    by (assumption || discriminate || (vm_compute; intuition discriminate)).
  pass_unmatched.
  rewrite (Hrest (str " == "))
    by (assumption || discriminate || (vm_compute; intuition discriminate)).
  pass_unmatched.
  rewrite (gsub_cons_matched in_list _ _ _ _ Hin).
  cbn [Nat.add pred skipn].
  rewrite skipn_all2 by (rewrite length_app; cbn; lia).
  cbn [gsub]. now rewrite app_nil_r.
Qed.

Lemma parse_bracket (q : list N) :
  q <> [] -> plain q = true ->
  parseFilterExpression (str "fileExtension in [" ++ q ++ [RBRACKET])
  = str "file_extension IN (" ++ q ++ str ")".
Proof.
  intros Hne Hplain. unfold plain in Hplain.
  rewrite !andb_true_iff, !negb_true_iff in Hplain.
  destruct Hplain as [[Hun Hbr%not_existsb] Hsemi%not_existsb].
  unfold parseFilterExpression, strip_semicolons, replace_all.
  rewrite (rewrite_aliases_bracket q Hne Hun Hbr), gsub_semicolon_filter.
  rewrite filter_all; [reflexivity|].
  intros c Hc. apply negb_true_iff, N.eqb_neq. intros ->.
  apply in_app_or in Hc as [Hc | Hc];
    [revert Hc; vm_compute; intuition discriminate|].
  apply in_app_or in Hc as [Hc | Hc]; [now apply Hsemi|].
  revert Hc. vm_compute. intuition discriminate.
Qed.

(** *** From the request to the WHERE text *)

(** None of the field names that [parseFilterExpression] rewrites occurs
    in the extension, and neither [\]] nor [;]. *)
Definition names_free (e : list N) : bool :=
  negb (occurs (str "relativePath") e)
  && negb (occurs (str "startLine") e)
  && negb (occurs (str "endLine") e)
  && negb (occurs (str "fileExtension") e)
  && negb (existsb (N.eqb RBRACKET) e)
  && negb (existsb (N.eqb SEMICOLON) e).

Lemma In_join (sep : list N) (xs : list (list N)) (c : N) :
  In c (join sep xs) -> In c sep \/ exists x, In x xs /\ In c x.
Proof.
  induction xs as [|x xs IH]; [intros []|]. cbn [join].
  destruct xs as [|y xs].
  - intros H. right. exists x. split; [now left | exact H].
  - intros H. apply in_app_or in H as [H | H];
      [right; exists x; split; [now left | exact H]|].
    apply in_app_or in H as [H | H]; [now left|].
    destruct (IH H) as [Hs | (z & Hz & Hc)]; [now left|].
    right. exists z. split; [now right | exact Hc].
Qed.

Lemma In_quoted (exts : list (list N)) (c : N) :
  In c (quoted exts) ->
  c = QUOTE \/ In c (str ", ") \/ exists e, In e exts /\ In c e.
Proof.
  intros H. apply In_join in H as [H | (x & Hx & Hc)]; [now right; left|].
  apply in_map_iff in Hx as (e & <- & He). cbn [app] in Hc.
  destruct Hc as [<- | Hc]; [now left|].
  apply in_app_or in Hc as [Hc | [<- | []]]; [|now left].
  right. right. eauto.
Qed.

Lemma quoted_plain (exts : list (list N)) :
  Forall (fun e => valid_extension e = true) exts ->
  Forall (fun e => names_free e = true) exts ->
  plain (quoted exts) = true.
Proof.
  intros Hvalid Hfree. rewrite List.Forall_forall in Hvalid, Hfree.
  assert (forall e, In e exts -> ~ In 32%N e) as Hspace.
  { intros e He Hin. specialize (Hvalid e He). unfold valid_extension in Hvalid.
    apply andb_true_iff in Hvalid as [_ Hws].
    apply negb_true_iff in Hws.
    assert (existsb is_space e = true) as H'; [|congruence].
    apply existsb_exists. exists 32%N. split; [exact Hin | reflexivity]. }
  assert (forall e, In e exts ->
            occurs (str "relativePath") e = false /\
            occurs (str "startLine") e = false /\
            occurs (str "endLine") e = false /\
            occurs (str "fileExtension") e = false /\
            ~ In RBRACKET e /\ ~ In SEMICOLON e) as Hnames.
  { intros e He. specialize (Hfree e He). unfold names_free in Hfree.
    rewrite !andb_true_iff, !negb_true_iff in Hfree.
    destruct Hfree as [[[[[H1 H2] H3] H4] H5%not_existsb] H6%not_existsb].
    repeat split; assumption. }
  assert (forall c, c <> QUOTE -> ~ In c (str ", ") ->
            (forall e, In e exts -> ~ In c e) ->
            existsb (N.eqb c) (quoted exts) = false) as Hchar.
  { intros c Hq Hsep Hexts.
    destruct (existsb (N.eqb c) (quoted exts)) eqn:E; [|reflexivity].
    apply existsb_exists in E as (d & Hd & <-%N.eqb_eq).
    apply In_quoted in Hd as [Hd | [Hd | (e & He & Hd)]];
      [congruence | contradiction | now apply Hexts in Hd]. }
  assert (forall pat, pat <> [] -> ~ In QUOTE pat ->
            occurs pat (str ", ") = false ->
            (forall e, In e exts -> occurs pat e = false) ->
            occurs pat (quoted exts) = false) as Hpat.
  { intros pat H1 H2 H3 H4. apply occurs_quoted; try assumption.
    now apply List.Forall_forall. }
  unfold plain, unrecognized.
  rewrite !(Hpat (str _));
    try discriminate; try reflexivity;
    try (vm_compute; intuition discriminate);
    try (intros e He; now apply (Hnames e He));
    try (intros e He; apply (occurs_needs _ e 32%N);
         [vm_compute; tauto | now apply Hspace]).
  rewrite !Hchar; try reflexivity; try discriminate;
    try (vm_compute; intuition discriminate);
    intros e He; now apply (Hnames e He).
Qed.

Lemma filter_nil {A} (keep : A -> bool) (l : list A) :
  List.filter keep l = [] -> forall x, In x l -> keep x = false.
Proof.
  induction l as [|y l IH]; intros H x []; subst; cbn in H;
    destruct (keep _) eqn:E; try discriminate; auto.
Qed.

(** An extension filter that passes the validation of [handleSearchCode]
    and has at least one usable entry reaches the database as a condition
    on [file_extension]: when no extension contains one of the rewritten
    field names, [\]] or [;], [parseFilterExpression] turns the filter
    expression into [file_extension IN ('e1', 'e2', ...)] with the
    trimmed extensions in the order given, each exactly as it was
    written, single quotes included. *)
Theorem extension_filter_sql (extensionFilter : list JsValue)
    (filterExpr : list N) :
  extension_filter (Some extensionFilter) = inr (Some filterExpr) ->
  cleaned extensionFilter <> [] ->
  Forall (fun e => names_free e = true) (cleaned extensionFilter) ->
  filterExpr
  = str "fileExtension in [" ++ quoted (cleaned extensionFilter) ++ str "]"
  /\ Forall (fun e => valid_extension e = true) (cleaned extensionFilter)
  /\ parseFilterExpression filterExpr
     = str "file_extension IN (" ++ quoted (cleaned extensionFilter)
       ++ str ")".
Proof.
  intros Hrun Hsome Hfree. unfold extension_filter in Hrun.
  destruct extensionFilter as [|v vs]; [discriminate|]. cbv zeta in Hrun.
  set (exts := cleaned (v :: vs)) in *.
  destruct (List.filter (fun e => negb (valid_extension e)) exts) eqn:Hinv;
    [|discriminate].
  cbn [length Nat.ltb Nat.leb] in Hrun. injection Hrun as <-.
  assert (Forall (fun e => valid_extension e = true) exts) as Hvalid.
  { apply List.Forall_forall. intros e He.
    pose proof (filter_nil _ _ Hinv e He) as H.
    now apply negb_false_iff in H. }
  split; [reflexivity|]. split; [exact Hvalid|].
  apply parse_bracket; [|now apply quoted_plain].
  unfold quoted. destruct exts as [|e rest]; [congruence|].
  cbn [map join]. destruct (map _ rest); discriminate.
Qed.

Definition ts_and_py : list JsValue :=
  [JsString (str " .ts"); JsOther; JsString (str ".py "); JsString (str " ")].

Lemma extension_filter_sql_witness :
  extension_filter (Some ts_and_py)
  = inr (Some (str "fileExtension in ['.ts', '.py']")) /\
  cleaned ts_and_py <> [] /\
  Forall (fun e => names_free e = true) (cleaned ts_and_py) /\
  parseFilterExpression (str "fileExtension in ['.ts', '.py']")
  = str "file_extension IN ('.ts', '.py')".
Proof.
  assert (Forall (fun e => names_free e = true) (cleaned ts_and_py)) as Hfree
    by (repeat constructor).
  assert (cleaned ts_and_py <> []) as Hsome by discriminate.
  split; [reflexivity|]. split; [exact Hsome|]. split; [exact Hfree|].
  apply (extension_filter_sql ts_and_py
           (str "fileExtension in ['.ts', '.py']") eq_refl Hsome Hfree).
Defined.

(** White space is all the validation looks for: an extension with a
    single quote in it passes and closes the SQL literal it is put in. *)
Example quote_passes_validation :
  extension_filter (Some [JsString (str ".ts'OR'1'='1")])
  = inr (Some (str "fileExtension in ['.ts'OR'1'='1']")) /\
  parseFilterExpression (str "fileExtension in ['.ts'OR'1'='1']")
  = str "file_extension IN ('.ts'OR'1'='1')".
Proof. split; reflexivity. Qed.

(** A non-empty extension filter none of whose entries is a string with
    a character other than white space passes the validation of
    [handleSearchCode] all the same; the filter expression is then
    [fileExtension in []], which [parseFilterExpression] hands to the
    database as [file_extension in []], the bracket not rewritten. *)
Theorem blank_extension_filter (extensionFilter : list JsValue) :
  extensionFilter <> [] -> cleaned extensionFilter = [] ->
  extension_filter (Some extensionFilter)
  = inr (Some (str "fileExtension in []")) /\
  parseFilterExpression (str "fileExtension in []")
  = str "file_extension in []".
Proof.
  intros Hne Hblank. split; [|reflexivity].
  unfold extension_filter. destruct extensionFilter as [|v vs]; [congruence|].
  cbv zeta. now rewrite Hblank.
Qed.

Lemma blank_extension_filter_witness :
  [JsOther; JsString (str "  ")] <> [] /\
  cleaned [JsOther; JsString (str "  ")] = [] /\
  extension_filter (Some [JsOther; JsString (str "  ")])
  = inr (Some (str "fileExtension in []")) /\
  parseFilterExpression (str "fileExtension in []")
  = str "file_extension in []".
Proof.
  assert ([JsOther; JsString (str "  ")] <> []) as Hne by discriminate.
  split; [exact Hne|]. split; [reflexivity|].
  exact (blank_extension_filter [JsOther; JsString (str "  ")] Hne eq_refl).
Defined.

End SearchFilter.

(** ** The tool handlers: what a start request and its task leave *)

Module IndexingFacts.
Import Js Ranking ToolHandlers.

Section Requests.
Variable COLLECTION_LIMIT_MESSAGE : string.
Variable ensureAbsolutePath : string -> string.





(** The task a request starts. *)
Definition job_of (args : IndexArgs) : Job :=
  {| job_path := ensureAbsolutePath (arg_path args);
     job_force := arg_force args;
     job_splitter := splitter_of args |}.

(** Indexing has begun for the request. *)
Definition started (args : IndexArgs) (w w' : World) : Prop :=
  snapshot w' !! ensureAbsolutePath (arg_path args) = Some (Indexing 0) /\
  saved w' = snapshot w' /\
  tracked w' = tracked w ++ [ensureAbsolutePath (arg_path args)] /\
  jobs w' = jobs w ++ [job_of args] /\
  extensions w' = extensions w ++ arg_customExtensions args /\
  ignorePatterns w' = ignorePatterns w ++ arg_ignorePatterns args.

Lemma begin_indexing_started (args : IndexArgs) (st : St) :
  exists response st',
    begin_indexing (arg_path args) (ensureAbsolutePath (arg_path args))
      (arg_force args) (splitter_of args) (arg_customExtensions args)
      (arg_ignorePatterns args) st = (inr response, st') /\
    isError response = false /\
    started args (world st) (world st').
Proof.
  run.
  destruct (arg_customExtensions args) as [|x xs] eqn:Hx;
    destruct (arg_ignorePatterns args) as [|y ys] eqn:Hy;
    cbn [length Nat.ltb Nat.leb];
    destruct (negb (String.eqb (splitter_of args) "ast")); run;
    (do 2 eexists; split; [reflexivity|]; split; [reflexivity|]);
    unfold started, job_of; cbn; rewrite ?Hx, ?Hy, ?app_nil_r;
    unfold SnapshotManager.setCodebaseIndexing;
    rewrite lookup_insert_eq; repeat split.
Qed.

Lemma begin_indexing_others (args : IndexArgs) (st : St) :
  exists r st',
    begin_indexing (arg_path args) (ensureAbsolutePath (arg_path args))
      (arg_force args) (splitter_of args) (arg_customExtensions args)
      (arg_ignorePatterns args) st = (r, st') /\
    snapshot (world st')
    = <[ensureAbsolutePath (arg_path args) := Indexing 0]>
        (snapshot (world st)) /\
    collections (world st') = collections (world st) /\
    synchronizers (world st') = synchronizers (world st) /\
    indexingStats (world st') = indexingStats (world st).
Proof.
  run.
  destruct (0 <? length (arg_customExtensions args))%nat;
    destruct (0 <? length (arg_ignorePatterns args))%nat;
    destruct (negb (String.eqb (splitter_of args) "ast")); run;
    do 2 eexists; (split; [reflexivity|]); repeat split.
Qed.

(** The [catch] block of [handleIndexCodebase] returns a response for
    every exception. *)
Lemma handleIndexCodebase_returns (env : Backend) (args : IndexArgs)
    (st : St) :
  exists response st',
    handleIndexCodebase COLLECTION_LIMIT_MESSAGE ensureAbsolutePath
      env args st = (inr response, st').
Proof.
  unfold handleIndexCodebase. cbv zeta. unfold try_catch.
  match goal with |- context [match ?body st with _ => _ end] =>
    destruct (body st) as [[error|response] st1] end; [run|]; eauto.
Qed.


(** A request that passes the checks, the database answering that a
    collection can be created, is accepted: the response is no error
    and indexing has begun.  Force is needed only for a path that is
    indexed: a path whose last task failed is taken up again without it.
    The other entries of the snapshot are kept; with [force] the
    collection of the path has been dropped, without it the collections
    are as before. *)
Theorem accepted_request_starts (env : Backend) (args : IndexArgs)
    (st : St) :
  admissible ensureAbsolutePath env args (world st) ->
  checkCollectionLimit env = inr true ->
  exists response st',
    handleIndexCodebase COLLECTION_LIMIT_MESSAGE ensureAbsolutePath
      env args st = (inr response, st') /\
    isError response = false /\
    started args (world st) (world st') /\
    (forall p, p <> ensureAbsolutePath (arg_path args) ->
               snapshot (world st') !! p = snapshot (world st) !! p) /\
    collections (world st')
    = (if arg_force args
       then collections (world st) ∖ {[ensureAbsolutePath (arg_path args)]}
       else collections (world st)).
Proof using Type.
  intros Hadm Hcheck.
  rewrite (handleIndexCodebase_admissible COLLECTION_LIMIT_MESSAGE
             ensureAbsolutePath env args st Hadm), Hcheck.
  cbv zeta.
  set (absolutePath := ensureAbsolutePath (arg_path args)).
  set (st1 := {| world := if arg_force args
                          then cleared absolutePath (world st)
                          else world st;
                 console := console st |}).
  destruct (begin_indexing_started args st1)
    as (response & st' & Hrun & Herr & Hstarted).
  destruct (begin_indexing_others args st1)
    as (r' & st'' & Hrun' & Hsnap & Hcols & _).
  fold absolutePath in Hrun, Hrun', Hsnap. rewrite Hrun in Hrun'.
  injection Hrun' as <- <-.
  exists response, st'. split; [exact Hrun|]. split; [exact Herr|].
  split; [|split].
  - destruct Hstarted as (S1 & S2 & S3 & S4 & S5 & S6).
    unfold started. fold absolutePath.
    rewrite S3, S4, S5, S6. subst st1. cbn [world].
    destruct (arg_force args); repeat split; assumption.
  - intros p Hp. rewrite Hsnap, lookup_insert_ne by congruence.
    subst st1. cbn [world]. destruct (arg_force args); [|reflexivity].
    cbn. unfold SnapshotManager.removeIndexedCodebase.
    destruct (snapshot (world st) !! absolutePath) as [[]|];
      try reflexivity.
    now apply lookup_delete_ne.
  - rewrite Hcols. subst st1. cbn [world].
    now destruct (arg_force args).
Qed.

End Requests.

(** *** A task that ends well *)

Section Tasks.
Variable Context : Type.
Variable indexCodebase : Context -> string -> IndexRun.
Variable this_context : Context.

Lemma after_reports_frame (absolutePath : string)
    (reports : list (Q * Z)) :
  forall (lastSaveTime : Z) (w : World),
    let w' := snd (after_reports absolutePath lastSaveTime reports w) in
    collections w' = collections w /\ synchronizers w' = synchronizers w /\
    jobs w' = jobs w /\ tracked w' = tracked w.
Proof.
  induction reports as [|[percentage currentTime] rest IH];
    intros lastSaveTime w; cbn [after_reports]; [repeat split|].
  destruct (currentTime - lastSaveTime >=? 2000);
    match goal with |- context [after_reports _ ?t _ ?w1] =>
      destruct (IH t w1) as (H1 & H2 & H3 & H4) end;
    cbv zeta in *; rewrite H1, H2, H3, H4; repeat split.
Qed.

(** A task whose preparation and [indexCodebase] do not throw ends
    without throwing; the path is then indexed with the statistics that
    [indexCodebase] returned, whatever their status, complete or cut
    short at the chunk limit; this snapshot is the one saved, the
    statistics are kept as the indexing statistics, and the codebase has
    a collection and a synchronizer.  Nothing is printed but the warning
    that a splitter other than [ast] is not used. *)
Theorem background_success_recorded (prep : Preparation)
    (absolutePath : string) (forceReindex : bool) (splitterType : string)
    (stats : Stats) (st : St) :
  setup_fault prep = None -> collection_fault prep = None ->
  outcome (indexCodebase this_context absolutePath) = inr stats ->
  exists st',
    startBackgroundIndexing Context indexCodebase this_context prep
      absolutePath forceReindex splitterType st = (inr tt, st') /\
    snapshot (world st') !! absolutePath = Some (Indexed stats) /\
    saved (world st') = snapshot (world st') /\
    indexingStats (world st')
    = Some (indexedFiles stats, totalChunks stats) /\
    collections (world st') = {[absolutePath]} ∪ collections (world st) /\
    synchronizers (world st')
    = {[absolutePath]} ∪ synchronizers (world st) /\
    jobs (world st') = jobs (world st) /\
    console st'
    = console st ++ (if String.eqb splitterType "ast" then []
                     else [warn_non_ast_splitter splitterType]).
Proof.
  intros Hsetup Hcollection Hout.
  unfold startBackgroundIndexing. cbv zeta. unfold try_catch.
  rewrite Hsetup, Hcollection.
  destruct (String.eqb splitterType "ast"); cbn [negb]; run;
    rewrite progress_loop_eq; run; rewrite Hout; run;
    (eexists; split; [reflexivity|]);
    match goal with |- context [after_reports _ ?t _ ?w1] =>
      destruct (after_reports_frame absolutePath
                  (progress (indexCodebase this_context absolutePath)) t w1)
        as (H1 & H2 & H3 & H4) end;
    cbv zeta in *;
    cbn [world console snapshot saved indexingStats collections
         synchronizers jobs save_snapshot set_indexingStats set_snapshot
         set_synchronizers set_collections] in *;
    unfold SnapshotManager.setCodebaseIndexed;
    rewrite lookup_insert_eq, ?app_nil_r; repeat split; assumption.
Qed.

End Tasks.

(** *** /repo after a failure, and a run that ends at the chunk limit *)

Definition failed_world : World :=
  world_with {[ "/repo" := IndexFailed "connection lost" (Some (50 # 1)%Q) ]}
             {[ "/repo" ]}.

Lemma accepted_request_starts_witness :
  admissible demo_absolute (demo_env true) (demo_args false (Some "ast"))
    (world (quiet failed_world)) /\
  checkCollectionLimit (demo_env true) = inr true /\
  exists response st',
    handleIndexCodebase demo_limit_message demo_absolute (demo_env true)
      (demo_args false (Some "ast")) (quiet failed_world)
    = (inr response, st') /\
    isError response = false /\
    started demo_absolute (demo_args false (Some "ast"))
      (world (quiet failed_world)) (world st') /\
    (forall p, p <> demo_absolute (arg_path (demo_args false (Some "ast"))) ->
               snapshot (world st') !! p
               = snapshot (world (quiet failed_world)) !! p) /\
    collections (world st')
    = (if arg_force (demo_args false (Some "ast"))
       then collections (world (quiet failed_world))
            ∖ {[demo_absolute (arg_path (demo_args false (Some "ast")))]}
       else collections (world (quiet failed_world))).
Proof.
  assert (admissible demo_absolute (demo_env true)
            (demo_args false (Some "ast")) (world (quiet failed_world)))
    as Hadm.
  { apply demo_admissible; [now left | | right];
      vm_compute; discriminate. }
  split; [exact Hadm|]. split; [reflexivity|].
  exact (accepted_request_starts demo_limit_message demo_absolute
           (demo_env true) (demo_args false (Some "ast"))
           (quiet failed_world) Hadm eq_refl).
Defined.

Definition cut_short : Stats :=
  {| indexedFiles := 900; totalChunks := 450000; status := limit_reached |}.

Definition limited_indexCodebase (_ : unit) (_ : string) : IndexRun :=
  {| progress := [((60 # 1)%Q, 2500)]; outcome := inr cut_short |}.

Lemma background_success_recorded_witness :
  setup_fault no_faults = None /\ collection_fault no_faults = None /\
  outcome (limited_indexCodebase tt "/repo") = inr cut_short /\
  exists st',
    startBackgroundIndexing unit limited_indexCodebase tt no_faults "/repo"
      false "langchain" (quiet indexing_world) = (inr tt, st') /\
    snapshot (world st') !! "/repo" = Some (Indexed cut_short) /\
    saved (world st') = snapshot (world st') /\
    indexingStats (world st')
    = Some (indexedFiles cut_short, totalChunks cut_short) /\
    collections (world st')
    = {["/repo"]} ∪ collections (world (quiet indexing_world)) /\
    synchronizers (world st')
    = {["/repo"]} ∪ synchronizers (world (quiet indexing_world)) /\
    jobs (world st') = jobs (world (quiet indexing_world)) /\
    console st'
    = console (quiet indexing_world)
      ++ (if String.eqb "langchain" "ast" then []
          else [warn_non_ast_splitter "langchain"]).
Proof.
  split; [reflexivity|]. split; [reflexivity|]. split; [reflexivity|].
  exact (background_success_recorded unit limited_indexCodebase tt no_faults
           "/repo" false "langchain" cut_short (quiet indexing_world)
           eq_refl eq_refl eq_refl).
Defined.

End IndexingFacts.

(** ** The tool handlers: searching one codebase *)

Module SearchHandler.
Import Js Ranking ToolHandlers SearchFilter IndexingFacts.

(** The arguments of a search request: [path] absent or null, [limit]
    absent, [extensionFilter] absent or not an array are [None]. *)
Record SearchArgs := {
  search_path : option string;
  search_query : string;
  search_limit_arg : option N;
  search_extensionFilter : option (list JsValue)
}.

(** [limit = 10] in the parameter list, then [limit || 10] *)
Definition resultLimit_of (args : SearchArgs) : N :=
  match search_limit_arg args with
  | Some n => if (n =? 0)%N then 10%N else n
  | None => 10%N
  end.

(** [s.includes(pat)] *)
Fixpoint includes_text (s pat : string) : bool :=
  String.prefix pat s
  || match s with
     | String _ s' => includes_text s' pat
     | EmptyString => false
     end.

Section SearchCode.

(** From the core package, [utils.js] and [path], none of them among
    the sources; the text of the request as a JavaScript string, and
    [JSON.stringify] and [instanceof Error], left to the engine. *)
Variable COLLECTION_LIMIT_MESSAGE : string.
Variable ensureAbsolutePath : string -> string.
Variable semanticSearch :
  string -> string -> N -> option string -> Exn + list SearchResult.
Variable basename : string -> string.
Variable formatResult : nat -> Item -> string.
Variable formatHit : string -> nat -> SearchResult -> string.
Variable text_of : list N -> string.
Variable JSON_stringify : list (list N) -> string.
Variable instanceof_Error : Exn -> bool.

(** [typeof error === 'string' ? error
     : (error instanceof Error ? error.message : String(error))]:
    for a thrown string [String(error)] is the string itself. *)
Definition errorMessage_of (error : Exn) : string :=
  if instanceof_Error error then message error else as_string error.

Definition no_hits_text (query absolutePath : string) (indexingNow : bool)
  : string :=
  "No results found for query: " +:+ quote +:+ query +:+ quote
  +:+ " in codebase '" +:+ absolutePath +:+ "'"
  +:+ (if indexingNow
       then nl +:+ nl +:+ "Note: This codebase is still being indexed. Try searching again after indexing completes, or the query may not match any indexed content."
       else "").

Definition hits_text (query absolutePath : string) (indexingNow : bool)
    (searchResults : list SearchResult) : string :=
  let indexingStatusMessage :=
    if indexingNow
    then nl +:+ "⚠️  **Indexing in Progress**: This codebase is currently being indexed in the background. Search results may be incomplete until indexing completes."
    else "" in
  "Found " +:+ pretty (length searchResults) +:+ " results for query: "
  +:+ quote +:+ query +:+ quote +:+ " in codebase '" +:+ absolutePath
  +:+ "'" +:+ indexingStatusMessage +:+ nl +:+ nl
  +:+ String.concat nl (imap (formatHit absolutePath) searchResults)
  +:+ (if indexingNow
       then nl +:+ nl +:+ "💡 **Tip**: This codebase is still being indexed. More results may become available as indexing progresses."
       else "").

(** The search of one codebase, once the path is known to be a
    directory. *)
Definition search_tracked (query absolutePath : string) (resultLimit : N)
    (filterExpr : option string) : M Response :=
  modify (track absolutePath);;
  isIndexed ← gets (fun w =>
     includes (SnapshotManager.getIndexedCodebases (snapshot w))
              absolutePath);
  isIndexingNow ← gets (fun w =>
     includes (SnapshotManager.getIndexingCodebases (snapshot w))
              absolutePath);
  if negb isIndexed && negb isIndexingNow
  then mret {| text := "Error: Codebase '" +:+ absolutePath
                 +:+ "' is not indexed. Please index it first using the index_codebase tool.";
               isError := true |}
  else
    searchResults ←
      match semanticSearch absolutePath query (N.min resultLimit 50)
              filterExpr with
      | inl e => throw e
      | inr rs => mret rs
      end;
    if (length searchResults =? 0)%nat
    then mret {| text := no_hits_text query absolutePath isIndexingNow;
                 isError := false |}
    else mret {| text := hits_text query absolutePath isIndexingNow
                           searchResults;
                 isError := false |}.

Definition handleSearchCode (env : Backend) (args : SearchArgs)
  : M Response :=
  let query := search_query args in
  let resultLimit := resultLimit_of args in
  try_catch
    (match extension_filter (search_extensionFilter args) with
     | inl invalid =>
         mret {| text := "Error: Invalid file extensions in extensionFilter: "
                   +:+ JSON_stringify invalid
                   +:+ ". Use proper extensions like '.ts', '.py'.";
                 isError := true |}
     | inr filter =>
         let filterExpr := option_map text_of filter in
         match search_path args with
         | None =>
             searchAllCodebases semanticSearch basename formatResult
               query resultLimit filterExpr
         | Some codebasePath =>
             let absolutePath := ensureAbsolutePath codebasePath in
             if negb (existsSync env absolutePath)
             then mret {| text := "Error: Path '" +:+ absolutePath
                            +:+ "' does not exist. Original input: '"
                            +:+ codebasePath +:+ "'";
                          isError := true |}
             else if negb (isDirectory env absolutePath)
             then mret {| text := "Error: Path '" +:+ absolutePath
                            +:+ "' is not a directory";
                          isError := true |}
             else search_tracked query absolutePath resultLimit filterExpr
         end
     end)
    (fun error =>
       let errorMessage := errorMessage_of error in
       if String.eqb errorMessage COLLECTION_LIMIT_MESSAGE
          || includes_text errorMessage COLLECTION_LIMIT_MESSAGE
       then mret {| text := COLLECTION_LIMIT_MESSAGE; isError := false |}
       else mret {| text := "Error searching code: " +:+ errorMessage
                      +:+ " Please check if the codebase has been indexed first.";
                    isError := true |}).

End SearchCode.

(** *** What a search does and does not do *)

Section SearchFacts.
Variable COLLECTION_LIMIT_MESSAGE : string.
Variable ensureAbsolutePath : string -> string.
Variable semanticSearch :
  string -> string -> N -> option string -> Exn + list SearchResult.
Variable basename : string -> string.
Variable formatResult : nat -> Item -> string.
Variable formatHit : string -> nat -> SearchResult -> string.
Variable text_of : list N -> string.
Variable JSON_stringify : list (list N) -> string.
Variable instanceof_Error : Exn -> bool.

Lemma searchAllCodebases_frame (query : string) (resultLimit : N)
    (filterExpr : option string) (st : St) :
  exists response st',
    searchAllCodebases semanticSearch basename formatResult query
      resultLimit filterExpr st = (inr response, st') /\
    world st' = world st.
Proof.
  unfold searchAllCodebases.
  unfold mbind at 1, M_bind at 1. unfold gets at 1. cbv beta iota.
  unfold mbind at 1, M_bind at 1. unfold gets at 1. cbv beta iota zeta.
  destruct (length _ =? 0)%nat; [run; eauto|].
  unfold mbind at 1, M_bind at 1. rewrite search_loop_spec.
  cbn [app orb]. destruct (length _ =? 0)%nat; run; eauto.
Qed.

(** The state after the path has been tracked. *)
Definition tracked_state (absolutePath : string) (st : St) : St :=
  {| world := track absolutePath (world st); console := console st |}.

Lemma search_tracked_run (query absolutePath : string) (resultLimit : N)
    (filterExpr : option string) (st : St) :
  let known :=
    includes (SnapshotManager.getIndexedCodebases (snapshot (world st)))
             absolutePath
    || includes (SnapshotManager.getIndexingCodebases (snapshot (world st)))
                absolutePath in
  let indexingNow :=
    includes (SnapshotManager.getIndexingCodebases (snapshot (world st)))
             absolutePath in
  search_tracked semanticSearch formatHit query absolutePath resultLimit
    filterExpr st
  = (if known then
       match semanticSearch absolutePath query (N.min resultLimit 50)
               filterExpr with
       | inl e => inl e
       | inr rs =>
           inr {| text := if (length rs =? 0)%nat
                          then no_hits_text query absolutePath indexingNow
                          else hits_text formatHit query absolutePath
                                 indexingNow rs;
                  isError := false |}
       end
     else inr {| text := "Error: Codebase '" +:+ absolutePath
                   +:+ "' is not indexed. Please index it first using the index_codebase tool.";
                 isError := true |},
     tracked_state absolutePath st).
Proof.
  cbv zeta. unfold search_tracked, tracked_state. run.
  destruct (includes (SnapshotManager.getIndexedCodebases _) absolutePath);
    destruct (includes (SnapshotManager.getIndexingCodebases _)
                absolutePath); cbn [negb andb orb]; try reflexivity;
    destruct (semanticSearch absolutePath query (N.min resultLimit 50)
                filterExpr) as [e|rs]; run; try reflexivity;
    destruct (length rs =? 0)%nat; reflexivity.
Qed.

Lemma handleSearchCode_frame (env : Backend) (args : SearchArgs)
    (st : St) :
  exists r st',
    handleSearchCode COLLECTION_LIMIT_MESSAGE ensureAbsolutePath
      semanticSearch basename formatResult formatHit text_of JSON_stringify
      instanceof_Error env args st = (r, st') /\
    (world st' = world st \/
     exists codebasePath,
       search_path args = Some codebasePath /\
       world st' = track (ensureAbsolutePath codebasePath) (world st)).
Proof.
  unfold handleSearchCode. cbv zeta. unfold try_catch.
  destruct (extension_filter (search_extensionFilter args))
    as [invalid|filter]; [run; eauto|].
  destruct (search_path args) as [codebasePath|].
  - destruct (negb (existsSync env _)); [run; eauto|].
    destruct (negb (isDirectory env _)); [run; eauto|].
    rewrite search_tracked_run. cbv zeta.
    destruct (_ || _);
      [destruct (semanticSearch _ _ _ _) as [e|rs];
       [destruct (_ || _)|]|];
      run; do 2 eexists; (split; [reflexivity|]); right; eauto.
  - destruct (searchAllCodebases_frame (search_query args)
                (resultLimit_of args) (option_map text_of filter) st)
      as (response & st' & -> & Hw).
    eauto.
Qed.

(** The [catch] block of [handleSearchCode] returns a response for every
    exception. *)
Lemma handleSearchCode_returns (env : Backend) (args : SearchArgs)
    (st : St) :
  exists response st',
    handleSearchCode COLLECTION_LIMIT_MESSAGE ensureAbsolutePath
      semanticSearch basename formatResult formatHit text_of JSON_stringify
      instanceof_Error env args st = (inr response, st').
Proof.
  unfold handleSearchCode. cbv zeta. unfold try_catch.
  match goal with |- context [match ?body st with _ => _ end] =>
    destruct (body st) as [[error|response] st1] end; [|eauto].
  destruct (_ || _); run; eauto.
Qed.

(** [handleSearchCode] never throws, whatever the search does, and of
    the world it changes at most the list of tracked paths, to which the
    resolved path of the request is added: snapshot, collections and
    pending tasks stay as they are. *)
Theorem handleSearchCode_responds (env : Backend) (args : SearchArgs)
    (st : St) :
  exists response st',
    handleSearchCode COLLECTION_LIMIT_MESSAGE ensureAbsolutePath
      semanticSearch basename formatResult formatHit text_of JSON_stringify
      instanceof_Error env args st = (inr response, st') /\
    (world st' = world st \/
     exists codebasePath,
       search_path args = Some codebasePath /\
       world st' = track (ensureAbsolutePath codebasePath) (world st)).
Proof.
  destruct (handleSearchCode_returns env args st)
    as (response & st' & Hreturns).
  destruct (handleSearchCode_frame env args st) as (r & st'' & Hrun & Hframe).
  rewrite Hreturns in Hrun. injection Hrun as <- <-.
  exists response, st'. split; [exact Hreturns | exact Hframe].
Qed.

(** The request names a directory and its extension filter passes the
    validation. *)
Definition well_formed (env : Backend) (args : SearchArgs)
    (codebasePath : string) (filter : option (list N)) : Prop :=
  extension_filter (search_extensionFilter args) = inr filter /\
  search_path args = Some codebasePath /\
  existsSync env (ensureAbsolutePath codebasePath) = true /\
  isDirectory env (ensureAbsolutePath codebasePath) = true.

Lemma handleSearchCode_well_formed (env : Backend) (args : SearchArgs)
    (codebasePath : string) (filter : option (list N)) (st : St) :
  well_formed env args codebasePath filter ->
  handleSearchCode COLLECTION_LIMIT_MESSAGE ensureAbsolutePath
    semanticSearch basename formatResult formatHit text_of JSON_stringify
    instanceof_Error env args st
  = try_catch
      (search_tracked semanticSearch formatHit (search_query args)
         (ensureAbsolutePath codebasePath) (resultLimit_of args)
         (option_map text_of filter))
      (fun error =>
         let errorMessage := errorMessage_of instanceof_Error error in
         if String.eqb errorMessage COLLECTION_LIMIT_MESSAGE
            || includes_text errorMessage COLLECTION_LIMIT_MESSAGE
         then mret {| text := COLLECTION_LIMIT_MESSAGE; isError := false |}
         else mret {| text := "Error searching code: " +:+ errorMessage
                        +:+ " Please check if the codebase has been indexed first.";
                      isError := true |}) st.
Proof.
  intros (Hfilter & Hpath & Hexists & Hdir).
  unfold handleSearchCode, try_catch. cbv zeta.
  now rewrite Hfilter, Hpath, Hexists, Hdir.
Qed.

(** When the search of an indexed or indexing codebase throws an error
    whose text contains the collection-limit message, the response is
    that message and is not marked as an error, unlike the refusal of
    [handleIndexCodebase]; the path has been tracked. *)
Theorem search_limit_message_is_no_error (env : Backend)
    (args : SearchArgs) (codebasePath : string) (filter : option (list N))
    (error : Exn) (st : St) :
  well_formed env args codebasePath filter ->
  SnapshotManager.getCodebaseStatus (snapshot (world st))
    (ensureAbsolutePath codebasePath) = indexed \/
  SnapshotManager.getCodebaseStatus (snapshot (world st))
    (ensureAbsolutePath codebasePath) = indexing ->
  semanticSearch (ensureAbsolutePath codebasePath) (search_query args)
    (N.min (resultLimit_of args) 50) (option_map text_of filter)
  = inl error ->
  includes_text (errorMessage_of instanceof_Error error)
    COLLECTION_LIMIT_MESSAGE = true ->
  handleSearchCode COLLECTION_LIMIT_MESSAGE ensureAbsolutePath
    semanticSearch basename formatResult formatHit text_of JSON_stringify
    instanceof_Error env args st
  = (inr {| text := COLLECTION_LIMIT_MESSAGE; isError := false |},
     tracked_state (ensureAbsolutePath codebasePath) st).
Proof.
  intros Hwf Hstatus Hthrow Hlimit.
  rewrite (handleSearchCode_well_formed env args codebasePath filter st Hwf).
  unfold try_catch. rewrite search_tracked_run. cbv zeta.
  assert (includes (SnapshotManager.getIndexedCodebases (snapshot (world st)))
            (ensureAbsolutePath codebasePath)
          || includes (SnapshotManager.getIndexingCodebases
                         (snapshot (world st)))
               (ensureAbsolutePath codebasePath) = true) as ->.
  { apply orb_true_iff.
    destruct Hstatus as [H | H];
      [left; now apply includes_indexed | right; now apply includes_indexing]. }
  rewrite Hthrow, Hlimit, orb_true_r. reflexivity.
Qed.

(** A search in a directory that is neither indexed nor being indexed,
    be it unknown or left [indexfailed] by a failed task, is refused
    with an error without the database being asked; the path is added
    to the tracked paths all the same. *)
Theorem search_refused_unless_indexed (env : Backend) (args : SearchArgs)
    (codebasePath : string) (filter : option (list N)) (st : St) :
  well_formed env args codebasePath filter ->
  SnapshotManager.getCodebaseStatus (snapshot (world st))
    (ensureAbsolutePath codebasePath) <> indexed ->
  SnapshotManager.getCodebaseStatus (snapshot (world st))
    (ensureAbsolutePath codebasePath) <> indexing ->
  handleSearchCode COLLECTION_LIMIT_MESSAGE ensureAbsolutePath
    semanticSearch basename formatResult formatHit text_of JSON_stringify
    instanceof_Error env args st
  = (inr {| text := "Error: Codebase '" +:+ ensureAbsolutePath codebasePath
              +:+ "' is not indexed. Please index it first using the index_codebase tool.";
            isError := true |},
     tracked_state (ensureAbsolutePath codebasePath) st).
Proof.
  intros Hwf Hindexed Hindexing.
  rewrite (handleSearchCode_well_formed env args codebasePath filter st Hwf).
  unfold try_catch. rewrite search_tracked_run. cbv zeta.
  rewrite (not_true_false _
             (fun H => Hindexed (proj1 (includes_indexed _ _) H))).
  rewrite (not_true_false _
             (fun H => Hindexing (proj1 (includes_indexing _ _) H))).
  reflexivity.
Qed.

End SearchFacts.

(** *** Searches in /repo *)

(** A database that has run into its collection limit. *)
Definition limit_error : Exn :=
  {| message := "Search failed: " +:+ demo_limit_message;
     as_string := "Error: Search failed: " +:+ demo_limit_message |}.

Definition full_semanticSearch (_ _ : string) (_ : N) (_ : option string)
  : Exn + list SearchResult := inl limit_error.

Definition demo_formatHit (_ : string) (_ : nat) (r : SearchResult)
  : string := relativePath r.
Definition demo_text_of (_ : list N) : string := "filter".
Definition demo_stringify (_ : list (list N)) : string := "[]".
Definition demo_instanceof (_ : Exn) : bool := true.

Definition repo_search : SearchArgs :=
  {| search_path := Some "/repo"; search_query := "add";
     search_limit_arg := None; search_extensionFilter := None |}.

Lemma repo_search_well_formed :
  well_formed demo_absolute (demo_env true) repo_search "/repo" None.
Proof. repeat split. Qed.

Lemma search_limit_message_is_no_error_witness :
  well_formed demo_absolute (demo_env true) repo_search "/repo" None /\
  (SnapshotManager.getCodebaseStatus (snapshot (world (quiet indexed_world)))
     (demo_absolute "/repo") = indexed \/
   SnapshotManager.getCodebaseStatus (snapshot (world (quiet indexed_world)))
     (demo_absolute "/repo") = indexing) /\
  full_semanticSearch (demo_absolute "/repo") (search_query repo_search)
    (N.min (resultLimit_of repo_search) 50) (option_map demo_text_of None)
  = inl limit_error /\
  includes_text (errorMessage_of demo_instanceof limit_error)
    demo_limit_message = true /\
  handleSearchCode demo_limit_message demo_absolute full_semanticSearch
    demo_basename demo_format demo_formatHit demo_text_of demo_stringify
    demo_instanceof (demo_env true) repo_search (quiet indexed_world)
  = (inr {| text := demo_limit_message; isError := false |},
     tracked_state (demo_absolute "/repo") (quiet indexed_world)).
Proof.
  split; [exact repo_search_well_formed|].
  split; [left; reflexivity|]. split; [reflexivity|].
  split; [reflexivity|].
  exact (search_limit_message_is_no_error demo_limit_message demo_absolute
           full_semanticSearch demo_basename demo_format demo_formatHit
           demo_text_of demo_stringify demo_instanceof (demo_env true)
           repo_search "/repo" None limit_error (quiet indexed_world)
           repo_search_well_formed (or_introl eq_refl) eq_refl eq_refl).
Defined.

Lemma search_refused_unless_indexed_witness :
  well_formed demo_absolute (demo_env true) repo_search "/repo" None /\
  SnapshotManager.getCodebaseStatus (snapshot (world (quiet failed_world)))
    (demo_absolute "/repo") <> indexed /\
  SnapshotManager.getCodebaseStatus (snapshot (world (quiet failed_world)))
    (demo_absolute "/repo") <> indexing /\
  handleSearchCode demo_limit_message demo_absolute demo_semanticSearch
    demo_basename demo_format demo_formatHit demo_text_of demo_stringify
    demo_instanceof (demo_env true) repo_search (quiet failed_world)
  = (inr {| text := "Error: Codebase '" +:+ demo_absolute "/repo"
              +:+ "' is not indexed. Please index it first using the index_codebase tool.";
            isError := true |},
     tracked_state (demo_absolute "/repo") (quiet failed_world)).
Proof.
  assert (SnapshotManager.getCodebaseStatus
            (snapshot (world (quiet failed_world))) (demo_absolute "/repo")
          <> indexed) as H1 by (vm_compute; discriminate).
  assert (SnapshotManager.getCodebaseStatus
            (snapshot (world (quiet failed_world))) (demo_absolute "/repo")
          <> indexing) as H2 by (vm_compute; discriminate).
  split; [exact repo_search_well_formed|].
  split; [exact H1|]. split; [exact H2|].
  exact (search_refused_unless_indexed demo_limit_message demo_absolute
           demo_semanticSearch demo_basename demo_format demo_formatHit
           demo_text_of demo_stringify demo_instanceof (demo_env true)
           repo_search "/repo" None (quiet failed_world)
           repo_search_well_formed H1 H2).
Defined.

End SearchHandler.

(** ** The vector database: collections and their tables *)

Module CollectionStore.
Import Js SqlText.

Definition Exn : Type := ToolHandlers.Exn.

(** A document as handed to [insert]; [isDefinition] and [metadata] may
    be missing, [metadata] is kept as the JSON text of the object. *)
Record VectorDocument := {
  id : string;
  vector : list Q;
  content : list N;
  relativePath : string;
  startLine : Z;
  endLine : Z;
  fileExtension : string;
  isDefinition : option bool;
  metadata : option string
}.

(** The row [insert] writes for a document:
    [doc.isDefinition || false], [JSON.stringify(doc.metadata || {})]. *)
Definition row_of (doc : VectorDocument) : HybridSearch.Row :=
  {| HybridSearch.id := id doc;
     HybridSearch.vector := vector doc;
     HybridSearch.content := content doc;
     HybridSearch.relative_path := relativePath doc;
     HybridSearch.start_line := startLine doc;
     HybridSearch.end_line := endLine doc;
     HybridSearch.file_extension := fileExtension doc;
     HybridSearch.is_definition :=
       match isDefinition doc with Some b => b | None => false end;
     HybridSearch.metadata :=
       match metadata doc with Some json => json | None => "{}" end |}.

(** A collection table: the dimension of its [vector] column and its
    rows by [id], the primary key. *)
Record Table := {
  dimension : Z;
  rows : gmap string HybridSearch.Row
}.

(** The database: the [collections] table, by [name], with dimension and
    description, and the collection tables by table name. *)
Record Db := {
  collections : gmap (list N) (Z * string);
  tables : gmap (list N) Table
}.

(** A [PostgresVectorDatabase]: how [initializationPromise] settled,
    whether [client] is set, the database behind it and the number of
    statements sent so far. *)
Record Conn := {
  initialization : option Exn;
  client : bool;
  db : Db;
  issued : nat
}.

Definition not_initialized : Exn :=
  {| ToolHandlers.message := "PostgreSQL client not initialized";
     ToolHandlers.as_string := "Error: PostgreSQL client not initialized" |}.

(** *** Statements *)

(** What a statement does to the database when the server carries it
    out, by its SQLSTATE when it is in error. *)
Definition Effect (A : Type) : Type := Db -> string + A * Db.

Definition set_tables (f : gmap (list N) Table -> gmap (list N) Table)
    (d : Db) : Db :=
  {| collections := collections d; tables := f (tables d) |}.

Definition set_collections
    (f : gmap (list N) (Z * string) -> gmap (list N) (Z * string))
    (d : Db) : Db :=
  {| collections := f (collections d); tables := tables d |}.

(** [CREATE TABLE IF NOT EXISTS t (id TEXT PRIMARY KEY, vector
    VECTOR(dimension), ...)] *)
Definition create_table (t : list N) (dim : Z) : Effect unit :=
  fun d =>
    match tables d !! t with
    | Some _ => inr (tt, d)
    | None =>
        inr (tt, set_tables <[t := {| dimension := dim; rows := ∅ |}]> d)
    end.

(** [CREATE INDEX IF NOT EXISTS ... ON t ...]: 42P01 is
    undefined_table. *)
Definition create_index (t : list N) : Effect unit :=
  fun d =>
    match tables d !! t with
    | Some _ => inr (tt, d)
    | None => inl "42P01"
    end.

(** [INSERT INTO collections (name, dimension, description) VALUES ...
    ON CONFLICT (name) DO UPDATE SET dimension = $2, description = $3] *)
Definition upsert_collection (name : list N) (dim : Z) (description : string)
  : Effect unit :=
  fun d => inr (tt, set_collections <[name := (dim, description)]> d).

(** [DROP TABLE IF EXISTS t] *)
Definition drop_table (t : list N) : Effect unit :=
  fun d => inr (tt, set_tables (delete t) d).

(** [DELETE FROM collections WHERE name = $1] *)
Definition delete_collection (name : list N) : Effect unit :=
  fun d => inr (tt, set_collections (delete name) d).

(** [SELECT EXISTS(SELECT 1 FROM collections WHERE name = $1)] *)
Definition select_exists (name : list N) : Effect bool :=
  fun d => inr (bool_decide (is_Some (collections d !! name)), d).

Definition upsert (row : HybridSearch.Row)
    (rs : gmap string HybridSearch.Row) : gmap string HybridSearch.Row :=
  <[HybridSearch.id row := row]> rs.

(** [INSERT INTO t (...) VALUES (...), ... ON CONFLICT (id) DO UPDATE SET
    ...]: 42601 is syntax_error, for a VALUES list without a row; 21000
    is cardinality_violation, for a statement that would update a row a
    second time. *)
Definition insert_rows (t : list N) (new : list HybridSearch.Row)
  : Effect unit :=
  fun d =>
    match new with
    | [] => inl "42601"
    | _ =>
        match tables d !! t with
        | None => inl "42P01"
        | Some table =>
            if bool_decide (NoDup (map HybridSearch.id new))
            then inr (tt, set_tables
                            <[t := {| dimension := dimension table;
                                      rows := foldr upsert (rows table)
                                                new |}]> d)
            else inl "21000"
        end
    end.

(** [DELETE FROM t WHERE id IN ($1, ...)]: an empty list is a syntax
    error. *)
Definition delete_rows (t : list N) (ids : list string) : Effect unit :=
  fun d =>
    match ids with
    | [] => inl "42601"
    | _ =>
        match tables d !! t with
        | None => inl "42P01"
        | Some table =>
            inr (tt, set_tables
                       <[t := {| dimension := dimension table;
                                 rows := foldr delete (rows table) ids |}]> d)
        end
    end.

(** *** The parameters of [insert] *)

(** A value bound to a placeholder; [VVector v] is the text
    ['[' + v.join(',') + ']']. *)
Inductive Value :=
| VString (s : string)
| VText (s : list N)
| VVector (v : list Q)
| VNumber (z : Z)
| VBool (b : bool).

(** What the loop of [insert] pushes for a document. *)
Definition values_of (doc : VectorDocument) : list Value :=
  [VString (id doc); VVector (vector doc); VText (content doc);
   VString (relativePath doc); VNumber (startLine doc);
   VNumber (endLine doc); VString (fileExtension doc);
   VBool match isDefinition doc with Some b => b | None => false end;
   VString match metadata doc with Some json => json | None => "{}" end].

(** The loop state of [insert]; a placeholder group [($a, ..., $i)] is
    kept as the list of its numbers. *)
Record Binding := {
  values : list Value;
  placeholders : list (list nat);
  paramIndex : nat
}.

Definition bind_document (st : Binding) (doc : VectorDocument) : Binding :=
  let p := paramIndex st in
  {| values := values st ++ values_of doc;
     placeholders :=
       placeholders st
       ++ [[p; p + 1; p + 2; p + 3; p + 4; p + 5; p + 6; p + 7; p + 8]%nat];
     paramIndex := (p + 9)%nat |}.

Definition bind_documents (documents : list VectorDocument) : Binding :=
  fold_left bind_document documents
    {| values := []; placeholders := []; paramIndex := 1 |}.

(** *** The methods *)

Definition S (A : Type) : Type := Conn -> (Exn + A) * Conn.

#[global] Instance S_ret : MRet S := fun A a c => (inr a, c).

#[global] Instance S_bind : MBind S := fun A B f m c =>
  match m c with
  | (inl e, c') => (inl e, c')
  | (inr a, c') => f a c'
  end.

Section Methods.

(** [String.prototype.toLowerCase]; the error [pg] throws for a
    SQLSTATE; and the other failures of a statement (connection lost,
    a vector of the wrong dimension, ...), by its place among the
    statements sent. *)
Variable toLowerCase : list N -> list N.
Variable engine_error : string -> Exn.
Variable fault : nat -> option Exn.

Definition sent (d : Db) (c : Conn) : Conn :=
  {| initialization := initialization c; client := client c;
     db := d; issued := Datatypes.S (issued c) |}.

(** [await this.client!.query(...)] *)
Definition query {A} (effect : Effect A) : S A :=
  fun c =>
    match fault (issued c) with
    | Some e => (inl e, sent (db c) c)
    | None =>
        match effect (db c) with
        | inl sqlstate => (inl (engine_error sqlstate), sent (db c) c)
        | inr (a, d) => (inr a, sent d c)
        end
    end.

Definition ensureInitialized : S unit :=
  fun c =>
    match initialization c with
    | Some e => (inl e, c)
    | None => if client c then (inr tt, c) else (inl not_initialized, c)
    end.

Definition tableName (collectionName : list N) : list N :=
  sanitizeTableName toLowerCase collectionName.

Definition createCollection (collectionName : list N) (dim : Z)
    (description : option string) : S unit :=
  ensureInitialized;;
  let t := tableName collectionName in
  query (create_table t dim);;
  query (create_index t);;
  query (create_index t);;
  query (upsert_collection collectionName dim
           match description with
           | Some text => text
           | None => ""
           end).

Definition dropCollection (collectionName : list N) : S unit :=
  ensureInitialized;;
  let t := tableName collectionName in
  query (drop_table t);;
  query (delete_collection collectionName).

Definition hasCollection (collectionName : list N) : S bool :=
  ensureInitialized;;
  query (select_exists collectionName).

Definition insert (collectionName : list N) (documents : list VectorDocument)
  : S unit :=
  ensureInitialized;;
  let t := tableName collectionName in
  query (insert_rows t (map row_of documents)).

Definition delete (collectionName : list N) (ids : list string) : S unit :=
  ensureInitialized;;
  let t := tableName collectionName in
  query (delete_rows t ids).

Definition checkCollectionLimit : S bool :=
  ensureInitialized;;
  mret true.

(** [close]: [client.end()] counts as a statement that changes
    nothing. *)
Definition close : S unit :=
  fun c =>
    if client c then
      match fault (issued c) with
      | Some e => (inl e, sent (db c) c)
      | None => (inr tt, {| initialization := initialization c;
                            client := false; db := db c;
                            issued := Datatypes.S (issued c) |})
      end
    else (inr tt, c).

End Methods.

(** *** Facts *)

Ltac exec :=
  cbv beta iota zeta delta
    [mbind S_bind mret S_ret ensureInitialized query sent createCollection
     dropCollection hasCollection insert delete checkCollectionLimit
     create_table create_index upsert_collection drop_table
     delete_collection select_exists set_tables set_collections];
  repeat progress cbn [fst snd initialization client db issued collections
                       tables].

Section Facts.
Variable toLowerCase : list N -> list N.
Variable engine_error : string -> Exn.
Variable fault : nat -> option Exn.

(** The connection is up. *)
Definition connected (c : Conn) : Prop :=
  initialization c = None /\ client c = true.

(** None of the next [n] statements fails for a reason of its own. *)
Definition undisturbed (c : Conn) (n : nat) : Prop :=
  forall i, (i < n)%nat -> fault (issued c + i)%nat = None.

Lemma undisturbed_at (c : Conn) (n i : nat) :
  undisturbed c n -> (i < n)%nat -> fault (i + issued c)%nat = None.
Proof. intros H Hi. rewrite Nat.add_comm. now apply H. Qed.

(** After [close] every method throws [PostgreSQL client not
    initialized] without sending a statement, and a second [close] does
    nothing. *)
Theorem closed_client_rejects (c c' : Conn) (name : list N) (dim : Z)
    (description : option string) (documents : list VectorDocument)
    (ids : list string) :
  initialization c = None ->
  close fault c = (inr tt, c') ->
  createCollection toLowerCase engine_error fault name dim description c'
  = (inl not_initialized, c') /\
  dropCollection toLowerCase engine_error fault name c'
  = (inl not_initialized, c') /\
  hasCollection engine_error fault name c' = (inl not_initialized, c') /\
  insert toLowerCase engine_error fault name documents c'
  = (inl not_initialized, c') /\
  delete toLowerCase engine_error fault name ids c'
  = (inl not_initialized, c') /\
  checkCollectionLimit c' = (inl not_initialized, c') /\
  close fault c' = (inr tt, c').
Proof.
  intros Hinit Hclose.
  assert (initialization c' = None /\ client c' = false) as [Hi Hc].
  { unfold close in Hclose. destruct (client c) eqn:E.
    - destruct (fault (issued c)); [discriminate|].
      injection Hclose as <-. now split.
    - injection Hclose as <-. now split. }
  unfold close. exec. rewrite Hi, Hc. repeat split.
Qed.

(** [createCollection] on a connection that is up, the server carrying
    out its four statements: the collection is registered with the
    dimension and description given (the empty description when none
    is), replacing a registration under the same name.  A table that
    exists under the table name is kept as it is, rows and dimension,
    whatever dimension is asked for; otherwise an empty table of that
    dimension is created. *)
Theorem createCollection_keeps_table (c : Conn) (name : list N) (dim : Z)
    (description : option string) :
  connected c -> undisturbed c 4 ->
  exists c',
    createCollection toLowerCase engine_error fault name dim description c
    = (inr tt, c') /\
    issued c' = (4 + issued c)%nat /\
    collections (db c')
    = <[name := (dim, match description with
                      | Some text => text
                      | None => ""
                      end)]> (collections (db c)) /\
    tables (db c')
    = match tables (db c) !! tableName toLowerCase name with
      | Some _ => tables (db c)
      | None => <[tableName toLowerCase name
                  := {| dimension := dim; rows := ∅ |}]> (tables (db c))
      end.
Proof.
  intros [Hinit Hclient] Hquiet.
  pose proof (undisturbed_at c 4 0 Hquiet) as H0.
  pose proof (undisturbed_at c 4 1 Hquiet) as H1.
  pose proof (undisturbed_at c 4 2 Hquiet) as H2.
  pose proof (undisturbed_at c 4 3 Hquiet) as H3.
  cbn [Nat.add] in *. exec. rewrite Hinit, Hclient.
  rewrite H0 by lia.
  destruct (tables (db c) !! tableName toLowerCase name) eqn:E; exec;
    rewrite H1 by lia; rewrite ?E, ?lookup_insert_eq; exec;
    rewrite H2 by lia; rewrite ?E, ?lookup_insert_eq; exec;
    rewrite H3 by lia; eexists; repeat split.
Qed.

(** [createCollection] is not one transaction: when its last statement
    fails, the exception leaves a new table behind without the
    collection being registered. *)
Theorem createCollection_not_atomic (c : Conn) (name : list N) (dim : Z)
    (description : option string) (e : Exn) :
  connected c -> undisturbed c 3 ->
  fault (3 + issued c)%nat = Some e ->
  tables (db c) !! tableName toLowerCase name = None ->
  exists c',
    createCollection toLowerCase engine_error fault name dim description c
    = (inl e, c') /\
    tables (db c') !! tableName toLowerCase name
    = Some {| dimension := dim; rows := ∅ |} /\
    collections (db c') = collections (db c).
Proof.
  intros [Hinit Hclient] Hquiet Hfault Hnew.
  pose proof (undisturbed_at c 3 0 Hquiet) as H0.
  pose proof (undisturbed_at c 3 1 Hquiet) as H1.
  pose proof (undisturbed_at c 3 2 Hquiet) as H2.
  cbn [Nat.add] in *. exec. rewrite Hinit, Hclient.
  rewrite H0 by lia. rewrite Hnew. exec.
  rewrite H1 by lia. rewrite lookup_insert_eq. exec.
  rewrite H2 by lia. rewrite lookup_insert_eq. exec.
  rewrite Hfault. eexists. split; [reflexivity|].
  split; [apply lookup_insert_eq | reflexivity].
Qed.

(** Collections are registered by name but stored by table name: when
    two names have the same table name, dropping one drops the table of
    the other, which stays registered, so that [hasCollection] still
    answers true for it. *)
Theorem dropCollection_shared_table (c : Conn) (a b : list N)
    (registration : Z * string) :
  a <> b -> tableName toLowerCase a = tableName toLowerCase b ->
  connected c -> undisturbed c 3 ->
  collections (db c) !! a = Some registration ->
  exists c',
    dropCollection toLowerCase engine_error fault b c = (inr tt, c') /\
    tables (db c') !! tableName toLowerCase a = None /\
    collections (db c') !! a = Some registration /\
    fst (hasCollection engine_error fault a c') = inr true.
Proof.
  intros Hne Hsame [Hinit Hclient] Hquiet Hreg.
  pose proof (undisturbed_at c 3 0 Hquiet) as H0.
  pose proof (undisturbed_at c 3 1 Hquiet) as H1.
  pose proof (undisturbed_at c 3 2 Hquiet) as H2.
  cbn [Nat.add] in *. exec. rewrite Hinit, Hclient.
  rewrite H0 by lia. exec. rewrite H1 by lia. exec.
  eexists. split; [reflexivity|]. exec.
  split; [rewrite Hsame; apply lookup_delete_eq|].
  assert (base.delete b (collections (db c)) !! a = Some registration)
    as Hkept by now rewrite lookup_delete_ne.
  split; [exact Hkept|].
  rewrite Hinit, Hclient. exec. rewrite H2 by lia. cbn [fst]. f_equal.
  apply bool_decide_eq_true. rewrite Hkept. eauto.
Qed.

(** [checkCollectionLimit] sends no statement and never answers false.
    With this database behind the handlers, the validation before
    indexing therefore never refuses a request with the collection-limit
    message: it lets the request pass when the connection is up and
    otherwise reports the exception of [ensureInitialized]. *)
Theorem no_collection_limit (c : Conn) (COLLECTION_LIMIT_MESSAGE : string)
    (env : ToolHandlers.Backend) (absolutePath : string)
    (st : ToolHandlers.St) :
  ToolHandlers.checkCollectionLimit env = fst (checkCollectionLimit c) ->
  snd (checkCollectionLimit c) = c /\
  fst (checkCollectionLimit c) <> inr false /\
  (ToolHandlers.validateCollectionCreation COLLECTION_LIMIT_MESSAGE env
     absolutePath st = (inr None, st) \/
   exists e,
     fst (checkCollectionLimit c) = inl e /\
     ToolHandlers.validateCollectionCreation COLLECTION_LIMIT_MESSAGE env
       absolutePath st
     = (inr (Some {| ToolHandlers.text :=
                       "Error validating collection creation: "
                       +:+ ToolHandlers.error_text e;
                     ToolHandlers.isError := true |}),
        {| ToolHandlers.world := ToolHandlers.world st;
           ToolHandlers.console :=
             ToolHandlers.console st
             ++ [ToolHandlers.error_validation_failed e] |})).
Proof using Type.
  intros Henv. unfold ToolHandlers.validateCollectionCreation.
  rewrite Henv. exec.
  destruct (initialization c) as [e|]; [|destruct (client c)];
    cbn [fst snd]; (split; [reflexivity|]); (split; [discriminate|]).
  - right. exists e. split; reflexivity.
  - left. now destruct st.
  - right. exists not_initialized. split; reflexivity.
Qed.

(** In the statement [insert] builds, the placeholders are numbered
    from 1 without a gap in the order of the documents, nine for each,
    and the values bound are the nine fields of each document in the
    same order: every placeholder has its value and every value its
    placeholder. *)
Theorem insert_binds_in_order (documents : list VectorDocument) :
  values (bind_documents documents) = flat_map values_of documents /\
  concat (placeholders (bind_documents documents))
  = seq 1 (length (values (bind_documents documents))) /\
  length (placeholders (bind_documents documents)) = length documents /\
  Forall (fun group => length group = 9%nat)
         (placeholders (bind_documents documents)).
Proof using Type.
  unfold bind_documents.
  assert (forall st,
            concat (placeholders st) = seq 1 (length (values st)) ->
            paramIndex st = Datatypes.S (length (values st)) ->
            Forall (fun group => length group = 9%nat) (placeholders st) ->
            let st' := fold_left bind_document documents st in
            values st' = values st ++ flat_map values_of documents /\
            concat (placeholders st') = seq 1 (length (values st')) /\
            length (placeholders st')
            = (length (placeholders st) + length documents)%nat /\
            Forall (fun group => length group = 9%nat) (placeholders st'))
    as Hloop.
  { induction documents as [|doc rest IH]; intros st Hseq Hindex Hnine.
    - cbn. rewrite app_nil_r, Nat.add_0_r. repeat split; assumption.
    - cbn [fold_left flat_map].
      destruct (IH (bind_document st doc)) as (H1 & H2 & H3 & H4).
      + cbn [bind_document placeholders values]. rewrite concat_app, Hseq.
        rewrite length_app. cbn [concat app values_of length].
        rewrite seq_app, Hindex. cbn [seq Nat.add].
        repeat (rewrite ?Nat.add_succ_r, ?Nat.add_0_r). reflexivity.
      + cbn [bind_document paramIndex values]. rewrite length_app, Hindex.
        cbn [values_of length]. lia.
      + cbn [bind_document placeholders]. apply Forall_app. split;
          [exact Hnine | repeat constructor].
      + cbv zeta. split; [|split; [|split]].
        * rewrite H1. cbn [bind_document values]. now rewrite <- app_assoc.
        * exact H2.
        * rewrite H3. cbn [bind_document placeholders].
          rewrite length_app. cbn. lia.
        * exact H4. }
  destruct (Hloop {| values := []; placeholders := []; paramIndex := 1 |})
    as (H1 & H2 & H3 & H4); try reflexivity; [constructor|].
  cbv zeta in *. cbn [values placeholders app length Nat.add] in *.
  repeat split; assumption.
Qed.

End Facts.

(** *** A server that answers, and one that stops answering *)

Definition demo_lower (s : list N) : list N :=
  map (fun c => if is_upper c then (c + 32)%N else c) s.

Definition pg_error (sqlstate : string) : Exn :=
  {| ToolHandlers.message := sqlstate;
     ToolHandlers.as_string := "error: " +:+ sqlstate |}.

Definition no_fault (_ : nat) : option Exn := None.

Definition fails_at (n : nat) (i : nat) : option Exn :=
  if (i =? n)%nat then Some ToolHandlers.lost_connection else None.

Definition fresh : Conn :=
  {| initialization := None; client := true;
     db := {| collections := ∅; tables := ∅ |}; issued := 0 |}.

Definition closed : Conn :=
  {| initialization := None; client := false;
     db := {| collections := ∅; tables := ∅ |}; issued := 1 |}.

(** The collection [my.docs] created with dimension 768. *)
Definition with_docs : Conn :=
  snd (createCollection demo_lower pg_error no_fault (str "my.docs") 768
         None fresh).

Lemma no_fault_undisturbed (c : Conn) (n : nat) : undisturbed no_fault c n.
Proof. intros i _. reflexivity. Qed.

Lemma closed_client_rejects_witness :
  initialization fresh = None /\
  close no_fault fresh = (inr tt, closed) /\
  (createCollection demo_lower pg_error no_fault (str "docs") 768 None closed
   = (inl not_initialized, closed) /\
   dropCollection demo_lower pg_error no_fault (str "docs") closed
   = (inl not_initialized, closed) /\
   hasCollection pg_error no_fault (str "docs") closed
   = (inl not_initialized, closed) /\
   insert demo_lower pg_error no_fault (str "docs") [] closed
   = (inl not_initialized, closed) /\
   delete demo_lower pg_error no_fault (str "docs") [] closed
   = (inl not_initialized, closed) /\
   checkCollectionLimit closed = (inl not_initialized, closed) /\
   close no_fault closed = (inr tt, closed)).
Proof.
  split; [reflexivity|]. split; [reflexivity|].
  exact (closed_client_rejects demo_lower pg_error no_fault fresh closed
           (str "docs") 768 None [] [] eq_refl eq_refl).
Defined.

Lemma with_docs_connected : connected with_docs.
Proof. split; reflexivity. Qed.

Lemma createCollection_keeps_table_witness :
  connected with_docs /\ undisturbed no_fault with_docs 4 /\
  exists c',
    createCollection demo_lower pg_error no_fault (str "my.docs") 1024
      (Some "again") with_docs = (inr tt, c') /\
    issued c' = (4 + issued with_docs)%nat /\
    collections (db c')
    = <[str "my.docs" := (1024, "again")]> (collections (db with_docs)) /\
    tables (db c')
    = match tables (db with_docs) !! tableName demo_lower (str "my.docs") with
      | Some _ => tables (db with_docs)
      | None => <[tableName demo_lower (str "my.docs")
                  := {| dimension := 1024; rows := ∅ |}]>
                  (tables (db with_docs))
      end.
Proof.
  split; [exact with_docs_connected|].
  split; [apply no_fault_undisturbed|].
  exact (createCollection_keeps_table demo_lower pg_error no_fault with_docs
           (str "my.docs") 1024 (Some "again") with_docs_connected
           (no_fault_undisturbed with_docs 4)).
Defined.

(** The table of [my.docs] keeps its 768 dimensions when the collection
    is created again with 1024, which is what is then registered. *)
Example dimension_drift :
  let c' := snd (createCollection demo_lower pg_error no_fault
                   (str "my.docs") 1024 None with_docs) in
  option_map dimension (tables (db c') !! str "collection_my_docs")
  = Some 768 /\
  option_map fst (collections (db c') !! str "my.docs") = Some 1024.
Proof. split; vm_compute; reflexivity. Qed.

Lemma fresh_connected : connected fresh.
Proof. split; reflexivity. Qed.

Lemma fails_at_3_undisturbed : undisturbed (fails_at 3) fresh 3.
Proof.
  intros i Hi. unfold fails_at. cbn [issued fresh Nat.add].
  destruct (Nat.eqb_spec i 3); [lia | reflexivity].
Qed.

Lemma createCollection_not_atomic_witness :
  connected fresh /\ undisturbed (fails_at 3) fresh 3 /\
  fails_at 3 (3 + issued fresh)%nat = Some ToolHandlers.lost_connection /\
  tables (db fresh) !! tableName demo_lower (str "docs") = None /\
  exists c',
    createCollection demo_lower pg_error (fails_at 3) (str "docs") 768 None
      fresh = (inl ToolHandlers.lost_connection, c') /\
    tables (db c') !! tableName demo_lower (str "docs")
    = Some {| dimension := 768; rows := ∅ |} /\
    collections (db c') = collections (db fresh).
Proof.
  split; [exact fresh_connected|]. split; [exact fails_at_3_undisturbed|].
  split; [reflexivity|]. split; [reflexivity|].
  exact (createCollection_not_atomic demo_lower pg_error (fails_at 3) fresh
           (str "docs") 768 None ToolHandlers.lost_connection
           fresh_connected fails_at_3_undisturbed eq_refl eq_refl).
Defined.

Lemma my_docs_names : str "my.docs" <> str "my_docs".
Proof. discriminate. Qed.

Lemma my_docs_registered :
  collections (db with_docs) !! str "my.docs" = Some (768, "").
Proof. vm_compute. reflexivity. Qed.

Lemma dropCollection_shared_table_witness :
  str "my.docs" <> str "my_docs" /\
  tableName demo_lower (str "my.docs") = tableName demo_lower (str "my_docs")
  /\ connected with_docs /\ undisturbed no_fault with_docs 3 /\
  collections (db with_docs) !! str "my.docs" = Some (768, "") /\
  exists c',
    dropCollection demo_lower pg_error no_fault (str "my_docs") with_docs
    = (inr tt, c') /\
    tables (db c') !! tableName demo_lower (str "my.docs") = None /\
    collections (db c') !! str "my.docs" = Some (768, "") /\
    fst (hasCollection pg_error no_fault (str "my.docs") c') = inr true.
Proof.
  split; [exact my_docs_names|]. split; [reflexivity|].
  split; [exact with_docs_connected|].
  split; [apply no_fault_undisturbed|].
  split; [exact my_docs_registered|].
  exact (dropCollection_shared_table demo_lower pg_error no_fault with_docs
           (str "my.docs") (str "my_docs") (768, "") my_docs_names eq_refl
           with_docs_connected (no_fault_undisturbed with_docs 3)
           my_docs_registered).
Defined.

Lemma no_collection_limit_witness :
  ToolHandlers.checkCollectionLimit (ToolHandlers.demo_env true)
  = fst (checkCollectionLimit fresh) /\
  snd (checkCollectionLimit fresh) = fresh /\
  fst (checkCollectionLimit fresh) <> inr false /\
  (ToolHandlers.validateCollectionCreation ToolHandlers.demo_limit_message
     (ToolHandlers.demo_env true) "/repo"
     (ToolHandlers.quiet ToolHandlers.empty_world)
   = (inr None, ToolHandlers.quiet ToolHandlers.empty_world) \/
   exists e,
     fst (checkCollectionLimit fresh) = inl e /\
     ToolHandlers.validateCollectionCreation ToolHandlers.demo_limit_message
       (ToolHandlers.demo_env true) "/repo"
       (ToolHandlers.quiet ToolHandlers.empty_world)
     = (inr (Some {| ToolHandlers.text :=
                       "Error validating collection creation: "
                       +:+ ToolHandlers.error_text e;
                     ToolHandlers.isError := true |}),
        {| ToolHandlers.world :=
             ToolHandlers.world (ToolHandlers.quiet ToolHandlers.empty_world);
           ToolHandlers.console :=
             ToolHandlers.console
               (ToolHandlers.quiet ToolHandlers.empty_world)
             ++ [ToolHandlers.error_validation_failed e] |})).
Proof.
  split; [reflexivity|].
  exact (no_collection_limit fresh ToolHandlers.demo_limit_message
           (ToolHandlers.demo_env true) "/repo"
           (ToolHandlers.quiet ToolHandlers.empty_world) eq_refl).
Defined.

End CollectionStore.

(** ** The vector database: plain similarity search *)

Module VectorSearch.
Import Js Ranking PostgresVectorDatabase HybridSearch.

Record SearchOptions := {
  topK : option N;
  threshold : option Q;
  filterExpr : option (list N)
}.

(** [options?.topK || 10] *)
Definition topK_of (options : option SearchOptions) : nat :=
  match options with
  | Some {| topK := Some n |} => if (n =? 0)%N then 10 else N.to_nat n
  | _ => 10
  end.

(** [options?.threshold || 0] *)
Definition threshold_of (options : option SearchOptions) : Q :=
  match options with
  | Some {| threshold := Some x |} => x
  | _ => 0%Q
  end.

Definition similarity_test : list N :=
  str "1 - (vector <=> $1::vector) >= $2".

(** The text after WHERE: the filter is appended when it is given and
    not empty, as it is, without parentheses. *)
Definition where_text (options : option SearchOptions) : list N :=
  similarity_test
  ++ match options with
     | Some {| filterExpr := Some (c :: e) |} =>
         str " AND " ++ parseFilterExpression (c :: e)
     | _ => []
     end.

(** The parameters of the statement: the query vector, the threshold
    and [topK]. *)
Record SearchParams := {
  param1 : list Q;
  param2 : Q;
  param3 : nat
}.

Section Query.

(** The database engine: [1 - (vector <=> q)], the truth of a WHERE text
    on a row under the parameters, and [SELECT ... WHERE keep ORDER BY
    vector <=> q LIMIT k] as the engine answers it by the ivfflat index
    of the table, which is approximate. *)
Variable vector_score : list Q -> Row -> Q.
Variable sql_where : list N -> SearchParams -> Row -> bool.
Variable index_scan : (Row -> bool) -> (Row -> Q) -> nat -> list Row
                      -> list Row.

(** [search] on the table its collection name stands for: the error
    thrown, or the results.  Ascending cosine distance is descending
    similarity. *)
Definition search (conn : Connection) (table : list Row)
    (queryVector : list Q) (options : option SearchOptions)
  : string + list HybridSearchResult :=
  match ensureInitialized conn with
  | Some e => inl e
  | None =>
      let k := topK_of options in
      let params := {| param1 := queryVector;
                       param2 := threshold_of options;
                       param3 := k |} in
      match query_error conn with
      | Some e => inl e
      | None =>
          inr (map (fun row => to_result (row, vector_score queryVector row))
                 (index_scan (sql_where (where_text options) params)
                    (vector_score queryVector) k table))
      end
  end.

End Query.

(** *** What [search] is to return *)

(** The number of results asked for: [topK], 10 when none or 0 is
    given. *)
Definition stated_topK (options : option SearchOptions) : nat :=
  match options with
  | Some o => match topK o with
              | Some 0%N => 10
              | Some n => N.to_nat n
              | None => 10
              end
  | None => 10
  end.

(** The least similarity asked for: [threshold], 0 when none is given. *)
Definition stated_threshold (options : option SearchOptions) : Q :=
  match options with
  | Some o => match threshold o with
              | Some x => x
              | None => 0%Q
              end
  | None => 0%Q
  end.

(** The filter in force: the one given, unless it is empty. *)
Definition stated_filter (options : option SearchOptions)
  : option (list N) :=
  match options with
  | Some o => match filterExpr o with
              | Some [] => None
              | other => other
              end
  | None => None
  end.

(** The condition on a row: the similarity test, and the parsed filter
    after it when one is in force. *)
Definition stated_where (options : option SearchOptions) : list N :=
  match stated_filter options with
  | Some filter =>
      str "1 - (vector <=> $1::vector) >= $2" ++ str " AND "
      ++ parseFilterExpression filter
  | None => str "1 - (vector <=> $1::vector) >= $2"
  end.

Lemma where_text_stated (options : option SearchOptions) :
  where_text options = stated_where options.
Proof.
  unfold where_text, stated_where, stated_filter, similarity_test.
  destruct options as [[k x [[|c e]|]]|]; cbn [filterExpr];
    rewrite ?app_nil_r; reflexivity.
Qed.

Lemma topK_of_stated (options : option SearchOptions) :
  topK_of options = stated_topK options.
Proof.
  destruct options as [[[n|] x filter]|]; try reflexivity. now destruct n.
Qed.

Lemma threshold_of_stated (options : option SearchOptions) :
  threshold_of options = stated_threshold options.
Proof. now destruct options as [[k [x|] filter]|]. Qed.

(** On a connection that is up and answers the statement, [search]
    returns rows of the table that satisfy the condition (the similarity
    test, and the parsed filter when one is in force) under the query
    vector, the threshold (0 when none is given) and the limit ([topK],
    10 when none or 0 is given): each with its similarity as score and
    without its vector, no row twice, at most the limit, by descending
    similarity.  Without a filter every result scores at least the
    threshold.  Of the index scan this is assumed: it returns rows that
    satisfy the WHERE, none twice, in order and no more than LIMIT; not
    that they are the nearest. *)
Theorem search_ranked
    (vector_score : list Q -> Row -> Q)
    (sql_where : list N -> SearchParams -> Row -> bool)
    (index_scan : (Row -> bool) -> (Row -> Q) -> nat -> list Row
                  -> list Row)
    (conn : Connection) (table : list Row) (queryVector : list Q)
    (options : option SearchOptions) :
  (forall (keep : Row -> bool) (key : Row -> Q) (k : nat) (rows : list Row),
      (exists rest,
          Permutation (index_scan keep key k rows ++ rest)
                      (List.filter keep rows)) /\
      (length (index_scan keep key k rows) <= k)%nat /\
      StronglySorted (descending key) (index_scan keep key k rows)) ->
  (forall params t,
      sql_where (str "1 - (vector <=> $1::vector) >= $2") params t = true ->
      (param2 params <= vector_score (param1 params) t)%Q) ->
  List.NoDup (map id table) ->
  ensureInitialized conn = None ->
  query_error conn = None ->
  let params := {| param1 := queryVector;
                   param2 := stated_threshold options;
                   param3 := stated_topK options |} in
  exists out,
    search vector_score sql_where index_scan conn table queryVector options
    = inr out /\
    StronglySorted (descending score) out /\
    (length out <= stated_topK options)%nat /\
    List.NoDup (map (fun r => id (document r)) out) /\
    (forall r, In r out ->
       exists t, In t table /\
                 sql_where (stated_where options) params t = true /\
                 r = to_result (t, vector_score queryVector t)) /\
    Forall (fun r => vector (document r) = []) out /\
    (stated_filter options = None ->
     Forall (fun r => (stated_threshold options <= score r)%Q) out).
Proof.
  intros Hscan Htest Hids Hinit Hquery params.
  unfold search. rewrite Hinit, Hquery. cbv zeta.
  rewrite where_text_stated, topK_of_stated, threshold_of_stated.
  fold params.
  set (keep := sql_where (stated_where options) params).
  set (key := vector_score queryVector).
  destruct (Hscan keep key (stated_topK options) table)
    as ((rest & Hperm) & Hlen & Hsorted).
  set (rows := index_scan keep key (stated_topK options) table) in *.
  assert (forall t, In t rows -> In t table /\ keep t = true) as Hrows.
  { intros t Ht. apply filter_In.
    apply (Permutation_in _ Hperm), in_or_app. now left. }
  eexists. split; [reflexivity|].
  split; [|split; [|split; [|split; [|split]]]].
  - apply (map_sorted _ key score); [reflexivity | exact Hsorted].
  - now rewrite length_map.
  - rewrite map_map. cbn [to_result document id].
    apply (NoDup_filter_ids keep) in Hids.
    apply (Permutation_map id) in Hperm.
    apply (Permutation_NoDup (Permutation_sym Hperm)) in Hids.
    rewrite map_app in Hids. now apply NoDup_app_remove_r in Hids.
  - intros r Hr. apply in_map_iff in Hr as (t & <- & Ht).
    destruct (Hrows t Ht) as [Hin Hkeep]. eauto.
  - apply List.Forall_forall. intros r Hr.
    apply in_map_iff in Hr as (t & <- & _). reflexivity.
  - intros Hnone. apply List.Forall_forall. intros r Hr.
    apply in_map_iff in Hr as (t & <- & Ht).
    destruct (Hrows t Ht) as [_ Hkeep]. unfold keep, stated_where in Hkeep.
    rewrite Hnone in Hkeep. apply Htest in Hkeep. exact Hkeep.
Qed.

(** A toy engine: the similarity is stored in the row, the WHERE text is
    the similarity test whatever it says, and the index scan is exact. *)
Definition demo_similarity (_ : list Q) (t : Row) : Q := hd 0%Q (vector t).

Definition demo_sql_where (_ : list N) (params : SearchParams) (t : Row)
  : bool :=
  Qle_bool (param2 params) (demo_similarity (param1 params) t).

Lemma demo_scan_sound (keep : Row -> bool) (key : Row -> Q) (k : nat)
    (rows : list Row) :
  (exists rest,
      Permutation (demo_scan keep key k rows ++ rest)
                  (List.filter keep rows)) /\
  (length (demo_scan keep key k rows) <= k)%nat /\
  StronglySorted (descending key) (demo_scan keep key k rows).
Proof.
  split; [apply demo_scan_rows|]. unfold demo_scan. split.
  - apply firstn_le_length.
  - apply firstn_sorted, sort_desc_sorted.
Qed.

Lemma search_ranked_witness :
  (forall (keep : Row -> bool) (key : Row -> Q) (k : nat) (rows : list Row),
      (exists rest,
          Permutation (demo_scan keep key k rows ++ rest)
                      (List.filter keep rows)) /\
      (length (demo_scan keep key k rows) <= k)%nat /\
      StronglySorted (descending key) (demo_scan keep key k rows)) /\
  (forall params t,
      demo_sql_where (str "1 - (vector <=> $1::vector) >= $2") params t
      = true ->
      (param2 params <= demo_similarity (param1 params) t)%Q) /\
  List.NoDup (map id demo_table) /\
  ensureInitialized demo_conn = None /\
  query_error demo_conn = None /\
  exists out,
    search demo_similarity demo_sql_where demo_scan demo_conn demo_table
      [1%Q] None = inr out /\
    StronglySorted (descending score) out /\
    (length out <= stated_topK None)%nat /\
    List.NoDup (map (fun r => id (document r)) out) /\
    (forall r, In r out ->
       exists t, In t demo_table /\
                 demo_sql_where (stated_where None)
                   {| param1 := [1%Q]; param2 := stated_threshold None;
                      param3 := stated_topK None |} t = true /\
                 r = to_result (t, demo_similarity [1%Q] t)) /\
    Forall (fun r => vector (document r) = []) out /\
    (stated_filter None = None ->
     Forall (fun r => (stated_threshold None <= score r)%Q) out).
Proof.
  assert (forall params t,
            demo_sql_where (str "1 - (vector <=> $1::vector) >= $2")
              params t = true ->
            (param2 params <= demo_similarity (param1 params) t)%Q) as Htest
    by (intros params t H; now apply Qle_bool_iff).
  assert (List.NoDup (map id demo_table)) as Hids.
  { cbn. repeat constructor; cbn; intuition discriminate. }
  split; [exact demo_scan_sound|]. split; [exact Htest|].
  split; [exact Hids|]. split; [reflexivity|]. split; [reflexivity|].
  exact (search_ranked demo_similarity demo_sql_where demo_scan demo_conn
           demo_table [1%Q] None demo_scan_sound Htest Hids eq_refl eq_refl).
Defined.

End VectorSearch.

(** ** The server: dispatching tool calls *)

Module Server.
Import Js Ranking ToolHandlers SearchFilter IndexingFacts SearchHandler.

(** The [arguments] of a tool call, as far as the handlers read them.
    [force_is_true] is [args?.force === true]; absent lists are empty. *)
Record Arguments := {
  path : option string;
  force_is_true : bool;
  splitter : option string;
  customExtensions : list string;
  ignorePatterns : list string;
  query : string;
  limit : option N;
  extensionFilter : option (list JsValue)
}.

(** The names of the tools the server lists. *)
Definition tools : list string :=
  ["add_codebase"; "search_codebase"; "reindex_codebase"].

(** [new Error(`Unknown tool: ${name}`)] *)
Definition unknown_tool (name : string) : Exn :=
  {| message := "Unknown tool: " +:+ name;
     as_string := "Error: Unknown tool: " +:+ name |}.

(** [{ ...args, force: args?.force === true }] *)
Definition index_args (codebasePath : string) (args : Arguments)
  : IndexArgs :=
  {| arg_path := codebasePath; arg_force := force_is_true args;
     arg_splitter := splitter args;
     arg_customExtensions := customExtensions args;
     arg_ignorePatterns := ignorePatterns args |}.

(** [{ ...args, path: args?.path || null }] *)
Definition search_args (args : Arguments) : SearchArgs :=
  {| search_path := match path args with
                    | Some p => if String.eqb p "" then None else Some p
                    | None => None
                    end;
     search_query := query args;
     search_limit_arg := limit args;
     search_extensionFilter := extensionFilter args |}.

Section CallTool.
Variable COLLECTION_LIMIT_MESSAGE : string.
Variable ensureAbsolutePath : string -> string.
Variable semanticSearch :
  string -> string -> N -> option string -> Exn + list SearchResult.
Variable basename : string -> string.
Variable formatResult : nat -> Item -> string.
Variable formatHit : string -> nat -> SearchResult -> string.
Variable text_of : list N -> string.
Variable JSON_stringify : list (list N) -> string.
Variable instanceof_Error : Exn -> bool.

(** The handler of [CallToolRequestSchema].  An indexing tool called
    without a path is left out ([None]): what [ensureAbsolutePath] makes
    of [undefined] is not in the sources. *)
Definition CallTool (env : Backend) (name : string) (args : Arguments)
  : option (M Response) :=
  if String.eqb name "add_codebase" then
    option_map
      (fun p => handleIndexCodebase COLLECTION_LIMIT_MESSAGE
                  ensureAbsolutePath env (index_args p args))
      (path args)
  else if String.eqb name "search_codebase" then
    Some (handleSearchCode COLLECTION_LIMIT_MESSAGE ensureAbsolutePath
            semanticSearch basename formatResult formatHit text_of
            JSON_stringify instanceof_Error env (search_args args))
  else if String.eqb name "reindex_codebase" then
    option_map
      (fun p => handleReindexCodebase COLLECTION_LIMIT_MESSAGE
                  ensureAbsolutePath env (index_args p args))
      (path args)
  else Some (throw (unknown_tool name)).

(** The start-indexing request a call of an indexing tool makes:
    [add_codebase] with its arguments, [reindex_codebase] with
    [force: true]. *)
Definition index_call (name : string) (args : Arguments)
  : option IndexArgs :=
  if String.eqb name "add_codebase" then
    option_map (fun p => index_args p args) (path args)
  else if String.eqb name "reindex_codebase" then
    option_map
      (fun p => {| arg_path := p; arg_force := true;
                   arg_splitter := splitter args;
                   arg_customExtensions := customExtensions args;
                   arg_ignorePatterns := ignorePatterns args |})
      (path args)
  else None.

(** One turn of the event loop, on the world and the suspended calls.  A
    call of an indexing tool arrives and runs to the first [await] of
    [handleIndexCodebase] or to its response; or a suspended call goes
    on to its next [await] or to its response; or a pending task runs
    one stretch; or another call arrives: [handleSearchCode] reads and
    writes the state of the handlers before its first [await] only, so
    that its turn is its arrival.  Turns come in any order. *)
Inductive server_step : World * list Call -> World * list Call -> Prop :=
| step_index_call (env : Backend) (name : string) (args : Arguments)
    (request : IndexArgs) (w : World) (calls : list Call) :
    index_call name args = Some request ->
    let m := index_arrive ensureAbsolutePath env request in
    server_step (w, calls)
      (exec m w, calls ++ still_pending env request (returned m w))
| step_index_resumed (c : Call) (w : World) (before after : list Call) :
    let m := index_resume COLLECTION_LIMIT_MESSAGE ensureAbsolutePath
               (call_env c) (call_args c) (call_at c) in
    server_step (w, before ++ c :: after)
      (exec m w,
       before ++ still_pending (call_env c) (call_args c) (returned m w)
       ++ after)
| step_other_call (env : Backend) (name : string) (args : Arguments)
    (m : M Response) (w : World) (calls : list Call) :
    index_call name args = None -> CallTool env name args = Some m ->
    server_step (w, calls) (exec m w, calls)
| step_task (j : Job) (ev : JobEvent) (w : World) (calls : list Call) :
    In j (jobs w) -> server_step (w, calls) (exec (job_event j ev) w, calls).

(** A run of the server in which no call of an indexing tool arrives for
    a path while a call for that path is suspended. *)
Inductive server_reachable (s0 : World * list Call)
  : World * list Call -> Prop :=
| server_start : server_reachable s0 s0
| server_next (s s' : World * list Call) :
    server_reachable s0 s -> server_step s s' ->
    calls_apart ensureAbsolutePath (snd s') -> server_reachable s0 s'.

(** A call of a listed tool always ends with a response, whatever the
    file system, the database and the search do; a call of any other
    name throws [Unknown tool] and changes nothing. *)
Theorem CallTool_outcome (env : Backend) (name : string)
    (args : Arguments) (m : M Response) (st : St) :
  CallTool env name args = Some m ->
  if includes tools name
  then exists response st', m st = (inr response, st')
  else m st = (inl (unknown_tool name), st).
Proof.
  unfold CallTool, tools, includes. cbn [existsb].
  destruct (String.eqb name "add_codebase").
  - destruct (path args) as [p|]; [|discriminate].
    intros [= <-]. apply handleIndexCodebase_returns.
  - destruct (String.eqb name "search_codebase").
    + intros [= <-]. apply handleSearchCode_returns.
    + destruct (String.eqb name "reindex_codebase").
      * destruct (path args) as [p|]; [|discriminate].
        intros [= <-]. apply handleIndexCodebase_returns.
      * intros [= <-]. reflexivity.
Qed.

(** The call of an indexing tool is [handleIndexCodebase] on its
    request. *)
Lemma index_call_CallTool (env : Backend) (name : string)
    (args : Arguments) (request : IndexArgs) :
  index_call name args = Some request ->
  CallTool env name args
  = Some (handleIndexCodebase COLLECTION_LIMIT_MESSAGE ensureAbsolutePath
            env request).
Proof.
  unfold index_call, CallTool.
  destruct (String.eqb name "add_codebase") eqn:Eadd.
  { destruct (path args); [|discriminate]. now intros [= <-]. }
  destruct (String.eqb name "search_codebase") eqn:Esearch.
  { apply String.eqb_eq in Esearch. subst name. discriminate. }
  destruct (String.eqb name "reindex_codebase"); [|discriminate].
  destruct (path args); [|discriminate]. now intros [= <-].
Qed.

(** A call of another tool leaves the snapshot and the tasks as they
    are. *)
Lemma other_call_frame (env : Backend) (name : string) (args : Arguments)
    (m : M Response) (w : World) :
  index_call name args = None -> CallTool env name args = Some m ->
  snapshot (exec m w) = snapshot w /\ jobs (exec m w) = jobs w.
Proof.
  unfold index_call, CallTool. intros Hother Hcall.
  destruct (String.eqb name "add_codebase").
  { destruct (path args); discriminate. }
  destruct (String.eqb name "search_codebase").
  { injection Hcall as <-. unfold exec.
    destruct (handleSearchCode_frame COLLECTION_LIMIT_MESSAGE
                ensureAbsolutePath semanticSearch basename formatResult
                formatHit text_of JSON_stringify instanceof_Error env
                (search_args args) {| world := w; console := [] |})
      as (r & st' & -> & [Hw | (p & _ & Hw)]);
      cbn [snd world] in *; rewrite Hw; split; reflexivity. }
  destruct (String.eqb name "reindex_codebase").
  { destruct (path args); discriminate. }
  injection Hcall as <-. split; reflexivity.
Qed.

(** With tool calls of any kind arriving while calls are suspended at
    the [await]s of [handleIndexCodebase] and tasks are pending, from a
    state without tasks: as long as no call of an indexing tool arrives
    for a path while a call for that path is suspended, no two pending
    tasks have the same path, and the path of each is being indexed.
    Searches, re-index requests and calls of unknown tools do not
    disturb what the guard of [handleIndexCodebase] maintains. *)
Theorem server_one_task_per_path (w0 w : World) (calls : list Call) :
  jobs w0 = [] -> server_reachable (w0, []) (w, calls) ->
  List.NoDup (map job_path (jobs w)) /\
  forall j, In j (jobs w) ->
            SnapshotManager.getCodebaseStatus (snapshot w) (job_path j)
            = indexing.
Proof.
  intros Hstart Hrun. change (jobs_ok w).
  enough (jobs_ok w /\ calls_clear ensureAbsolutePath w calls) as [H _]
    by exact H.
  remember (w0, []) as s0 eqn:E0. remember (w, calls) as s eqn:E.
  revert w calls E. induction Hrun as [|s s' Hrun IH Hstep Hapart];
    intros w calls E.
  - subst s0. injection E as <- <-. split.
    + unfold jobs_ok. rewrite Hstart. split; [constructor | intros j []].
    + intros c [].
  - subst s'. destruct s as [w1 calls1].
    destruct (IH w1 calls1 eq_refl) as (Hok & Hclear).
    assert (calls_apart ensureAbsolutePath calls1) as Hapart1.
    { clear -Hrun E0. remember (w1, calls1) as s eqn:E. revert w1 calls1 E.
      destruct Hrun as [|s1 s2 _ _ H]; intros w1 calls1 E.
      - subst s0. injection E as _ <-. constructor.
      - subst s2. exact H. }
    inversion Hstep as [env name args request w' calls' Hcall m
                       | c w' before after m
                       | env name args m w' calls' Hother Hcall
                       | j ev w' calls' Hj]; subst.
    + now apply arrive_keeps_jobs_ok.
    + now apply resume_keeps_jobs_ok.
    + destruct (other_call_frame env name args m w1 Hother Hcall)
        as [Hsnap Hjobs].
      split.
      * destruct Hok as [Hnodup Hidx]. split; rewrite Hjobs;
          [exact Hnodup|]. rewrite Hsnap. exact Hidx.
      * intros c Hc. rewrite Hsnap. now apply Hclear.
    + split; [now apply job_event_keeps_jobs_ok|].
      now apply job_event_keeps_calls_clear.
Qed.

End CallTool.

(** *** Calls for /repo *)

Definition repo_call : Arguments :=
  {| path := Some "/repo"; force_is_true := false; splitter := None;
     customExtensions := []; ignorePatterns := []; query := "add";
     limit := None; extensionFilter := None |}.

Definition demo_CallTool (name : string) : option (M Response) :=
  CallTool demo_limit_message demo_absolute demo_semanticSearch
    demo_basename demo_format demo_formatHit demo_text_of demo_stringify
    demo_instanceof (demo_env true) name repo_call.

Definition unknown_call : M Response := throw (unknown_tool "clear_index").

Lemma CallTool_outcome_witness :
  demo_CallTool "clear_index" = Some unknown_call /\
  (if includes tools "clear_index"
   then exists response st',
          unknown_call (quiet indexed_world) = (inr response, st')
   else unknown_call (quiet indexed_world)
        = (inl (unknown_tool "clear_index"), quiet indexed_world)).
Proof.
  split; [reflexivity|].
  exact (CallTool_outcome demo_limit_message demo_absolute
           demo_semanticSearch demo_basename demo_format demo_formatHit
           demo_text_of demo_stringify demo_instanceof (demo_env true)
           "clear_index" repo_call unknown_call (quiet indexed_world)
           eq_refl).
Defined.

(** /repo added: the call is suspended at [await checkCollectionLimit()],
    then goes on and starts its task; /repo is then searched while the
    task is pending. *)
Definition add_suspended : Call :=
  {| call_env := demo_env true; call_args := index_args "/repo" repo_call;
     call_at := await_checkCollectionLimit |}.

Definition after_add : World :=
  exec (index_resume demo_limit_message demo_absolute (demo_env true)
          (index_args "/repo" repo_call) await_checkCollectionLimit)
       empty_world.

Definition after_search : World :=
  exec (handleSearchCode demo_limit_message demo_absolute
          demo_semanticSearch demo_basename demo_format demo_formatHit
          demo_text_of demo_stringify demo_instanceof (demo_env true)
          (search_args repo_call)) after_add.

Lemma after_search_reachable :
  server_reachable demo_limit_message demo_absolute demo_semanticSearch
    demo_basename demo_format demo_formatHit demo_text_of demo_stringify
    demo_instanceof (empty_world, []) (after_search, []).
Proof.
  apply (server_next _ _ _ _ _ _ _ _ _ _ (after_add, [])).
  - apply (server_next _ _ _ _ _ _ _ _ _ _ (empty_world, [add_suspended])).
    + apply (server_next _ _ _ _ _ _ _ _ _ _ (empty_world, []));
        [apply server_start| |].
      * exact (step_index_call demo_limit_message demo_absolute
                 demo_semanticSearch demo_basename demo_format
                 demo_formatHit demo_text_of demo_stringify demo_instanceof
                 (demo_env true) "add_codebase" repo_call
                 (index_args "/repo" repo_call) empty_world [] eq_refl).
      * apply List.NoDup_cons; [intros [] | apply List.NoDup_nil].
    + exact (step_index_resumed demo_limit_message demo_absolute
               demo_semanticSearch demo_basename demo_format demo_formatHit
               demo_text_of demo_stringify demo_instanceof add_suspended
               empty_world [] []).
    + apply List.NoDup_nil.
  - exact (step_other_call demo_limit_message demo_absolute
             demo_semanticSearch demo_basename demo_format demo_formatHit
             demo_text_of demo_stringify demo_instanceof (demo_env true)
             "search_codebase" repo_call _ after_add [] eq_refl eq_refl).
  - apply List.NoDup_nil.
Qed.

Lemma server_one_task_per_path_witness :
  jobs empty_world = [] /\
  server_reachable demo_limit_message demo_absolute demo_semanticSearch
    demo_basename demo_format demo_formatHit demo_text_of demo_stringify
    demo_instanceof (empty_world, []) (after_search, []) /\
  (List.NoDup (map job_path (jobs after_search)) /\
   forall j, In j (jobs after_search) ->
             SnapshotManager.getCodebaseStatus (snapshot after_search)
               (job_path j) = indexing).
Proof.
  split; [reflexivity|]. split; [exact after_search_reachable|].
  exact (server_one_task_per_path demo_limit_message demo_absolute
           demo_semanticSearch demo_basename demo_format demo_formatHit
           demo_text_of demo_stringify demo_instanceof empty_world
           after_search [] eq_refl after_search_reachable).
Defined.

End Server.

(** ** The AST code splitter: what happens to the text *)

Module ChunkText.
Import Js JsFacts AstCodeSplitter Refiner Chunker SplitterFacts.

(** The characters of a text that are not white space. *)
Definition ink (s : list N) : list N :=
  List.filter (fun c => negb (is_space c)) s.

Lemma ink_app (s t : list N) : ink (s ++ t) = ink s ++ ink t.
Proof. apply List.filter_app. Qed.

Lemma ink_trimStart (s : list N) : ink (trimStart s) = ink s.
Proof.
  induction s as [|c s IH]; [reflexivity|]. cbn [trimStart].
  destruct (is_space c) eqn:E; [|reflexivity].
  rewrite IH. unfold ink. cbn [List.filter]. now rewrite E.
Qed.

Lemma ink_rev (s : list N) : ink (rev s) = rev (ink s).
Proof.
  unfold ink. induction s as [|c s IH]; [reflexivity|].
  cbn [rev List.filter]. rewrite List.filter_app, IH. cbn [List.filter].
  destruct (negb (is_space c)); cbn [rev]; [reflexivity|].
  now rewrite app_nil_r.
Qed.

Lemma ink_trim (s : list N) : ink (trim s) = ink s.
Proof.
  unfold trim, trimEnd.
  now rewrite ink_rev, ink_trimStart, ink_rev, rev_involutive, ink_trimStart.
Qed.

Lemma ink_blank (s : list N) : (len (trim s) >? 0) = false -> ink s = [].
Proof.
  intros H. rewrite <- ink_trim. destruct (trim s); [reflexivity|].
  unfold len in H. cbn in H. discriminate.
Qed.

Lemma ink_cons (c : N) (s : list N) :
  ink (c :: s) = (if is_space c then [] else [c]) ++ ink s.
Proof. unfold ink. cbn [List.filter]. now destruct (is_space c). Qed.

(** The ink of a text is the ink of its lines. *)
Lemma ink_lines (s : list N) : ink s = concat (map ink (split_lines s)).
Proof.
  induction s as [|c s IH]; [reflexivity|]. cbn [split_lines].
  destruct (N.eqb_spec c LF) as [-> | Hc].
  - cbn [map concat app]. rewrite <- IH. reflexivity.
  - pose proof (split_lines_nonempty s) as Hne.
    destruct (split_lines s) as [|l ls]; [congruence|].
    cbn [map concat] in *. now rewrite !ink_cons, IH, app_assoc.
Qed.

Definition ink_of (chunks : list CodeChunk) : list N :=
  concat (map (fun c => ink (content c)) chunks).

Lemma ink_of_app (l1 l2 : list CodeChunk) :
  ink_of (l1 ++ l2) = ink_of l1 ++ ink_of l2.
Proof. unfold ink_of. now rewrite map_app, concat_app. Qed.

Section Loop.
Variables (chunkSize : Z) (chunk : CodeChunk) (n : nat).

Lemma split_step_ink (i : nat) (line : list N) (st : SplitState) :
  let st' := split_step chunkSize chunk n i line st in
  ink_of (subChunks st') ++ ink (currentChunk st')
  = (ink_of (subChunks st) ++ ink (currentChunk st)) ++ ink line.
Proof.
  cbv zeta. unfold split_step.
  assert (ink (if (i =? n - 1)%nat then line else line ++ [LF]) = ink line)
    as Hline.
  { destruct (i =? n - 1)%nat; [reflexivity|].
    rewrite ink_app. cbn. apply app_nil_r. }
  destruct (_ && _); cbn [subChunks currentChunk].
  - rewrite ink_of_app, Hline. unfold ink_of at 2.
    cbn [map concat subChunk content]. now rewrite app_nil_r, ink_trim.
  - now rewrite ink_app, Hline, app_assoc.
Qed.

Lemma split_loop_ink (lines : list (list N)) :
  forall (i : nat) (st : SplitState),
    let st' := split_loop chunkSize chunk n i lines st in
    ink_of (subChunks st') ++ ink (currentChunk st')
    = (ink_of (subChunks st) ++ ink (currentChunk st))
      ++ concat (map ink lines).
Proof.
  induction lines as [|line lines IH]; intros i st; cbn [split_loop].
  - cbn. now rewrite app_nil_r.
  - cbv zeta in *. rewrite IH, split_step_ink. cbn [map concat].
    now rewrite <- !app_assoc.
Qed.

End Loop.

Lemma splitLargeChunk_ink (chunkSize : Z) (chunk : CodeChunk) :
  ink_of (splitLargeChunk chunkSize chunk) = ink (content chunk).
Proof.
  rewrite splitLargeChunk_final. cbv zeta. unfold final_state. cbv zeta.
  pose proof (split_loop_ink chunkSize chunk
                (length (split_lines (content chunk)))
                (split_lines (content chunk)) 0
                {| subChunks := []; currentChunk := [];
                   currentStartLine := startLine (metadata chunk);
                   currentLineCount := 0 |}) as Hloop.
  cbv zeta in Hloop. cbn [subChunks currentChunk] in Hloop.
  change (ink_of [] ++ ink []) with (@nil N) in Hloop.
  cbn [app] in Hloop. rewrite <- ink_lines in Hloop.
  rewrite <- Hloop.
  match goal with |- context [if ?b then _ else _] => destruct b eqn:E end.
  - rewrite ink_of_app. unfold ink_of at 2.
    cbn [map concat subChunk content]. now rewrite app_nil_r, ink_trim.
  - now rewrite (ink_blank _ E), app_nil_r.
Qed.

(** The splitting loop of [refineChunks] loses nothing but white space:
    the characters other than white space of the chunks it returns, read
    in order, are those of the chunks given, whatever the chunk size. *)
Theorem refineSplit_keeps_ink (chunkSize : Z) (chunks : list CodeChunk) :
  ink_of (refineSplit chunkSize chunks) = ink_of chunks.
Proof.
  unfold refineSplit. induction chunks as [|c chunks IH]; [reflexivity|].
  cbn [flat_map]. rewrite ink_of_app, IH.
  change (c :: chunks) with ([c] ++ chunks). rewrite (ink_of_app [c]).
  f_equal. destruct (len (content c) <=? chunkSize); [reflexivity|].
  rewrite splitLargeChunk_ink. unfold ink_of. cbn. now rewrite app_nil_r.
Qed.

(** *** Chunks within chunks *)

(** The index range of every node lies within that of its parent. *)
Fixpoint well_nested (node : SyntaxNode) : bool :=
  match node with
  | mkNode _ _ _ startIndex endIndex children =>
      (startIndex <=? endIndex)%nat
      && forallb (fun c =>
                    match c with
                    | mkNode _ _ _ s e _ =>
                        (startIndex <=? s)%nat && (e <=? endIndex)%nat
                    end && well_nested c) children
  end.

Definition node_type (node : SyntaxNode) : string :=
  match node with mkNode type _ _ _ _ _ => type end.
Definition node_startIndex (node : SyntaxNode) : nat :=
  match node with mkNode _ _ _ s _ _ => s end.
Definition node_endIndex (node : SyntaxNode) : nat :=
  match node with mkNode _ _ _ _ e _ => e end.

Lemma slice_slice (a b a' b' : nat) (code : list N) :
  (a <= a')%nat -> (a' <= b')%nat -> (b' <= b)%nat ->
  slice a' b' code = slice (a' - a) (b' - a) (slice a b code).
Proof.
  intros H1 H2 H3. unfold slice.
  rewrite skipn_firstn_comm, firstn_firstn, skipn_skipn.
  replace (a' - a + a)%nat with a' by lia.
  f_equal. lia.
Qed.

Section Nested.
Variables (code : list N) (splittableTypes : list string)
          (lang : string) (file : option string).

(** The content of the chunk is the text between two indices within the
    range. *)
Definition within_range (lo hi : nat) (c : CodeChunk) : Prop :=
  exists a b, (lo <= a)%nat /\ (a <= b)%nat /\ (b <= hi)%nat /\
              content c = slice a b code.

Lemma traverse_within (node : SyntaxNode) :
  well_nested node = true ->
  Forall (within_range (node_startIndex node) (node_endIndex node))
         (traverse code splittableTypes lang file node).
Proof.
  induction node as [type sr er si ei children IH] using SyntaxNode_rect'.
  cbn [well_nested]. intros [Hrange Hchildren]%andb_true_iff.
  apply Nat.leb_le in Hrange. rewrite forallb_forall in Hchildren.
  cbn [traverse node_startIndex node_endIndex]. apply Forall_app. split.
  - destruct (includes splittableTypes type); [|constructor].
    destruct (len (trim (slice si ei code)) >? 0); repeat constructor.
    exists si, ei. repeat split; try lia.
  - apply Forall_flat_map. rewrite List.Forall_forall in *.
    intros c Hc. specialize (Hchildren c Hc).
    apply andb_true_iff in Hchildren as [Hin Hnested].
    specialize (IH c Hc Hnested). rewrite List.Forall_forall in IH.
    apply List.Forall_forall. intros d Hd.
    destruct (IH d Hd) as (a & b & Ha & Hab & Hb & Hcontent).
    destruct c as [ctype csr cer csi cei cchildren].
    apply andb_true_iff in Hin as [Hlo Hhi].
    apply Nat.leb_le in Hlo, Hhi. cbn [node_startIndex node_endIndex] in *.
    exists a, b. repeat split; try lia. exact Hcontent.
Qed.

End Nested.

(** The traversal goes on below a node it has made a chunk of: in a
    tree whose index ranges nest, the text of every chunk made for a
    descendant is contained in the chunk of the node, so that nested
    functions, methods and classes are stored once for every enclosing
    chunk. *)
Theorem nested_chunks_repeat (node : SyntaxNode) (code : list N)
    (splittableTypes : list string) (lang : string) (file : option string) :
  well_nested node = true ->
  includes splittableTypes (node_type node) = true ->
  len (trim (slice (node_startIndex node) (node_endIndex node) code)) > 0 ->
  exists own rest,
    traverse code splittableTypes lang file node = own :: rest /\
    content own = slice (node_startIndex node) (node_endIndex node) code /\
    Forall (fun c => exists pre post, content own = pre ++ content c ++ post)
           rest.
Proof.
  intros Hnested Hsplittable Hink.
  pose proof (traverse_within code splittableTypes lang file node Hnested)
    as Hall.
  destruct node as [type sr er si ei children].
  cbn [node_type node_startIndex node_endIndex] in *.
  cbn [traverse] in *. rewrite Hsplittable in *.
  apply Z.gt_lt, Z.gtb_lt in Hink. rewrite Hink in *.
  cbn [app] in *. do 2 eexists. split; [reflexivity|].
  split; [reflexivity|]. cbn [content].
  apply Forall_cons_iff in Hall as [_ Hrest].
  eapply List.Forall_impl; [|exact Hrest].
  intros c (a & b & Ha & Hab & Hb & ->).
  rewrite (slice_slice si ei a b code Ha Hab Hb). apply slice_part.
Qed.

(** The class of [class_tree], with its two methods. *)
Definition class_node : SyntaxNode :=
  mkNode "class_declaration" 0 3 0 25
    [mkNode "class" 0 0 0 5 [];
     mkNode "identifier" 0 0 6 7 [];
     mkNode "class_body" 0 3 8 25
       [mkNode "{" 0 0 8 9 [];
        method_node 1 10;
        method_node 2 17;
        mkNode "}" 3 3 24 25 []]].

Lemma nested_chunks_repeat_witness :
  well_nested class_node = true /\
  includes (SPLITTABLE_NODE_TYPES JavaScript) (node_type class_node) = true /\
  len (trim (slice (node_startIndex class_node) (node_endIndex class_node)
               class_code)) > 0 /\
  exists own rest,
    traverse class_code (SPLITTABLE_NODE_TYPES JavaScript) "javascript" None
      class_node = own :: rest /\
    content own
    = slice (node_startIndex class_node) (node_endIndex class_node)
        class_code /\
    Forall (fun c => exists pre post, content own = pre ++ content c ++ post)
           rest.
Proof.
  split; [reflexivity|]. split; [reflexivity|]. split; [reflexivity|].
  apply (nested_chunks_repeat class_node class_code
           (SPLITTABLE_NODE_TYPES JavaScript) "javascript" None);
    reflexivity.
Defined.

End ChunkText.

(** ** The tool handlers: saving the progress of a task *)

Module ProgressFacts.
Import Js Ranking ToolHandlers.

Lemma after_reports_saved (absolutePath : string) (reports : list (Q * Z)) :
  forall (lastSaveTime : Z) (w : World),
    let t' := fst (after_reports absolutePath lastSaveTime reports w) in
    let w' := snd (after_reports absolutePath lastSaveTime reports w) in
    ((t' = lastSaveTime /\ saved w' = saved w) \/
     (exists percentage,
        In (percentage, t') reports /\ lastSaveTime + 2000 <= t' /\
        saved w' !! absolutePath = Some (Indexing percentage))) /\
    (forall percentage currentTime,
        last reports = Some (percentage, currentTime) ->
        currentTime - t' < 2000 \/
        (t' = currentTime /\ saved w' = snapshot w')).
Proof.
  induction reports as [|[percentage currentTime] rest IH];
    intros lastSaveTime w; cbn [after_reports].
  - cbn. split; [now left | discriminate].
  - destruct (Z.geb_spec (currentTime - lastSaveTime) 2000) as [Hdue | Hsoon].
    + match goal with |- context [after_reports _ _ _ ?w1] =>
        destruct (IH currentTime w1) as [Hsaved Hlast] end.
      cbv zeta in *. split.
      * right. destruct Hsaved as [[-> Hkept] | (p & Hin & Hgap & Hp)].
        -- exists percentage. split; [now left|]. split; [lia|].
           rewrite Hkept. cbn.
           unfold SnapshotManager.setCodebaseIndexing.
           apply lookup_insert_eq.
        -- exists p. split; [now right|]. split; [lia | exact Hp].
      * intros p t Hl. destruct rest as [|r rest'].
        -- cbn in Hl. injection Hl as <- <-. right. cbn. split; reflexivity.
        -- apply (Hlast p t). exact Hl.
    + match goal with |- context [after_reports _ _ _ ?w1] =>
        destruct (IH lastSaveTime w1) as [Hsaved Hlast] end.
      cbv zeta in *. split.
      * destruct Hsaved as [[-> Hkept] | (p & Hin & Hgap & Hp)].
        -- left. split; [reflexivity | exact Hkept].
        -- right. exists p. split; [now right|]. split; assumption.
      * intros p t Hl. destruct rest as [|r rest'].
        -- cbn in Hl. injection Hl as <- <-. left. cbn. lia.
        -- apply (Hlast p t). exact Hl.
Qed.

(** The progress callback saves the snapshot only when two seconds have
    passed since the time it last did: after any series of reports the
    saved snapshot is the one the loop began with, or shows the path at
    the percentage of a report that came at least two seconds after the
    time saving last took place, which is then the new time of the last
    save.  The report made last has been saved, saved and current
    snapshot being the same, unless it came less than two seconds after
    the last save: the saved percentage then lags behind. *)
Theorem progress_saved_every_two_seconds (absolutePath : string)
    (reports : list (Q * Z)) (lastSaveTime : Z) (st : St) :
  exists (t' : Z) (st' : St),
    progress_loop absolutePath lastSaveTime reports st = (inr t', st') /\
    ((t' = lastSaveTime /\ saved (world st') = saved (world st)) \/
     (exists percentage,
        In (percentage, t') reports /\ lastSaveTime + 2000 <= t' /\
        saved (world st') !! absolutePath = Some (Indexing percentage))) /\
    (forall percentage currentTime,
        last reports = Some (percentage, currentTime) ->
        currentTime - t' < 2000 \/
        (t' = currentTime /\ saved (world st') = snapshot (world st'))).
Proof.
  rewrite progress_loop_eq. do 2 eexists. split; [reflexivity|].
  cbn [world]. apply after_reports_saved.
Qed.

End ProgressFacts.
